(** * C6-Tools sequence alignment: a shallow embedding of C6-Align.gs and
      playground.gs, and the properties of the alignment engine.

    Conventions of the embedding.
    - JavaScript numbers used as scores are integers ([Z]); the documented
      defaults are 1, -1, -1.  [-Infinity], [Infinity] and [NaN] are explicit
      constructors where the program can meet them.  Averages in the
      guide-tree builder are rationals ([Q]).
    - JavaScript strings are [string], their characters [ascii] (sequences
      are letters, and the gap character in alignments); [s[k]] is
      [String.get k s], and [None] stands for [undefined].
    - JavaScript arrays are lists; [a[i]] is the stdpp lookup [a !! i] and an
      assignment [a[i] = v] is [arr_set].
    - A [for] loop is a fold over its index range; a [while] loop is the
      bounded iteration of its body, with a lemma that the bound is enough.
    - A call that can throw returns a [result]. *)

From Stdlib Require Import ZArith QArith Lqa String Ascii Lia.
From stdpp Require Import base list strings pretty.

Open Scope Z_scope.

(** * Part I: the program *)

(** ** JavaScript arrays, loops and completions *)

(** [for (let i = lo; i < lo + n; i++) st = body i st]. *)
Definition for_loop {S : Type} (lo n : nat) (body : nat → S → S) (s : S) : S :=
  fold_left (λ st i, body i st) (seq lo n) s.

(** A [while] loop: [body st] is the state after one more round, or [None]
    when the loop is left from [st], by its condition or by [break].  The
    loop is cut after [fuel] rounds. *)
Fixpoint while_loop {S : Type} (fuel : nat) (body : S → option S) (s : S) : S :=
  match fuel with
  | O => s
  | Datatypes.S fuel' =>
      match body s with
      | Some s' => while_loop fuel' body s'
      | None => s
      end
  end.

(** [arr[i] = v].  Inside the array this overwrites cell [i]; at
    [i = arr.length] the array grows by one cell.  (Further out JavaScript
    would leave holes; no assignment of the program does that.) *)
Definition arr_set {A : Type} (arr : list A) (i : nat) (v : A) : list A :=
  if decide (i < length arr)%nat then <[i := v]> arr else arr ++ [v].

Inductive error : Type :=
| InvalidInput
| TypeError
| SyntaxError.

(** How a call ends: it returns a value, throws, or never returns. *)
Inductive result (A : Type) : Type :=
| Ok (a : A)
| Throw (e : error)
| Hang.

Arguments Ok {A} a.
Arguments Throw {A} e.
Arguments Hang {A}.

Definition bind {A B : Type} (r : result A) (k : A → result B) : result B :=
  match r with
  | Ok a => k a
  | Throw e => Throw e
  | Hang => Hang
  end.

Notation "x ← r ; k" := (bind r (λ x, k))
  (at level 20, r at level 100, k at level 200, right associativity,
   format "x  ←  r ;  '/' k").
Notation "' p ← r ; k" := (bind r (λ x, match x with p => k end))
  (at level 20, p pattern, r at level 100, k at level 200, right associativity).

(** A [for] loop whose body can throw. *)
Definition for_loop_m {S : Type} (lo n : nat) (body : nat → S → result S) (s : S)
    : result S :=
  fold_left (λ r i, st ← r; body i st) (seq lo n) (Ok s).

(** [while (cond st) st = body st], counting the rounds.  It is only run
    with a [fuel] that the loop cannot use up when every round returns. *)
Fixpoint while_m {S : Type} (fuel : nat) (cond : S → bool) (body : S → result S)
    (s : S) : result (nat * S) :=
  if cond s then
    match fuel with
    | O => Hang
    | Datatypes.S fuel' =>
        s' ← body s;
        '(rounds, final) ← while_m fuel' cond body s';
        Ok (Datatypes.S rounds, final)
    end
  else Ok (O, s).

(** [xs.map(f)] for an [f] that can throw. *)
Fixpoint map_m {A B : Type} (f : A → result B) (xs : list A) : result (list B) :=
  match xs with
  | [] => Ok []
  | x :: rest => y ← f x; ys ← map_m f rest; Ok (y :: ys)
  end.

Abbreviation matrix := (list (list Z)).

(** [m[i][j]], [None] when the cell does not exist. *)
Definition entry (m : matrix) (i j : nat) : option Z :=
  match m !! i with
  | Some row => row !! j
  | None => None
  end.

(** [m[i][j]] read as a number; every read of the program is inside the
    matrix (see [buildMatrix_entry]), where this is the stored number. *)
Definition cell (m : matrix) (i j : nat) : Z :=
  match entry m i j with
  | Some v => v
  | None => 0
  end.

(** [m[i][j] = v]; row [i] exists at every such assignment of the program. *)
Definition mat_set (m : matrix) (i j : nat) (v : Z) : matrix :=
  match m !! i with
  | Some row => arr_set m i (arr_set row j v)
  | None => m
  end.

(** [s[i - 1]]: [undefined] for [i = 0], where the index is -1. *)
Definition char_before (s : string) (i : nat) : option ascii :=
  match i with
  | O => None
  | S k => String.get k s
  end.

(** [Math.max(a, b, c, d)]. *)
Definition max4 (a b c d : Z) : Z := Z.max (Z.max (Z.max a b) c) d.

(** The gap character. *)
Definition gap_char : ascii := "-"%char.

(** ** C6-Align.gs: [_buildMatrix] *)

(** [seq1[i - 1] === seq2[j - 1] ? matchScore : mismatchScore]. *)
Definition pair_score (seq1 seq2 : string) (matchScore mismatchScore : Z)
    (i j : nat) : Z :=
  if decide (char_before seq1 i = char_before seq2 j)
  then matchScore else mismatchScore.

Definition _buildMatrix (seq1 seq2 : string)
    (matchScore mismatchScore gapScore : Z) : matrix :=
  let M := String.length seq1 in
  let N := String.length seq2 in
  (* Initialize the DP matrix *)
  let dp :=
    for_loop 0 (M + 1) (λ i dp,
      let dp := arr_set dp i [] in
      for_loop 0 (N + 1) (λ j dp, mat_set dp i j 0) dp) [] in
  (* Initialize the first row and first column *)
  let dp := for_loop 0 (M + 1) (λ i dp, mat_set dp i 0 (Z.of_nat i * gapScore)) dp in
  let dp := for_loop 0 (N + 1) (λ j dp, mat_set dp 0 j (Z.of_nat j * gapScore)) dp in
  (* Fill in the DP matrix *)
  for_loop 1 M (λ i dp,
    for_loop 1 N (λ j dp,
      let match_ := cell dp (i - 1) (j - 1)
                    + pair_score seq1 seq2 matchScore mismatchScore i j in
      let gap1 := cell dp (i - 1) j + gapScore in
      let gap2 := cell dp i (j - 1) + gapScore in
      mat_set dp i j (max4 match_ gap1 gap2 0)) dp) dp.

(** ** C6-Align.gs: [_traceback] *)

(** A score of the traceback: a number, or [-Infinity] off the matrix. *)
Inductive bound : Type :=
| NegInfinity
| Finite (z : Z).

(** [b + z]. *)
Definition bound_add (b : bound) (z : Z) : bound :=
  match b with
  | NegInfinity => NegInfinity
  | Finite a => Finite (a + z)
  end.

(** [x === b] for a number [x]. *)
Definition num_is (x : Z) (b : bound) : bool :=
  match b with
  | NegInfinity => false
  | Finite z => bool_decide (x = z)
  end.

(** [x > b] for a number [x]. *)
Definition num_gt (x : Z) (b : bound) : bool :=
  match b with
  | NegInfinity => true
  | Finite z => bool_decide (z < x)
  end.

Record max_scan : Type := MaxScan { maxVal : bound; maxI : nat; maxJ : nat }.

(** Lines 185-200: the scan for the first largest cell.  [matrix[0]] exists
    at every call ([_buildMatrix] returns at least one row). *)
Definition traceback_max (m : matrix) : max_scan :=
  let M := length m in
  let N := length (default [] (m !! 0%nat)) in
  for_loop 0 M (λ i st,
    for_loop 0 N (λ j st,
      if num_gt (cell m i j) (maxVal st)
      then MaxScan (Finite (cell m i j)) i j
      else st) st)
    (MaxScan NegInfinity (M - 1) (N - 1)).

(** The variables of the walk: [i], [j] and the two arrays of pushed
    entries (a pushed [seq[i - 1]] is a character, or [undefined]). *)
Record walk : Type := Walk {
  cur_i : nat;
  cur_j : nat;
  arr1 : list (option ascii);
  arr2 : list (option ascii)
}.

Definition diagonalScore (m : matrix) (i j : nat) : bound :=
  if bool_decide (0 < i)%nat && bool_decide (0 < j)%nat
  then Finite (cell m (i - 1) (j - 1)) else NegInfinity.

Definition upScore (m : matrix) (i j : nat) : bound :=
  if bool_decide (0 < i)%nat then Finite (cell m (i - 1) j) else NegInfinity.

Definition leftScore (m : matrix) (i j : nat) : bound :=
  if bool_decide (0 < j)%nat then Finite (cell m i (j - 1)) else NegInfinity.

(** The three tests of lines 213-224, at cell [(i, j)]. *)
Definition diag_test (seq1 seq2 : string) (m : matrix)
    (matchScore mismatchScore : Z) (i j : nat) : bool :=
  num_is (cell m i j)
    (bound_add (diagonalScore m i j) (pair_score seq1 seq2 matchScore mismatchScore i j)).

Definition up_test (m : matrix) (gapScore : Z) (i j : nat) : bool :=
  num_is (cell m i j) (bound_add (upScore m i j) gapScore).

Definition left_test (m : matrix) (gapScore : Z) (i j : nat) : bool :=
  num_is (cell m i j) (bound_add (leftScore m i j) gapScore).

(** Lines 207-231: one round of the [while] loop; [None] when the loop is
    left, through its condition or through [break]. *)
Definition traceback_step (seq1 seq2 : string) (m : matrix)
    (matchScore mismatchScore gapScore : Z) (st : walk) : option walk :=
  let i := cur_i st in
  let j := cur_j st in
  if bool_decide (0 < i)%nat || bool_decide (0 < j)%nat then
    if diag_test seq1 seq2 m matchScore mismatchScore i j then
      Some (Walk (i - 1) (j - 1)
                 (arr1 st ++ [char_before seq1 i]) (arr2 st ++ [char_before seq2 j]))
    else if up_test m gapScore i j then
      Some (Walk (i - 1) j (arr1 st ++ [char_before seq1 i]) (arr2 st ++ [Some gap_char]))
    else if left_test m gapScore i j then
      Some (Walk i (j - 1) (arr1 st ++ [Some gap_char]) (arr2 st ++ [char_before seq2 j]))
    else None
  else None.

(** The walk from the cell found by the scan to the exit of the loop.  Each
    round lowers [i + j], so [maxI + maxJ] rounds are enough
    ([traceback_walk_exit]). *)
Definition traceback_walk (seq1 seq2 : string) (m : matrix)
    (matchScore mismatchScore gapScore : Z) : walk :=
  let start := traceback_max m in
  while_loop (maxI start + maxJ start)
    (traceback_step seq1 seq2 m matchScore mismatchScore gapScore)
    (Walk (maxI start) (maxJ start) [] []).

(** [arr.join("")]: [undefined] entries add nothing. *)
Fixpoint join (arr : list (option ascii)) : string :=
  match arr with
  | [] => ""
  | Some c :: rest => String c (join rest)
  | None :: rest => join rest
  end.

(** The object [{seq1_aligned, seq2_aligned}]. *)
Record alignment : Type := Alignment {
  seq1_aligned : string;
  seq2_aligned : string
}.

Definition _traceback (seq1 seq2 : string) (m : matrix)
    (matchScore mismatchScore gapScore : Z) : alignment :=
  let st := traceback_walk seq1 seq2 m matchScore mismatchScore gapScore in
  Alignment (join (rev (arr1 st))) (join (rev (arr2 st))).

(** Lines 64-67 of [showAlignment] (and the body of the retired [align] of
    C6-Align.gs): the matrix build followed by the traceback. *)
Definition pairwiseAlign (seq1 seq2 : string)
    (matchScore mismatchScore gapScore : Z) : alignment :=
  _traceback seq1 seq2
    (_buildMatrix seq1 seq2 matchScore mismatchScore gapScore)
    matchScore mismatchScore gapScore.

(** ** C6-Align.gs: [_formatAsArray] and [showAlignment] *)

(** Lines 89-95: the symbol for one position. *)
Definition symbol_at (c1 c2 : option ascii) : ascii :=
  if decide (c1 = c2) then "|"%char
  else if decide (c1 = Some gap_char ∨ c2 = Some gap_char) then " "%char
  else "x"%char.

(** Lines 87-96: the symbol track. *)
Definition symbols_track (seq1 seq2 : string) : string :=
  for_loop 0 (String.length seq1)
    (λ i symbols, symbols +:+ String (symbol_at (String.get i seq1) (String.get i seq2)) "")
    "".

(** Lines 98-104, from position [i] on; [substring i size str] is
    [str.slice(i, i + size)].  With [size = 0] and a non-empty string the
    loop never ends; otherwise [str.length] rounds are enough
    ([chunk_loop_returns]). *)
Fixpoint chunk_loop (fuel : nat) (str : string) (size i : nat) (chunks : list string)
    : result (list string) :=
  if decide (i < String.length str)%nat then
    match fuel with
    | O => Hang
    | S fuel' => chunk_loop fuel' str size (i + size) (chunks ++ [substring i size str])
    end
  else Ok chunks.

Definition chunkString (str : string) (size : nat) : result (list string) :=
  chunk_loop (String.length str) str size 0 [].

Definition create2DArray (str : string) (lineSize blockSize : nat)
    : result (list (list string)) :=
  lines ← chunkString str lineSize;
  map_m (λ line, chunkString line blockSize) lines.

(** [[first, ...rest]]: spreading [undefined] throws. *)
Definition spread_row (first : string) (rest : option (list string))
    : result (list string) :=
  match rest with
  | Some cells => Ok (first :: cells)
  | None => Throw TypeError
  end.

Definition _formatAsArray (a : alignment) (basePerChunk chunksPerLine : nat)
    : result (list (list string)) :=
  let seq1 := seq1_aligned a in
  let seq2 := seq2_aligned a in
  let symbols := symbols_track seq1 seq2 in
  let lineSize := (chunksPerLine * basePerChunk)%nat in
  let blockSize := basePerChunk in
  seq1Array ← create2DArray seq1 lineSize blockSize;
  seq2Array ← create2DArray seq2 lineSize blockSize;
  symbolsArray ← create2DArray symbols lineSize blockSize;
  for_loop_m 0 (length seq1Array) (λ i interlacedArray,
    row1 ← spread_row "" (seq1Array !! i);
    row2 ← spread_row (pretty (i * lineSize + 1)%nat) (symbolsArray !! i);
    row3 ← spread_row "" (seq2Array !! i);
    Ok (interlacedArray ++ [row1; row2; row3; [""; ""; ""; ""; ""; ""]])) [].

(** Modelled from the spec: the three definitions below are the parts of
    [cleanup] (C6-Utils, not among the sources) that the spec names: blanks
    (space, tab, line feed, vertical tab, form feed, carriage return) are
    stripped and letters are put in upper case. *)
Definition is_whitespace (c : ascii) : bool :=
  let n := nat_of_ascii c in
  bool_decide (n = 32 ∨ (9 ≤ n ≤ 13))%nat.

Definition to_upper (c : ascii) : ascii :=
  let n := nat_of_ascii c in
  if bool_decide (97 ≤ n ≤ 122)%nat then ascii_of_nat (n - 32) else c.

Fixpoint normalize (s : string) : string :=
  match s with
  | EmptyString => EmptyString
  | String c rest =>
      if is_whitespace c then normalize rest else String (to_upper c) (normalize rest)
  end.

(** Modelled from the spec: [cleanup], the sequence normalizer of C6-Utils,
    which is not among the sources.  The spec has it strip whitespace,
    normalize case to upper case and validate, an empty sequence being
    rejected with [InvalidInput]. *)
Definition cleanup (s : string) : result string :=
  let cleaned := normalize s in
  if decide (cleaned = "") then Throw InvalidInput else Ok cleaned.

Definition showAlignment (seq1 seq2 : string) (basePerChunk chunksPerLine : nat)
    (matchScore mismatchScore gapScore : Z) : result (list (list string)) :=
  seq1 ← cleanup seq1;
  seq2 ← cleanup seq2;
  (* Build the alignment matrix *)
  let matrix := _buildMatrix seq1 seq2 matchScore mismatchScore gapScore in
  (* Find the optimal alignment *)
  let alignment := _traceback seq1 seq2 matrix matchScore mismatchScore gapScore in
  _formatAsArray alignment basePerChunk chunksPerLine.

(** ** playground.gs: the distance estimator *)

(** What [calculateDistanceFromAlignment] and the destructuring of line 135
    can be handed: the object built by [_traceback], or an array of
    strings. *)
Inductive jsval : Type :=
| JAlignment (a : alignment)
| JArray (items : list string).

(** Reading a property of [undefined] throws. *)
Definition defined {A : Type} (x : option A) : result A :=
  match x with
  | Some a => Ok a
  | None => Throw TypeError
  end.

(** [const [alignedSeq1, alignedSeq2] = v]: array destructuring asks [v]
    for its iterator, and a plain object has none. *)
Definition destructure_pair (v : jsval) : result (option string * option string) :=
  match v with
  | JAlignment _ => Throw TypeError
  | JArray items => Ok (items !! 0%nat, items !! 1%nat)
  end.

(** Lines 46-52: the score of one column.  ([alignedSeq2[i]] is not read
    when [alignedSeq1[i]] is a gap; see the loop below.) *)
Definition column_score (c1 c2 : option ascii) (matchScore mismatchScore gapScore : Z) : Z :=
  if decide (c1 = Some gap_char ∨ c2 = Some gap_char) then gapScore
  else if decide (c1 ≠ c2) then mismatchScore
  else matchScore.

Definition calculateDistanceFromAlignment (alignment : jsval)
    (matchScore mismatchScore gapScore : Z) : result Z :=
  '(alignedSeq1, alignedSeq2) ← destructure_pair alignment;
  alignedSeq1 ← defined alignedSeq1;
  for_loop_m 0 (String.length alignedSeq1) (λ i distance,
    if decide (String.get i alignedSeq1 = Some gap_char) then Ok (distance + gapScore)
    else
      alignedSeq2 ← defined alignedSeq2;
      Ok (distance + column_score (String.get i alignedSeq1) (String.get i alignedSeq2)
                                  matchScore mismatchScore gapScore)) 0.

Abbreviation qmatrix := (list (list Q)).

(** [dm[i][j] = v] on the distance matrix. *)
Definition dist_set (dm : qmatrix) (i j : nat) (v : Q) : qmatrix :=
  match dm !! i with
  | Some row => arr_set dm i (arr_set row j v)
  | None => dm
  end.

Definition calculateDistanceMatrix (sequences : list string)
    (matchScore mismatchScore gapScore : Z) : result qmatrix :=
  let numSequences := length sequences in
  let distanceMatrix := replicate numSequences (replicate numSequences 0%Q) in
  for_loop_m 0 numSequences (λ i distanceMatrix,
    for_loop_m (i + 1) (numSequences - (i + 1)) (λ j distanceMatrix,
      seq1 ← defined (sequences !! i);
      seq2 ← defined (sequences !! j);
      let matrix := _buildMatrix seq1 seq2 matchScore mismatchScore gapScore in
      let alignment := _traceback seq1 seq2 matrix matchScore mismatchScore gapScore in
      (* Calculate the distance between the sequences based on the alignment *)
      distance ← calculateDistanceFromAlignment (JAlignment alignment)
                   matchScore mismatchScore gapScore;
      Ok (dist_set (dist_set distanceMatrix i j (inject_Z distance)) j i (inject_Z distance)))
      distanceMatrix) distanceMatrix.

(** ** playground.gs: the guide tree *)

(** The numbers of the guide-tree builder. *)
Inductive jsnum : Type :=
| Num (q : Q)
| PosInfinity
| NaN.

(** [total + x], where [x] is a matrix entry or [undefined]. *)
Definition num_plus (total : jsnum) (x : option Q) : jsnum :=
  match total, x with
  | Num a, Some b => Num (a + b)
  | PosInfinity, Some _ => PosInfinity
  | _, _ => NaN
  end.

(** [total / count]; with [count = 0] the total is 0, and 0/0 is [NaN]. *)
Definition num_div (total : jsnum) (count : nat) : jsnum :=
  match total with
  | Num a => if decide (count = O) then NaN else Num (a / inject_Z (Z.of_nat count))
  | other => other
  end.

(** [a < b]. *)
Definition num_lt (a b : jsnum) : bool :=
  match a, b with
  | Num x, Num y => if Qlt_le_dec x y then true else false
  | Num _, PosInfinity => true
  | _, _ => false
  end.

(** [for (const x of xs) st = body x st], for a body that can throw. *)
Definition for_of_m {A S : Type} (xs : list A) (body : A → S → result S) (s : S)
    : result S :=
  fold_left (λ r x, st ← r; body x st) xs (Ok s).

Definition averageDistance (cluster1 cluster2 : list nat) (distanceMatrix : qmatrix)
    : result jsnum :=
  '(totalDistance, count) ←
    for_of_m cluster1 (λ index1 acc,
      for_of_m cluster2 (λ index2 '(totalDistance, count),
        row ← defined (distanceMatrix !! index1);
        Ok (num_plus totalDistance (row !! index2), S count)) acc) (Num 0, O);
  Ok (num_div totalDistance count).

(** [minDistance] with [minIndex1] and [minIndex2]; the two indices are set
    together, and [None] is their initial -1. *)
Record closest : Type := Closest {
  minDistance : jsnum;
  minIndex : option (nat * nat)
}.

(** Lines 64-77: the scan for the closest pair of clusters. *)
Definition closest_pair (clusters : list (list nat)) (distanceMatrix : qmatrix)
    : result closest :=
  for_loop_m 0 (length clusters) (λ i st,
    for_loop_m (i + 1) (length clusters - (i + 1)) (λ j st,
      ci ← defined (clusters !! i);
      cj ← defined (clusters !! j);
      distance ← averageDistance ci cj distanceMatrix;
      Ok (if num_lt distance (minDistance st) then Closest distance (Some (i, j)) else st))
      st) (Closest PosInfinity None).

(** Lines 79-82: the merge.  With both indices still -1, [clusters[-1]] is
    [undefined] and [.concat] throws.  (Indices set by the scan are inside
    the array, so that the two clusters exist whenever they are set.) *)
Definition merge_clusters (clusters : list (list nat)) (st : closest)
    : result (list (list nat)) :=
  '(minIndex1, minIndex2) ← defined (minIndex st);
  c1 ← defined (clusters !! minIndex1);
  c2 ← defined (clusters !! minIndex2);
  let mergedCluster := c1 ++ c2 in
  Ok (arr_set (delete minIndex2 clusters) minIndex1 mergedCluster).

(** Lines 63-82: one round of the [while] loop. *)
Definition merge_step (distanceMatrix : qmatrix) (clusters : list (list nat))
    : result (list (list nat)) :=
  st ← closest_pair clusters distanceMatrix;
  merge_clusters clusters st.

(** Lines 60-83: the loop, with the number of its rounds.  Every round that
    returns removes one cluster, so [length distanceMatrix] rounds are
    never used up. *)
Definition guide_tree_loop (distanceMatrix : qmatrix) : result (nat * list (list nat)) :=
  let clusters := imap (λ index _, [index]) distanceMatrix in
  while_m (length clusters) (λ clusters, bool_decide (1 < length clusters)%nat)
    (merge_step distanceMatrix) clusters.

Definition constructGuideTree (distanceMatrix : qmatrix) : result (option (list nat)) :=
  '(_, clusters) ← guide_tree_loop distanceMatrix;
  Ok (clusters !! 0%nat).

(** ** playground.gs: progressive alignment *)

(** An entry of the guide tree inside [progressiveAlignment]: a sequence
    index, or the pair [[index1, index2]] written by a merge. *)
Inductive gnode : Type :=
| Leaf (index : nat)
| Merged (index1 index2 : gnode).

(** [sequences[index]]: an array has no element under a pair. *)
Definition at_node {A : Type} (xs : list A) (index : gnode) : option A :=
  match index with
  | Leaf k => xs !! k
  | Merged _ _ => None
  end.

(** [xs[index] = v]: under a pair this sets a named property, and the
    elements stay as they are. *)
Definition set_node {A : Type} (xs : list A) (index : gnode) (v : A) : list A :=
  match index with
  | Leaf k => arr_set xs k v
  | Merged _ _ => xs
  end.

(** Lines 150-164: [align]; the state is [aligned] and [seqIndex].  Either
    argument can be [undefined] when the call is reached. *)
Definition align (sequence : option (list ascii)) (alignedSequence : option string)
    : result (list ascii) :=
  alignedSequence ← defined alignedSequence;
  '(aligned, _) ←
    for_of_m (list_ascii_of_string alignedSequence) (λ base '(aligned, seqIndex),
      sequence ← defined sequence;
      Ok (if decide (Some base = sequence !! seqIndex)
          then (aligned ++ [base], S seqIndex)
          else (aligned ++ [gap_char], seqIndex))) ([], O);
  Ok aligned.

Definition progressive_state : Type := list gnode * list (list ascii).

(** Lines 106-144: one round of the [while] loop. *)
Definition progressive_round (sequences : list string)
    (matchScore mismatchScore gapScore : Z) (st : progressive_state)
    : result progressive_state :=
  let '(guideTree, alignedSequences) := st in
  (* Find the pair of sequences with the minimum distance *)
  found ←
    for_loop_m 0 (length guideTree) (λ i found,
      for_loop_m (i + 1) (length guideTree - (i + 1)) (λ j found,
        index1 ← defined (guideTree !! i);
        index2 ← defined (guideTree !! j);
        seq1 ← defined (at_node sequences index1);
        seq2 ← defined (at_node sequences index2);
        let matrix := _buildMatrix seq1 seq2 matchScore mismatchScore gapScore in
        let alignment := _traceback seq1 seq2 matrix matchScore mismatchScore gapScore in
        distance ← calculateDistanceFromAlignment (JAlignment alignment)
                     matchScore mismatchScore gapScore;
        Ok (if num_lt (Num (inject_Z distance)) (minDistance found)
            then Closest (Num (inject_Z distance)) (Some (i, j)) else found))
        found) (Closest PosInfinity None);
  (* Align the two sequences with the minimum distance *)
  '(minIndex1, minIndex2) ← defined (minIndex found);
  index1 ← defined (guideTree !! minIndex1);
  index2 ← defined (guideTree !! minIndex2);
  seq1 ← defined (at_node sequences index1);
  seq2 ← defined (at_node sequences index2);
  let matrix := _buildMatrix seq1 seq2 matchScore mismatchScore gapScore in
  '(alignedSeq1, alignedSeq2) ←
    destructure_pair
      (JAlignment (_traceback seq1 seq2 matrix matchScore mismatchScore gapScore));
  (* Update the aligned sequences *)
  new1 ← align (at_node alignedSequences index1) alignedSeq1;
  let alignedSequences := set_node alignedSequences index1 new1 in
  new2 ← align (at_node alignedSequences index2) alignedSeq2;
  let alignedSequences := set_node alignedSequences index2 new2 in
  (* Merge the nodes in the guide tree *)
  let mergedNode := Merged index1 index2 in
  Ok (arr_set (delete minIndex2 guideTree) minIndex1 mergedNode, alignedSequences).

Definition progressiveAlignment (sequences : list string) (guideTree : option (list nat))
    (matchScore mismatchScore gapScore : Z) : result (list string) :=
  let alignedSequences := map list_ascii_of_string sequences in
  guideTree ← defined guideTree;
  '(_, (_, alignedSequences)) ←
    while_m (length guideTree) (λ st, bool_decide (1 < length (fst st))%nat)
      (progressive_round sequences matchScore mismatchScore gapScore)
      (map Leaf guideTree, alignedSequences);
  Ok (map string_of_list_ascii alignedSequences).

(** ** playground.gs: [formatMultipleAlignment] and the entry point *)

(** [s.padStart(width, ' ')]. *)
Definition padStart (s : string) (width : nat) : string :=
  string_of_list_ascii (replicate (width - String.length s) " "%char) +:+ s.

(** Line 177: the chunks matched by the expression [.{1,basePerChunk}],
    joined by spaces.  The expression is rejected when [basePerChunk] is 0,
    and [match] gives [null] on the empty string.  (Sequences hold no line
    terminator, the one character that [.] refuses.) *)
Definition chunk_line (sequenceLine : string) (basePerChunk : nat) : result string :=
  if decide (basePerChunk = O) then Throw SyntaxError
  else if decide (sequenceLine = "") then Throw TypeError
  else chunks ← chunkString sequenceLine basePerChunk; Ok (String.concat " " chunks).

(** Lines 172-181, from position [i] on; a round that returns is followed
    by another only if [chunkSize] is positive, so [alignmentLength] rounds
    are enough. *)
Fixpoint format_loop (fuel : nat) (alignedSequences : list string)
    (basePerChunk chunkSize alignmentLength i : nat) (output : list (list string))
    : result (list (list string)) :=
  if decide (i < alignmentLength)%nat then
    match fuel with
    | O => Hang
    | S fuel' =>
        output ←
          for_loop_m 0 (length alignedSequences) (λ j output,
            sequence ← defined (alignedSequences !! j);
            let indexLine := padStart (pretty (j * 2)%nat) 4 +:+ " " in
            let sequenceLine := substring i chunkSize sequence in
            chunkedSequenceLine ← chunk_line sequenceLine basePerChunk;
            Ok (output ++ [[indexLine; chunkedSequenceLine]])) output;
        format_loop fuel' alignedSequences basePerChunk chunkSize alignmentLength
          (i + chunkSize) (output ++ [[""]])
    end
  else Ok output.

Definition formatMultipleAlignment (alignedSequences : list string)
    (basePerChunk chunksPerLine : nat) : result (list (list string)) :=
  first ← defined (alignedSequences !! 0%nat);
  let alignmentLength := String.length first in
  let chunkSize := (basePerChunk * chunksPerLine)%nat in
  format_loop alignmentLength alignedSequences basePerChunk chunkSize alignmentLength 0 [].

Definition multipleSequenceAlignment (sequences : list string)
    (basePerChunk chunksPerLine : nat) (matchScore mismatchScore gapScore : Z)
    : result (list (list string)) :=
  (* Clean up and validate the input sequences *)
  sequences ← map_m cleanup sequences;
  (* Calculate the distance matrix between the input sequences *)
  distanceMatrix ← calculateDistanceMatrix sequences matchScore mismatchScore gapScore;
  (* Construct the guide tree based on the distance matrix *)
  guideTree ← constructGuideTree distanceMatrix;
  (* Perform progressive alignment using the guide tree *)
  alignedSequences ← progressiveAlignment sequences guideTree
                       matchScore mismatchScore gapScore;
  (* Format the output as a 2D array *)
  formatMultipleAlignment alignedSequences basePerChunk chunksPerLine.

(** ** Definitions used to state the properties *)

(** The recurrence that the loops of [_buildMatrix] compute, as a function
    of the cell: the reference against which the matrix is characterised. *)
Fixpoint cell_score (seq1 seq2 : string) (matchScore mismatchScore gapScore : Z)
    (i : nat) : nat → Z :=
  match i with
  | O => λ j, Z.of_nat j * gapScore
  | S i' =>
      fix row (j : nat) : Z :=
        match j with
        | O => Z.of_nat (S i') * gapScore
        | S j' =>
            max4 (cell_score seq1 seq2 matchScore mismatchScore gapScore i' j'
                  + pair_score seq1 seq2 matchScore mismatchScore (S i') (S j'))
                 (cell_score seq1 seq2 matchScore mismatchScore gapScore i' (S j')
                  + gapScore)
                 (row j' + gapScore)
                 0
        end
  end.

(** A matrix of [R] rows of [C] cells. *)
Definition rect {A : Type} (m : list (list A)) (R C : nat) : Prop :=
  length m = R ∧ Forall (λ row, length row = C) m.

(** Cell [(a, b)] comes before cell [(i, j)] in the row-by-row scan. *)
Definition before (i j a b : nat) : Prop :=
  (a < i)%nat ∨ (a = i ∧ (b < j)%nat).

(** The cells that the fill loop has written when it is about to write
    cell [(i, j)], together with the boundary. *)
Definition filled (i j a b : nat) : Prop :=
  a = O ∨ b = O ∨ before i j a b.

Definition fill_inv (seq1 seq2 : string) (matchScore mismatchScore gapScore : Z)
    (i j : nat) (dp : matrix) : Prop :=
  rect dp (String.length seq1 + 1) (String.length seq2 + 1) ∧
  ∀ a b, (a ≤ String.length seq1)%nat → (b ≤ String.length seq2)%nat →
    filled i j a b →
    cell dp a b = cell_score seq1 seq2 matchScore mismatchScore gapScore a b.

(** What the scan of [traceback_max] has established when it is about to
    look at cell [(i, j)] of a matrix with [C] columns: every cell seen is
    at most the maximum so far, which sits at the first cell that holds it. *)
Definition scan_inv (C : nat) (m : matrix) (i j : nat) (st : max_scan) : Prop :=
  (∀ a b, (b < C)%nat → before i j a b → ∃ v, maxVal st = Finite v ∧ cell m a b ≤ v) ∧
  (∀ v, maxVal st = Finite v →
     before i j (maxI st) (maxJ st) ∧ (maxJ st < C)%nat ∧
     cell m (maxI st) (maxJ st) = v ∧
     ∀ a b, (b < C)%nat → before (maxI st) (maxJ st) a b → cell m a b < v).

(** Character [c] occurs in [s]. *)
Definition occurs (c : ascii) (s : string) : Prop :=
  ∃ k, String.get k s = Some c.

(** The three shapes of a column pushed by one round of the walk: a pair
    of symbols of the two sequences, or a symbol of one sequence against a
    gap. *)
Definition emitted (seq1 seq2 : string) (c1 c2 : option ascii) : Prop :=
  (∃ a b, c1 = Some a ∧ c2 = Some b ∧ occurs a seq1 ∧ occurs b seq2) ∨
  (∃ a, c1 = Some a ∧ c2 = Some gap_char ∧ occurs a seq1) ∨
  (∃ b, c1 = Some gap_char ∧ c2 = Some b ∧ occurs b seq2).

(** The invariant of the walk. *)
Definition walk_inv (seq1 seq2 : string) (st : walk) : Prop :=
  (cur_i st ≤ String.length seq1)%nat ∧ (cur_j st ≤ String.length seq2)%nat ∧
  Forall2 (emitted seq1 seq2) (arr1 st) (arr2 st).

(** The characters of [s] before position [k], last first: what the walk
    has pushed when it has followed the diagonal from [(k, k)] to the
    origin. *)
Definition pushed (s : string) (k : nat) : list (option ascii) :=
  map (λ t, String.get t s) (rev (seq 0 k)).

(** [dm[i][j]] of a distance matrix, for indices inside it. *)
Definition dist (dm : qmatrix) (i j : nat) : Q :=
  match dm !! i with
  | Some row => default 0%Q (row !! j)
  | None => 0%Q
  end.

(** The average-linkage distance of the claims: the mean, over all cross
    pairs of members, of the entries of the distance matrix. *)
Definition mean_distance (dm : qmatrix) (cluster1 cluster2 : list nat) : Q :=
  (fold_left (λ acc p, acc + dist dm (fst p) (snd p)) (list_prod cluster1 cluster2) 0
   / inject_Z (Z.of_nat (length (list_prod cluster1 cluster2))))%Q.

(** Clusters over [N] sequences: none is empty, every member is an index. *)
Definition clusters_wf (N : nat) (clusters : list (list nat)) : Prop :=
  Forall (λ c, c ≠ [] ∧ Forall (λ x, (x < N)%nat) c) clusters.

(** What the scan of [closest_pair] has established when it is about to
    look at the pair [(i, j)]: the minimum so far is at most every mean
    seen, and it sits at the first pair that has it. *)
Definition closest_inv (dm : qmatrix) (clusters : list (list nat)) (i j : nat)
    (st : closest) : Prop :=
  (∀ a b ca cb, (a < b)%nat → clusters !! a = Some ca → clusters !! b = Some cb →
     before i j a b →
     ∃ v, minDistance st = Num v ∧ (v <= mean_distance dm ca cb)%Q) ∧
  (∀ v, minDistance st = Num v →
     ∃ a b ca cb, minIndex st = Some (a, b) ∧ (a < b)%nat ∧
       clusters !! a = Some ca ∧ clusters !! b = Some cb ∧ before i j a b ∧
       v = mean_distance dm ca cb ∧
       ∀ a' b' ca' cb', (a' < b')%nat →
         clusters !! a' = Some ca' → clusters !! b' = Some cb' →
         before a b a' b' → (v < mean_distance dm ca' cb')%Q) ∧
  minDistance st ≠ NaN.

(** The cluster lists that the loop of [constructGuideTree] goes through:
    the singletons it starts from, and what a round makes of a list it has
    reached. *)
Inductive reached (dm : qmatrix) : list (list nat) → Prop :=
| reached_start : reached dm (imap (λ index _, [index]) dm)
| reached_round clusters clusters' :
    reached dm clusters → (1 < length clusters)%nat →
    merge_step dm clusters = Ok clusters' → reached dm clusters'.

(** [merges dm n clusters final]: [n] rounds of the loop of
    [constructGuideTree] lead from [clusters] to [final].  A round is run
    on two clusters or more; it is a call of [merge_step] that returns the
    list in which cluster [j] is removed and its members are appended to
    those of cluster [i], for two clusters [i < j] of the list: one cluster
    less. *)
Inductive merges (dm : qmatrix) : nat → list (list nat) → list (list nat) → Prop :=
| merges_done clusters : merges dm O clusters clusters
| merges_round n clusters clusters' final i j ci cj :
    (i < j < length clusters)%nat →
    clusters !! i = Some ci → clusters !! j = Some cj →
    clusters' = <[i := ci ++ cj]> (delete j clusters) →
    merge_step dm clusters = Ok clusters' →
    S (length clusters') = length clusters →
    merges dm n clusters' final →
    merges dm (S n) clusters final.

(** ** Definitions used to state the further properties *)

(** A string without its gap characters. *)
Fixpoint degap (s : string) : string :=
  match s with
  | EmptyString => EmptyString
  | String c rest => if decide (c = gap_char) then degap rest else String c (degap rest)
  end.

(** Array entries other than the gap character. *)
Definition solid (arr : list (option ascii)) : list (option ascii) :=
  filter (λ c, c ≠ Some gap_char) arr.

(** The characters of [s] at positions [lo], ..., [hi - 1], as the entries
    that the walk pushes for them. *)
Definition between (s : string) (lo hi : nat) : list (option ascii) :=
  map (λ t, String.get t s) (seq lo (hi - lo)).

(** What the walk from cell [(I, J)] keeps: each round pushes one column
    and lowers [i] or [j] or both, so that the number of columns lies
    between the longer consumed segment and the sum of the two. *)
Definition count_inv (I J : nat) (st : walk) : Prop :=
  (cur_i st ≤ I)%nat ∧ (cur_j st ≤ J)%nat ∧
  length (arr1 st) = length (arr2 st) ∧
  (I - cur_i st ≤ length (arr1 st))%nat ∧ (J - cur_j st ≤ length (arr1 st))%nat ∧
  (length (arr1 st) ≤ (I - cur_i st) + (J - cur_j st))%nat.

(** The entries pushed so far, gaps left out, are the characters of the
    two sequences between the current cell and the cell [(I, J)] where the
    walk started. *)
Definition segment_inv (seq1 seq2 : string) (I J : nat) (st : walk) : Prop :=
  (cur_i st ≤ I)%nat ∧ (cur_j st ≤ J)%nat ∧
  solid (rev (arr1 st)) = between seq1 (cur_i st) I ∧
  solid (rev (arr2 st)) = between seq2 (cur_j st) J.

(** The number of chunks of [size] characters in a string of [len]
    characters, the last one possibly shorter. *)
Definition chunk_count (len size : nat) : nat := ((len + size - 1) / size)%nat.

(** The chunks of a string: chunk [k] starts at position [k * size]. *)
Definition chunks (str : string) (size : nat) : list string :=
  map (λ k, substring (k * size) size str) (seq 0 (chunk_count (String.length str) size)).

(** The lines of a string, each cut in blocks. *)
Definition blocks (str : string) (lineSize blockSize : nat) : list (list string) :=
  map (λ line, chunks line blockSize) (chunks str lineSize).

(** The table of the pairwise formatter for the lines [rows1], [rowsS] and
    [rows2] of the first sequence, the symbol track and the second sequence,
    from line number [k] on: per line, the three rows with their first
    cell, and a row of six empty cells. *)
Fixpoint interlace (lineSize k : nat) (rows1 rowsS rows2 : list (list string))
    : list (list string) :=
  match rows1, rowsS, rows2 with
  | r1 :: rest1, rs :: restS, r2 :: rest2 =>
      ("" :: r1) :: (pretty (k * lineSize + 1)%nat :: rs) :: ("" :: r2)
      :: [""; ""; ""; ""; ""; ""] :: interlace lineSize (S k) rest1 restS rest2
  | _, _, _ => []
  end.


(** The sum of a list of scores. *)
Definition sumZ (l : list Z) : Z := foldr Z.add 0 l.

(** The three kinds of column that the distance estimator tells apart. *)
Definition is_gap_column (c1 c2 : option ascii) : bool :=
  bool_decide (c1 = Some gap_char ∨ c2 = Some gap_char).

Definition is_mismatch_column (c1 c2 : option ascii) : bool :=
  negb (is_gap_column c1 c2) && bool_decide (c1 ≠ c2).

Definition is_match_column (c1 c2 : option ascii) : bool :=
  negb (is_gap_column c1 c2) && bool_decide (c1 = c2).

(** The number of columns of a kind, over the positions of the first
    string. *)
Definition columns (kind : option ascii → option ascii → bool) (a1 a2 : string) : nat :=
  length (List.filter (λ i, kind (String.get i a1) (String.get i a2))
            (seq 0 (String.length a1))).

(** The rows that [formatMultipleAlignment] writes for [lines] lines of
    [chunkSize] positions: for each line, one row per sequence, then a row
    of one empty cell. *)
Definition format_lines (alignedSequences : list string) (basePerChunk chunkSize lines : nat)
    : list (list string) :=
  concat (map (λ k,
    imap (λ j sequence,
      [padStart (pretty (j * 2)%nat) 4 +:+ " ";
       String.concat " " (chunks (substring (k * chunkSize) chunkSize sequence) basePerChunk)])
      alignedSequences ++ [[""]]) (seq 0 lines)).

(** The characters of a list that are not gaps. *)
Definition degap_list (l : list ascii) : list ascii := filter (λ c, c ≠ gap_char) l.
(** * Part II: properties *)
(** ** Loops: the invariant rule *)

Lemma for_loop_S {S : Type} lo n (body : nat → S → S) s :
  for_loop lo (Datatypes.S n) body s = body (lo + n)%nat (for_loop lo n body s).
Proof.
  unfold for_loop. rewrite seq_S, fold_left_app. reflexivity.
Qed.

Lemma for_loop_ind {S : Type} (P : nat → S → Prop) lo n (body : nat → S → S) s :
  P lo s →
  (∀ k st, (lo ≤ k < lo + n)%nat → P k st → P (Datatypes.S k) (body k st)) →
  P (lo + n)%nat (for_loop lo n body s).
Proof.
  intros Hinit Hstep. induction n as [|n IH].
  - rewrite Nat.add_0_r. exact Hinit.
  - rewrite for_loop_S, Nat.add_succ_r. apply Hstep; [lia|].
    apply IH. intros k st Hk. apply Hstep. lia.
Qed.

(** ** Matrices: shape, reads after writes *)

Lemma arr_set_inside {A : Type} (arr : list A) i v :
  (i < length arr)%nat → arr_set arr i v = <[i := v]> arr.
Proof. intros H. unfold arr_set. destruct (decide _); [reflexivity|lia]. Qed.

Lemma arr_set_end {A : Type} (arr : list A) v :
  arr_set arr (length arr) v = arr ++ [v].
Proof. unfold arr_set. destruct (decide _); [lia|reflexivity]. Qed.

Lemma rect_row {A : Type} (m : list (list A)) R C i row :
  rect m R C → m !! i = Some row → length row = C.
Proof.
  intros [_ HF] Hrow. rewrite Forall_forall in HF. apply HF.
  apply list_elem_of_lookup. eauto.
Qed.

Lemma rect_lookup {A : Type} (m : list (list A)) R C i :
  rect m R C → (i < R)%nat → ∃ row, m !! i = Some row ∧ length row = C.
Proof.
  intros Hr Hi. destruct (lookup_lt_is_Some_2 m i) as [row Hrow]; [destruct Hr; lia|].
  exists row. split; [exact Hrow|]. eapply rect_row; eauto.
Qed.

Lemma rect_entry (m : matrix) R C i j :
  rect m R C → (i < R)%nat → (j < C)%nat → ∃ v, entry m i j = Some v.
Proof.
  intros Hr Hi Hj. destruct (rect_lookup m R C i Hr Hi) as (row & Hrow & Hlen).
  unfold entry. rewrite Hrow. apply lookup_lt_is_Some_2. lia.
Qed.

Lemma mat_set_inside (m : matrix) R C i j v row :
  rect m R C → m !! i = Some row → (j < C)%nat →
  mat_set m i j v = <[i := <[j := v]> row]> m.
Proof.
  intros Hr Hrow Hj. unfold mat_set. rewrite Hrow.
  rewrite (arr_set_inside row); [|erewrite rect_row by eauto; lia].
  apply arr_set_inside. eapply lookup_lt_Some; eauto.
Qed.

Lemma rect_mat_set (m : matrix) R C i j v :
  rect m R C → (i < R)%nat → (j < C)%nat → rect (mat_set m i j v) R C.
Proof.
  intros Hr Hi Hj. destruct (rect_lookup m R C i Hr Hi) as (row & Hrow & Hlen).
  rewrite (mat_set_inside m R C i j v row) by assumption.
  destruct Hr as [HR HF]. split; [rewrite length_insert; exact HR|].
  apply Forall_insert; [exact HF|]. rewrite length_insert. exact Hlen.
Qed.

Lemma entry_mat_set (m : matrix) R C i j v a b :
  rect m R C → (i < R)%nat → (j < C)%nat →
  entry (mat_set m i j v) a b = if decide (a = i ∧ b = j) then Some v else entry m a b.
Proof.
  intros Hr Hi Hj. destruct (rect_lookup m R C i Hr Hi) as (row & Hrow & Hlen).
  rewrite (mat_set_inside m R C i j v row) by assumption.
  unfold entry. destruct (decide (a = i)) as [->|Hne].
  - rewrite list_lookup_insert_eq by (eapply lookup_lt_Some; eauto). rewrite Hrow.
    destruct (decide (b = j)) as [->|Hneb].
    + rewrite list_lookup_insert_eq by lia.
      destruct (decide _) as [_|Hn]; [reflexivity|exfalso; apply Hn; split; reflexivity].
    + rewrite list_lookup_insert_ne by congruence.
      destruct (decide _) as [[_ Heq]|_]; [congruence|reflexivity].
  - rewrite list_lookup_insert_ne by congruence.
    destruct (decide _) as [[Heq _]|_]; [congruence|reflexivity].
Qed.

Lemma cell_mat_set (m : matrix) R C i j v a b :
  rect m R C → (i < R)%nat → (j < C)%nat →
  cell (mat_set m i j v) a b = if decide (a = i ∧ b = j) then v else cell m a b.
Proof.
  intros Hr Hi Hj. unfold cell. rewrite (entry_mat_set m R C) by assumption.
  destruct (decide _); reflexivity.
Qed.

(** ** [_buildMatrix] computes the recurrence *)

Section BuildMatrix.
Variables (seq1 seq2 : string) (matchScore mismatchScore gapScore : Z).

Local Abbreviation M := (String.length seq1).
Local Abbreviation N := (String.length seq2).
Local Abbreviation score := (cell_score seq1 seq2 matchScore mismatchScore gapScore).

Lemma init_row_loop (dp : matrix) :
  for_loop 0 (N + 1) (λ j dp', mat_set dp' (length dp) j 0) (arr_set dp (length dp) [])
  = dp ++ [replicate (N + 1) 0].
Proof.
  rewrite arr_set_end.
  apply (for_loop_ind (λ k st, st = dp ++ [replicate k 0]) 0 (N + 1)); [reflexivity|].
  intros k st _ ->. unfold mat_set.
  rewrite list_lookup_middle by reflexivity.
  unfold arr_set at 2. rewrite length_replicate.
  destruct (decide (k < k)%nat) as [Hlt|_]; [lia|].
  rewrite arr_set_inside by (rewrite length_app; simpl; lia).
  rewrite insert_app_r_alt by lia. rewrite Nat.sub_diag. simpl.
  rewrite <- replicate_S_end. reflexivity.
Qed.

Lemma init_loops :
  for_loop 0 (M + 1) (λ i dp,
    let dp := arr_set dp i [] in
    for_loop 0 (N + 1) (λ j dp, mat_set dp i j 0) dp) []
  = replicate (M + 1) (replicate (N + 1) 0).
Proof.
  apply (for_loop_ind (λ k st, st = replicate k (replicate (N + 1) 0)) 0 (M + 1));
    [reflexivity|].
  intros k st _ ->. cbv zeta.
  pose proof (init_row_loop (replicate k (replicate (N + 1) 0))) as H.
  rewrite length_replicate in H. rewrite H, <- replicate_S_end. reflexivity.
Qed.

Lemma rect_replicate (R C : nat) (v : Z) : rect (replicate R (replicate C v)) R C.
Proof.
  split; [apply length_replicate|].
  apply Forall_replicate. apply length_replicate.
Qed.

Lemma cell_replicate (R C a b : nat) (v : Z) :
  (a < R)%nat → (b < C)%nat → cell (replicate R (replicate C v)) a b = v.
Proof.
  intros Ha Hb. unfold cell, entry.
  rewrite lookup_replicate_2 by exact Ha. rewrite lookup_replicate_2 by exact Hb.
  reflexivity.
Qed.

Lemma first_column_loop (dp : matrix) :
  rect dp (M + 1) (N + 1) →
  let dp' := for_loop 0 (M + 1) (λ i dp, mat_set dp i 0 (Z.of_nat i * gapScore)) dp in
  rect dp' (M + 1) (N + 1) ∧
  ∀ a b, cell dp' a b = if decide ((a ≤ M)%nat ∧ b = O) then Z.of_nat a * gapScore
                        else cell dp a b.
Proof.
  intros Hr dp'. subst dp'.
  pose (P := λ (k : nat) (st : matrix), rect st (M + 1) (N + 1) ∧
    ∀ a b, cell st a b = if decide ((a < k)%nat ∧ b = O) then Z.of_nat a * gapScore
                         else cell dp a b).
  enough (H : P (0 + (M + 1))%nat
                (for_loop 0 (M + 1) (λ i dp, mat_set dp i 0 (Z.of_nat i * gapScore)) dp)).
  { destruct H as [H1 H2]. split; [exact H1|]. intros a b. rewrite H2.
    repeat destruct (decide _); try reflexivity; lia. }
  apply for_loop_ind; unfold P.
  - split; [exact Hr|]. intros a b. destruct (decide _) as [[? _]|_]; [lia|reflexivity].
  - intros k st Hk [Hrs Hc]. split; [apply rect_mat_set; [exact Hrs|lia|lia]|].
    intros a b. rewrite (cell_mat_set st (M + 1) (N + 1)) by (try exact Hrs; lia).
    rewrite Hc.
    destruct (decide (a = k ∧ b = O)) as [[-> ->]|Hn];
      destruct (decide _) as [Hy|Hy']; try reflexivity; try lia.
    all: destruct (decide _) as [Hz|Hz]; try reflexivity; lia.
Qed.

Lemma first_row_loop (dp : matrix) :
  rect dp (M + 1) (N + 1) →
  let dp' := for_loop 0 (N + 1) (λ j dp, mat_set dp 0 j (Z.of_nat j * gapScore)) dp in
  rect dp' (M + 1) (N + 1) ∧
  ∀ a b, cell dp' a b = if decide (a = O ∧ (b ≤ N)%nat) then Z.of_nat b * gapScore
                        else cell dp a b.
Proof.
  intros Hr dp'. subst dp'.
  pose (P := λ (k : nat) (st : matrix), rect st (M + 1) (N + 1) ∧
    ∀ a b, cell st a b = if decide (a = O ∧ (b < k)%nat) then Z.of_nat b * gapScore
                         else cell dp a b).
  enough (H : P (0 + (N + 1))%nat
                (for_loop 0 (N + 1) (λ j dp, mat_set dp 0 j (Z.of_nat j * gapScore)) dp)).
  { destruct H as [H1 H2]. split; [exact H1|]. intros a b. rewrite H2.
    repeat destruct (decide _); try reflexivity; lia. }
  apply for_loop_ind; unfold P.
  - split; [exact Hr|]. intros a b. destruct (decide _) as [[_ ?]|_]; [lia|reflexivity].
  - intros k st Hk [Hrs Hc]. split; [apply rect_mat_set; [exact Hrs|lia|lia]|].
    intros a b. rewrite (cell_mat_set st (M + 1) (N + 1)) by (try exact Hrs; lia).
    rewrite Hc.
    destruct (decide (a = O ∧ b = k)) as [[-> ->]|Hn];
      destruct (decide _) as [Hy|Hy']; try reflexivity; try lia.
    all: destruct (decide _) as [Hz|Hz]; try reflexivity; lia.
Qed.

Lemma score_row0 j : score O j = Z.of_nat j * gapScore.
Proof. reflexivity. Qed.

Lemma score_col0 i : score i O = Z.of_nat i * gapScore.
Proof. destruct i; reflexivity. Qed.

Lemma score_step i j :
  score (S i) (S j) =
  max4 (score i j + pair_score seq1 seq2 matchScore mismatchScore (S i) (S j))
       (score i (S j) + gapScore) (score (S i) j + gapScore) 0.
Proof. reflexivity. Qed.

(** One execution of the body of the inner fill loop. *)
Lemma fill_cell i j dp :
  (1 ≤ i ≤ M)%nat → (1 ≤ j ≤ N)%nat →
  fill_inv seq1 seq2 matchScore mismatchScore gapScore i j dp →
  fill_inv seq1 seq2 matchScore mismatchScore gapScore i (S j)
    (mat_set dp i j
       (max4 (cell dp (i - 1) (j - 1) + pair_score seq1 seq2 matchScore mismatchScore i j)
             (cell dp (i - 1) j + gapScore) (cell dp i (j - 1) + gapScore) 0)).
Proof.
  intros Hi Hj [Hr Hc]. split; [apply rect_mat_set; [exact Hr|lia|lia]|].
  intros a b Ha Hb Hf. rewrite (cell_mat_set dp (M + 1) (N + 1)) by (try exact Hr; lia).
  destruct (decide (a = i ∧ b = j)) as [[-> ->]|Hn].
  - destruct i as [|i']; [lia|]. destruct j as [|j']; [lia|].
    rewrite score_step. simpl Nat.sub. rewrite !Nat.sub_0_r.
    rewrite !Hc; [reflexivity| | | | | | | | |]; unfold filled, before; lia.
  - apply Hc; [exact Ha|exact Hb|]. unfold filled, before in *. lia.
Qed.

Lemma fill_row i dp :
  (1 ≤ i ≤ M)%nat → fill_inv seq1 seq2 matchScore mismatchScore gapScore i 1 dp →
  fill_inv seq1 seq2 matchScore mismatchScore gapScore (S i) 1
    (for_loop 1 N (λ j dp,
      let match_ := cell dp (i - 1) (j - 1)
                    + pair_score seq1 seq2 matchScore mismatchScore i j in
      let gap1 := cell dp (i - 1) j + gapScore in
      let gap2 := cell dp i (j - 1) + gapScore in
      mat_set dp i j (max4 match_ gap1 gap2 0)) dp).
Proof.
  intros Hi Hinv.
  enough (H : fill_inv seq1 seq2 matchScore mismatchScore gapScore i (1 + N)
    (for_loop 1 N (λ j dp,
      let match_ := cell dp (i - 1) (j - 1)
                    + pair_score seq1 seq2 matchScore mismatchScore i j in
      let gap1 := cell dp (i - 1) j + gapScore in
      let gap2 := cell dp i (j - 1) + gapScore in
      mat_set dp i j (max4 match_ gap1 gap2 0)) dp)).
  { destruct H as [Hr Hc]. split; [exact Hr|]. intros a b Ha Hb Hf.
    apply Hc; [exact Ha|exact Hb|]. unfold filled, before in *. lia. }
  apply (for_loop_ind (fill_inv seq1 seq2 matchScore mismatchScore gapScore i)); [exact Hinv|].
  intros k st Hk Hst. cbv zeta. apply fill_cell; [lia|lia|exact Hst].
Qed.

(** The matrix has [M + 1] rows of [N + 1] cells, and cell [(i, j)] holds
    the value of the recurrence. *)
Lemma buildMatrix_spec :
  let dp := _buildMatrix seq1 seq2 matchScore mismatchScore gapScore in
  rect dp (M + 1) (N + 1) ∧
  ∀ i j, (i ≤ M)%nat → (j ≤ N)%nat → cell dp i j = score i j.
Proof.
  intros dp. subst dp. unfold _buildMatrix. cbv zeta.
  pose proof init_loops as Hinit. cbv zeta in Hinit. rewrite Hinit. clear Hinit.
  pose proof (rect_replicate (M + 1) (N + 1) 0) as Hr0.
  destruct (first_column_loop _ Hr0) as [Hr1 Hc1].
  destruct (first_row_loop _ Hr1) as [Hr2 Hc2].
  cbv zeta.
  enough (H : fill_inv seq1 seq2 matchScore mismatchScore gapScore (1 + M) 1
    (for_loop 1 M (λ i dp,
      for_loop 1 N (λ j dp,
        let match_ := cell dp (i - 1) (j - 1)
                      + pair_score seq1 seq2 matchScore mismatchScore i j in
        let gap1 := cell dp (i - 1) j + gapScore in
        let gap2 := cell dp i (j - 1) + gapScore in
        mat_set dp i j (max4 match_ gap1 gap2 0)) dp)
      (for_loop 0 (N + 1) (λ j dp, mat_set dp 0 j (Z.of_nat j * gapScore))
        (for_loop 0 (M + 1) (λ i dp, mat_set dp i 0 (Z.of_nat i * gapScore))
          (replicate (M + 1) (replicate (N + 1) 0)))))).
  { destruct H as [Hr Hc]. split; [exact Hr|]. intros i j Hi Hj.
    apply Hc; [exact Hi|exact Hj|]. unfold filled, before. lia. }
  apply (for_loop_ind (λ k st, fill_inv seq1 seq2 matchScore mismatchScore gapScore k 1 st)).
  - split; [exact Hr2|]. intros a b Ha Hb Hf. rewrite Hc2, Hc1.
    destruct (decide (a = O ∧ (b ≤ N)%nat)) as [[-> _]|Hn]; [rewrite score_row0; reflexivity|].
    destruct (decide ((a ≤ M)%nat ∧ b = O)) as [[_ ->]|Hn']; [rewrite score_col0; reflexivity|].
    unfold filled, before in Hf. lia.
  - intros k st Hk Hst. apply fill_row; [lia|exact Hst].
Qed.

Lemma buildMatrix_entry i j :
  (i ≤ M)%nat → (j ≤ N)%nat →
  entry (_buildMatrix seq1 seq2 matchScore mismatchScore gapScore) i j = Some (score i j).
Proof.
  intros Hi Hj. destruct buildMatrix_spec as [Hr Hc].
  destruct (rect_entry _ _ _ i j Hr) as [v Hv]; [lia|lia|].
  specialize (Hc i j Hi Hj). unfold cell in Hc. rewrite Hv in Hc. congruence.
Qed.
End BuildMatrix.

(** ** [while] loops: invariants and exit *)

Lemma while_loop_inv {S : Type} (P : S → Prop) fuel (body : S → option S) s :
  P s → (∀ st st', P st → body st = Some st' → P st') → P (while_loop fuel body s).
Proof.
  intros Hs Hstep. revert s Hs. induction fuel as [|fuel IH]; intros s Hs; simpl.
  - exact Hs.
  - destruct (body s) as [s'|] eqn:Hb; [|exact Hs]. apply IH. eapply Hstep; eauto.
Qed.

Lemma while_loop_exit {S : Type} (mu : S → nat) fuel (body : S → option S) s :
  (∀ st st', body st = Some st' → (mu st' < mu st)%nat) →
  (mu s ≤ fuel)%nat → body (while_loop fuel body s) = None.
Proof.
  intros Hdec. revert s. induction fuel as [|fuel IH]; intros s Hs; simpl.
  - destruct (body s) as [s'|] eqn:Hb; [|reflexivity].
    specialize (Hdec _ _ Hb). lia.
  - destruct (body s) as [s'|] eqn:Hb; [|exact Hb].
    apply IH. specialize (Hdec _ _ Hb). lia.
Qed.

(** ** The scan for the largest cell *)

Lemma scan_cell C (m : matrix) i j st :
  (j < C)%nat → scan_inv C m i j st →
  scan_inv C m i (S j)
    (if num_gt (cell m i j) (maxVal st) then MaxScan (Finite (cell m i j)) i j else st).
Proof.
  intros Hj [Hle Hat]. unfold num_gt.
  destruct (maxVal st) as [|v] eqn:Hv.
  - split; simpl.
    + intros a b Hb Hbef. exists (cell m i j). split; [reflexivity|].
      destruct (decide (a = i ∧ b = j)) as [[-> ->]|Hn]; [lia|].
      destruct (Hle a b Hb) as (v & Hv' & _); [unfold before in *; lia|congruence].
    + intros v [= <-]. repeat split; [unfold before; lia|exact Hj|].
      intros a b Hb Hbef. destruct (Hle a b Hb Hbef) as (v & Hv' & _). congruence.
  - destruct (Hat v eq_refl) as (Hpos & HmaxJ & Hcell & Hfirst).
    destruct (bool_decide (v < cell m i j)) eqn:Hgt.
    + apply bool_decide_eq_true in Hgt. split; simpl.
      * intros a b Hb Hbef. exists (cell m i j). split; [reflexivity|].
        destruct (decide (a = i ∧ b = j)) as [[-> ->]|Hn]; [lia|].
        destruct (Hle a b Hb) as (v' & Hv' & Hle'); [unfold before in *; lia|].
        assert (v' = v) by congruence. lia.
      * intros v' [= <-]. repeat split; [unfold before; lia|exact Hj|].
        intros a b Hb Hbef. destruct (Hle a b Hb Hbef) as (v' & Hv' & Hle').
        assert (v' = v) by congruence. lia.
    + apply bool_decide_eq_false in Hgt. split.
      * intros a b Hb Hbef. exists v. split; [exact Hv|].
        destruct (decide (a = i ∧ b = j)) as [[-> ->]|Hn]; [lia|].
        destruct (Hle a b Hb) as (v' & Hv' & Hle'); [unfold before in *; lia|].
        assert (v' = v) by congruence. lia.
      * intros v' Hv'. assert (v' = v) by congruence. subst v'.
        repeat split; [unfold before in *; lia|exact HmaxJ|exact Hcell|exact Hfirst].
Qed.

Lemma scan_row C (m : matrix) i st :
  scan_inv C m i 0 st →
  scan_inv C m (S i) 0
    (for_loop 0 C (λ j st,
       if num_gt (cell m i j) (maxVal st) then MaxScan (Finite (cell m i j)) i j else st) st).
Proof.
  intros Hinv.
  enough (H : scan_inv C m i (0 + C)
    (for_loop 0 C (λ j st,
       if num_gt (cell m i j) (maxVal st) then MaxScan (Finite (cell m i j)) i j else st) st)).
  { destruct H as [Hle Hat]. split.
    - intros a b Hb Hbef. apply Hle; [exact Hb|]. unfold before in *. lia.
    - intros v Hv. destruct (Hat v Hv) as (Hpos & HmaxJ & Hrest).
      split; [unfold before in *; lia|]. split; [exact HmaxJ|exact Hrest]. }
  apply (for_loop_ind (scan_inv C m i)); [exact Hinv|].
  intros k st' Hk Hst'. apply scan_cell; [lia|exact Hst'].
Qed.

(** The scan returns the first cell, row by row, that holds the largest
    value of the matrix. *)
Lemma traceback_max_spec (m : matrix) R C :
  rect m R C → (0 < R)%nat → (0 < C)%nat →
  let st := traceback_max m in
  (maxI st < R)%nat ∧ (maxJ st < C)%nat ∧
  maxVal st = Finite (cell m (maxI st) (maxJ st)) ∧
  (∀ a b, (a < R)%nat → (b < C)%nat → cell m a b ≤ cell m (maxI st) (maxJ st)) ∧
  (∀ a b, (b < C)%nat → before (maxI st) (maxJ st) a b →
     cell m a b < cell m (maxI st) (maxJ st)).
Proof.
  intros Hr HR HC st. subst st. unfold traceback_max.
  destruct (rect_lookup m R C O Hr HR) as (row0 & Hrow0 & Hlen0).
  rewrite Hrow0. simpl default. rewrite Hlen0.
  destruct Hr as [HlenR _]. rewrite HlenR.
  set (body := λ (i : nat) (st : max_scan),
    for_loop 0 C (λ j st,
      if num_gt (cell m i j) (maxVal st) then MaxScan (Finite (cell m i j)) i j else st) st).
  set (init := MaxScan NegInfinity (R - 1) (C - 1)).
  assert (H : scan_inv C m (0 + R) 0 (for_loop 0 R body init)).
  { apply (for_loop_ind (λ i st, scan_inv C m i 0 st)).
    - split.
      + intros a b _ Hbef. unfold before in Hbef. lia.
      + intros v Hv. discriminate Hv.
    - intros k st _ Hst. apply scan_row. exact Hst. }
  destruct H as [Hle Hat]. simpl in Hle, Hat.
  destruct (Hle O O HC) as (v & Hv & _); [unfold before; lia|].
  destruct (Hat v Hv) as (Hpos & HmaxJ & Hcell & Hfirst).
  split; [unfold before in Hpos; lia|]. split; [exact HmaxJ|].
  split; [congruence|]. split.
  - intros a b Ha Hb. destruct (Hle a b Hb) as (v' & Hv' & Hle'); [unfold before; lia|].
    assert (v' = v) by congruence. lia.
  - intros a b Hb Hbef. rewrite Hcell. apply Hfirst; assumption.
Qed.

(** ** One round of the walk *)

Lemma diag_test_true seq1 seq2 (m : matrix) ms mm i j :
  diag_test seq1 seq2 m ms mm i j = true →
  (0 < i)%nat ∧ (0 < j)%nat ∧
  cell m i j = cell m (i - 1) (j - 1) + pair_score seq1 seq2 ms mm i j.
Proof.
  unfold diag_test, diagonalScore.
  destruct (bool_decide (0 < i)%nat) eqn:Hi; [|discriminate].
  destruct (bool_decide (0 < j)%nat) eqn:Hj; [|discriminate].
  simpl. intros H. apply bool_decide_eq_true in H, Hi, Hj. auto.
Qed.

Lemma up_test_true (m : matrix) g i j :
  up_test m g i j = true → (0 < i)%nat ∧ cell m i j = cell m (i - 1) j + g.
Proof.
  unfold up_test, upScore.
  destruct (bool_decide (0 < i)%nat) eqn:Hi; [|discriminate].
  simpl. intros H. apply bool_decide_eq_true in H, Hi. auto.
Qed.

Lemma left_test_true (m : matrix) g i j :
  left_test m g i j = true → (0 < j)%nat ∧ cell m i j = cell m i (j - 1) + g.
Proof.
  unfold left_test, leftScore.
  destruct (bool_decide (0 < j)%nat) eqn:Hj; [|discriminate].
  simpl. intros H. apply bool_decide_eq_true in H, Hj. auto.
Qed.

(** The round taken, by the first test that holds. *)
Lemma traceback_step_Some seq1 seq2 (m : matrix) ms mm g st st' :
  traceback_step seq1 seq2 m ms mm g st = Some st' →
  (diag_test seq1 seq2 m ms mm (cur_i st) (cur_j st) = true ∧
   st' = Walk (cur_i st - 1) (cur_j st - 1)
              (arr1 st ++ [char_before seq1 (cur_i st)])
              (arr2 st ++ [char_before seq2 (cur_j st)])) ∨
  (up_test m g (cur_i st) (cur_j st) = true ∧
   st' = Walk (cur_i st - 1) (cur_j st)
              (arr1 st ++ [char_before seq1 (cur_i st)]) (arr2 st ++ [Some gap_char])) ∨
  (left_test m g (cur_i st) (cur_j st) = true ∧
   st' = Walk (cur_i st) (cur_j st - 1)
              (arr1 st ++ [Some gap_char]) (arr2 st ++ [char_before seq2 (cur_j st)])).
Proof.
  unfold traceback_step.
  destruct (bool_decide (0 < cur_i st)%nat || bool_decide (0 < cur_j st)%nat); [|discriminate].
  destruct (diag_test _ _ _ _ _ _ _) eqn:Hd; [intros [= <-]; left; auto|].
  destruct (up_test _ _ _ _) eqn:Hu; [intros [= <-]; right; left; auto|].
  destruct (left_test _ _ _ _) eqn:Hl; [intros [= <-]; right; right; auto|discriminate].
Qed.

(** The loop is left at the origin, or where none of the three tests holds. *)
Lemma traceback_step_None seq1 seq2 (m : matrix) ms mm g st :
  traceback_step seq1 seq2 m ms mm g st = None →
  (cur_i st = O ∧ cur_j st = O) ∨
  (((0 < cur_i st)%nat ∨ (0 < cur_j st)%nat) ∧
   diag_test seq1 seq2 m ms mm (cur_i st) (cur_j st) = false ∧
   up_test m g (cur_i st) (cur_j st) = false ∧
   left_test m g (cur_i st) (cur_j st) = false).
Proof.
  unfold traceback_step.
  destruct (bool_decide (0 < cur_i st)%nat) eqn:Hi;
    destruct (bool_decide (0 < cur_j st)%nat) eqn:Hj; simpl;
    try apply bool_decide_eq_true in Hi; try apply bool_decide_eq_true in Hj;
    try apply bool_decide_eq_false in Hi; try apply bool_decide_eq_false in Hj.
  4: { intros _. left. lia. }
  all: destruct (diag_test _ _ _ _ _ _ _); [discriminate|];
       destruct (up_test _ _ _ _); [discriminate|];
       destruct (left_test _ _ _ _); [discriminate|];
       intros _; right; split; [lia|auto].
Qed.

Lemma traceback_step_decreases seq1 seq2 (m : matrix) ms mm g st st' :
  traceback_step seq1 seq2 m ms mm g st = Some st' →
  (cur_i st' + cur_j st' < cur_i st + cur_j st)%nat.
Proof.
  intros H. apply traceback_step_Some in H.
  destruct H as [[Ht ->]|[[Ht ->]|[Ht ->]]]; simpl.
  - apply diag_test_true in Ht. lia.
  - apply up_test_true in Ht. lia.
  - apply left_test_true in Ht. lia.
Qed.

(** [maxI + maxJ] rounds are enough: the walk ends where the loop is left. *)
Lemma traceback_walk_exit seq1 seq2 (m : matrix) ms mm g :
  traceback_step seq1 seq2 m ms mm g (traceback_walk seq1 seq2 m ms mm g) = None.
Proof.
  unfold traceback_walk.
  apply (while_loop_exit (λ st, cur_i st + cur_j st)%nat).
  - intros st st'. apply traceback_step_decreases.
  - simpl. lia.
Qed.

(** ** Strings and pushed entries *)

Lemma get_is_Some (s : string) k : (k < String.length s)%nat → ∃ c, String.get k s = Some c.
Proof.
  revert k. induction s as [|a s IH]; intros k Hk; simpl in *; [lia|].
  destruct k as [|k]; [eauto|]. apply IH. lia.
Qed.

Lemma get_Some_lt (s : string) k c : String.get k s = Some c → (k < String.length s)%nat.
Proof.
  revert k. induction s as [|a s IH]; intros k Hk; simpl in *; [discriminate|].
  destruct k as [|k]; [lia|]. apply IH in Hk. lia.
Qed.

Lemma char_before_Some (s : string) i :
  (0 < i ≤ String.length s)%nat → ∃ c, char_before s i = Some c ∧ occurs c s.
Proof.
  intros Hi. destruct i as [|k]; [lia|]. simpl.
  destruct (get_is_Some s k) as [c Hc]; [lia|].
  exists c. split; [exact Hc|]. exists k. exact Hc.
Qed.

Lemma Forall2_rev_both {A B : Type} (P : A → B → Prop) l k :
  Forall2 P l k → Forall2 P (rev l) (rev k).
Proof.
  induction 1 as [|x y l k Hxy _ IH]; simpl; [constructor|].
  apply Forall2_app; [exact IH|]. constructor; [exact Hxy|constructor].
Qed.

Lemma emitted_Some seq1 seq2 c1 c2 :
  emitted seq1 seq2 c1 c2 → ∃ a b, c1 = Some a ∧ c2 = Some b.
Proof.
  intros [(a & b & -> & -> & _)|[(a & -> & -> & _)|(b & -> & -> & _)]]; eauto.
Qed.

(** The joined arrays have one character per pushed column, and the
    characters at one position come from one column. *)
Lemma join_columns seq1 seq2 l1 l2 :
  Forall2 (emitted seq1 seq2) l1 l2 →
  String.length (join l1) = length l1 ∧ String.length (join l2) = length l1 ∧
  ∀ k x y, String.get k (join l1) = Some x → String.get k (join l2) = Some y →
    emitted seq1 seq2 (Some x) (Some y).
Proof.
  induction 1 as [|c1 c2 l1 l2 Hc _ (IH1 & IH2 & IH3)]; simpl.
  - repeat split. intros k x y Hx. destruct k; discriminate Hx.
  - destruct (emitted_Some _ _ _ _ Hc) as (a & b & -> & ->). simpl.
    repeat split; [lia|lia|]. intros k x y Hx Hy. destruct k as [|k].
    + injection Hx as <-. injection Hy as <-. exact Hc.
    + eapply IH3; eauto.
Qed.

(** ** The walk keeps its invariant *)

Lemma traceback_step_inv seq1 seq2 (m : matrix) ms mm g st st' :
  walk_inv seq1 seq2 st →
  traceback_step seq1 seq2 m ms mm g st = Some st' →
  walk_inv seq1 seq2 st'.
Proof.
  intros (Hi & Hj & Hcols) Hstep. apply traceback_step_Some in Hstep.
  destruct Hstep as [[Ht ->]|[[Ht ->]|[Ht ->]]]; unfold walk_inv; simpl.
  - apply diag_test_true in Ht. destruct Ht as (Hi0 & Hj0 & _).
    destruct (char_before_Some seq1 (cur_i st)) as (a & Ha & Hoa); [lia|].
    destruct (char_before_Some seq2 (cur_j st)) as (b & Hb & Hob); [lia|].
    split; [lia|]. split; [lia|]. apply Forall2_app; [exact Hcols|].
    constructor; [|constructor]. rewrite Ha, Hb. left. eauto 6.
  - apply up_test_true in Ht. destruct Ht as (Hi0 & _).
    destruct (char_before_Some seq1 (cur_i st)) as (a & Ha & Hoa); [lia|].
    split; [lia|]. split; [lia|]. apply Forall2_app; [exact Hcols|].
    constructor; [|constructor]. rewrite Ha. right. left. eauto.
  - apply left_test_true in Ht. destruct Ht as (Hj0 & _).
    destruct (char_before_Some seq2 (cur_j st)) as (b & Hb & Hob); [lia|].
    split; [lia|]. split; [lia|]. apply Forall2_app; [exact Hcols|].
    constructor; [|constructor]. rewrite Hb. right. right. eauto.
Qed.

Lemma traceback_walk_inv seq1 seq2 ms mm g :
  walk_inv seq1 seq2
    (traceback_walk seq1 seq2 (_buildMatrix seq1 seq2 ms mm g) ms mm g).
Proof.
  unfold traceback_walk.
  destruct (buildMatrix_spec seq1 seq2 ms mm g) as [Hr _].
  destruct (traceback_max_spec _ _ _ Hr) as (HI & HJ & _); [lia|lia|].
  apply while_loop_inv.
  - unfold walk_inv. simpl. split; [lia|]. split; [lia|constructor].
  - intros st st'. apply traceback_step_inv.
Qed.

(** The two aligned strings have one length, and every column of the
    alignment has one of the three shapes of [emitted]. *)
Lemma pairwiseAlign_columns seq1 seq2 ms mm g :
  let r := pairwiseAlign seq1 seq2 ms mm g in
  String.length (seq1_aligned r) = String.length (seq2_aligned r) ∧
  ∀ k x y, String.get k (seq1_aligned r) = Some x → String.get k (seq2_aligned r) = Some y →
    emitted seq1 seq2 (Some x) (Some y).
Proof.
  intros r. subst r. unfold pairwiseAlign, _traceback. simpl.
  destruct (traceback_walk_inv seq1 seq2 ms mm g) as (_ & _ & Hcols).
  apply Forall2_rev_both in Hcols.
  destruct (join_columns _ _ _ _ Hcols) as (H1 & H2 & H3).
  split; [congruence|exact H3].
Qed.

(** ** A sequence against itself, with the default scores *)

Lemma pair_score_same s i : pair_score s s 1 (-1) i i = 1.
Proof. unfold pair_score. destruct (decide _) as [_|Hn]; [reflexivity|congruence]. Qed.

Lemma pair_score_le s1 s2 i j : pair_score s1 s2 1 (-1) i j ≤ 1.
Proof. unfold pair_score. destruct (decide _); lia. Qed.

(** With the default scores no cell is worth more than the shorter of its
    two prefixes. *)
Lemma self_score_le_min s1 s2 i j :
  cell_score s1 s2 1 (-1) (-1) i j ≤ Z.of_nat (Nat.min i j).
Proof.
  revert j. induction i as [|i IHi]; intros j.
  - rewrite score_row0. lia.
  - induction j as [|j IHj].
    + rewrite score_col0. lia.
    + rewrite score_step. unfold max4.
      pose proof (IHi j). pose proof (IHi (S j)).
      pose proof (pair_score_le s1 s2 (S i) (S j)). lia.
Qed.

Lemma self_score_diag s i : cell_score s s 1 (-1) (-1) i i = Z.of_nat i.
Proof.
  induction i as [|i IH]; [reflexivity|].
  rewrite score_step, IH, pair_score_same. unfold max4.
  pose proof (self_score_le_min s s i (S i)).
  pose proof (self_score_le_min s s (S i) i). lia.
Qed.

(** The scan starts the walk in the last cell. *)
Lemma self_traceback_max s :
  let st := traceback_max (_buildMatrix s s 1 (-1) (-1)) in
  maxI st = String.length s ∧ maxJ st = String.length s.
Proof.
  intros st. subst st.
  destruct (buildMatrix_spec s s 1 (-1) (-1)) as [Hr Hc].
  destruct (traceback_max_spec _ _ _ Hr) as (HI & HJ & _ & Hmax & _); [lia|lia|].
  set (st := traceback_max (_buildMatrix s s 1 (-1) (-1))) in *.
  specialize (Hmax (String.length s) (String.length s)).
  rewrite !Hc in Hmax by lia. rewrite self_score_diag in Hmax.
  pose proof (self_score_le_min s s (maxI st) (maxJ st)). lia.
Qed.

Lemma pushed_S s k : pushed s (S k) = String.get k s :: pushed s k.
Proof. unfold pushed. rewrite seq_S, rev_app_distr. reflexivity. Qed.

(** From a cell of the diagonal the walk follows the diagonal to the origin. *)
Lemma self_walk s k fuel acc1 acc2 :
  (k ≤ String.length s)%nat → (k ≤ fuel)%nat →
  while_loop fuel
    (traceback_step s s (_buildMatrix s s 1 (-1) (-1)) 1 (-1) (-1))
    (Walk k k acc1 acc2)
  = Walk 0 0 (acc1 ++ pushed s k) (acc2 ++ pushed s k).
Proof.
  destruct (buildMatrix_spec s s 1 (-1) (-1)) as [_ Hc].
  revert fuel acc1 acc2. induction k as [|k IH]; intros fuel acc1 acc2 Hk Hfuel.
  - unfold pushed. simpl. rewrite !app_nil_r. destruct fuel; reflexivity.
  - destruct fuel as [|fuel]; [lia|]. simpl while_loop.
    assert (Hstep : traceback_step s s (_buildMatrix s s 1 (-1) (-1)) 1 (-1) (-1)
                      (Walk (S k) (S k) acc1 acc2)
                    = Some (Walk k k (acc1 ++ [String.get k s]) (acc2 ++ [String.get k s]))).
    { unfold traceback_step, diag_test, diagonalScore. simpl.
      rewrite !Nat.sub_0_r, !Hc by lia. rewrite !self_score_diag, pair_score_same.
      simpl. rewrite bool_decide_eq_true_2 by lia. reflexivity. }
    rewrite Hstep, IH by lia. rewrite pushed_S, <- !app_assoc. reflexivity.
Qed.

Lemma join_all_chars s :
  join (map (λ t, String.get t s) (seq 0 (String.length s))) = s.
Proof.
  induction s as [|a s IH]; [reflexivity|].
  change (String.length (String a s)) with (S (String.length s)).
  change (seq 0 (S (String.length s))) with (O :: seq 1 (String.length s)).
  rewrite <- seq_shift. cbn [map]. rewrite List.map_map. cbn [String.get join].
  rewrite IH. reflexivity.
Qed.

Lemma join_rev_pushed s : join (rev (pushed s (String.length s))) = s.
Proof.
  unfold pushed. rewrite <- map_rev, rev_involutive. apply join_all_chars.
Qed.

(** A sequence aligned against itself comes back unchanged on both sides. *)
Lemma pairwiseAlign_self s : pairwiseAlign s s 1 (-1) (-1) = Alignment s s.
Proof.
  unfold pairwiseAlign, _traceback, traceback_walk.
  destruct (self_traceback_max s) as [-> ->].
  rewrite self_walk by lia. simpl. rewrite join_rev_pushed. reflexivity.
Qed.

(** The matrix and the alignment of two small runs. *)
Example buildMatrix_CA_GA :
  _buildMatrix "CA" "GA" 1 (-1) (-1) = [[0; -1; -2]; [-1; 0; 0]; [-2; 0; 1]].
Proof. vm_compute. reflexivity. Qed.

Example pairwiseAlign_ACGT_AGT :
  pairwiseAlign "ACGT" "AGT" 1 (-1) (-1) = Alignment "ACGT" "A-GT".
Proof. vm_compute. reflexivity. Qed.

(** ** The symbol track of the formatter *)

Lemma string_length_app (s1 s2 : string) :
  String.length (s1 +:+ s2) = (String.length s1 + String.length s2)%nat.
Proof. induction s1 as [|a s1 IH]; simpl; [reflexivity|]. rewrite IH. reflexivity. Qed.

(** The track has one symbol per position of [seq1], the one chosen by
    [symbol_at]. *)
Lemma symbols_track_get seq1 seq2 :
  String.length (symbols_track seq1 seq2) = String.length seq1 ∧
  ∀ k, (k < String.length seq1)%nat →
    String.get k (symbols_track seq1 seq2)
    = Some (symbol_at (String.get k seq1) (String.get k seq2)).
Proof.
  unfold symbols_track.
  apply (for_loop_ind (λ n st, String.length st = n ∧
    ∀ k, (k < n)%nat →
      String.get k st = Some (symbol_at (String.get k seq1) (String.get k seq2)))
    0 (String.length seq1)).
  - split; [reflexivity|]. intros k Hk. lia.
  - intros n st _ [Hlen Hget]. split.
    + rewrite string_length_app, Hlen. simpl. lia.
    + intros k Hk. destruct (decide (k = n)) as [->|Hne].
      * pose proof (append_correct2 st
          (String (symbol_at (String.get n seq1) (String.get n seq2)) "") 0) as H.
        rewrite Hlen in H. simpl in H. symmetry. exact H.
      * rewrite <- append_correct1 by lia. apply Hget. lia.
Qed.


(** Where no position holds the gap character on both sides, as in the
    alignments returned by the walk, a space marks exactly the positions
    with a gap. *)
Lemma symbol_at_single_gap (c1 c2 : ascii) :
  ¬ (c1 = gap_char ∧ c2 = gap_char) →
  (symbol_at (Some c1) (Some c2) = " "%char ↔ c1 = gap_char ∨ c2 = gap_char).
Proof.
  intros Hnot. unfold symbol_at.
  destruct (decide (Some c1 = Some c2)) as [Heq|Hne].
  - assert (c1 = c2) by congruence. subst c2.
    split; [discriminate|]. intros [H|H]; exfalso; apply Hnot; split; exact H.
  - destruct (decide (Some c1 = Some gap_char ∨ Some c2 = Some gap_char)) as [Hg|Hg].
    + split; [|reflexivity]. intros _. destruct Hg; [left|right]; congruence.
    + split; [discriminate|]. intros [->| ->]; exfalso; apply Hg; [left|right]; reflexivity.
Qed.

(** ** Loops that can throw *)

Lemma for_of_m_snoc {A S : Type} (xs : list A) x (body : A → S → result S) s :
  for_of_m (xs ++ [x]) body s = (st ← for_of_m xs body s; body x st).
Proof. unfold for_of_m. rewrite fold_left_app. reflexivity. Qed.

Lemma for_loop_m_S {S : Type} lo n (body : nat → S → result S) s :
  for_loop_m lo (Datatypes.S n) body s
  = (st ← for_loop_m lo n body s; body (lo + n)%nat st).
Proof. unfold for_loop_m. rewrite seq_S, fold_left_app. reflexivity. Qed.

(** The invariant rule for a loop whose rounds all return. *)
Lemma for_loop_m_ind {S : Type} (P : nat → S → Prop) lo n (body : nat → S → result S) s :
  P lo s →
  (∀ k st, (lo ≤ k < lo + n)%nat → P k st →
     ∃ st', body k st = Ok st' ∧ P (Datatypes.S k) st') →
  ∃ st', for_loop_m lo n body s = Ok st' ∧ P (lo + n)%nat st'.
Proof.
  intros Hinit Hstep. induction n as [|n IH].
  - exists s. rewrite Nat.add_0_r. split; [reflexivity|exact Hinit].
  - destruct IH as (st & Hst & HP); [intros k st Hk; apply Hstep; lia|].
    rewrite for_loop_m_S, Hst. simpl. rewrite Nat.add_succ_r. apply Hstep; [lia|exact HP].
Qed.

(** Bring the invariant rule for the loop of the goal, with invariant [P],
    into the context as [H]. *)
Ltac loop_rule P H :=
  match goal with
  | |- context [for_loop_m ?lo ?n ?body ?s] =>
      pose proof (for_loop_m_ind P lo n body s) as H
  end.

(** ** The average distance of two clusters *)

Lemma dist_lookup (dm : qmatrix) N i j :
  rect dm N N → (i < N)%nat → (j < N)%nat →
  ∃ row, dm !! i = Some row ∧ row !! j = Some (dist dm i j).
Proof.
  intros Hr Hi Hj. destruct (rect_lookup dm N N i Hr Hi) as (row & Hrow & Hlen).
  exists row. split; [exact Hrow|]. unfold dist. rewrite Hrow.
  destruct (lookup_lt_is_Some_2 row j) as [v Hv]; [lia|]. rewrite Hv. reflexivity.
Qed.

(** The inner loop of [averageDistance], for one member of the first
    cluster. *)
Lemma averageDistance_inner (dm : qmatrix) N index1 cluster2 total count :
  rect dm N N → (index1 < N)%nat → Forall (λ x, (x < N)%nat) cluster2 →
  for_of_m cluster2 (λ index2 '(totalDistance, count),
    row ← defined (dm !! index1);
    Ok (num_plus totalDistance (row !! index2), S count)) (Num total, count)
  = Ok (Num (fold_left (λ acc index2, acc + dist dm index1 index2)%Q cluster2 total),
        (count + length cluster2)%nat).
Proof.
  intros Hr Hi. induction cluster2 as [|index2 cluster2 IH] using rev_ind; intros Hall.
  - simpl. rewrite Nat.add_0_r. reflexivity.
  - apply Forall_app in Hall. destruct Hall as [Hall Hlast].
    apply Forall_inv in Hlast.
    rewrite for_of_m_snoc, IH by exact Hall. simpl.
    destruct (dist_lookup dm N index1 index2 Hr Hi Hlast) as (row & Hrow & Hget).
    rewrite Hrow. simpl. rewrite Hget. simpl.
    rewrite fold_left_app, length_app. simpl. do 2 f_equal. lia.
Qed.

Lemma averageDistance_outer (dm : qmatrix) N cluster1 cluster2 total count :
  rect dm N N → Forall (λ x, (x < N)%nat) cluster1 → Forall (λ x, (x < N)%nat) cluster2 →
  for_of_m cluster1 (λ index1 acc,
    for_of_m cluster2 (λ index2 '(totalDistance, count),
      row ← defined (dm !! index1);
      Ok (num_plus totalDistance (row !! index2), S count)) acc) (Num total, count)
  = Ok (Num (fold_left (λ acc index1,
               fold_left (λ acc index2, acc + dist dm index1 index2)%Q cluster2 acc)
             cluster1 total),
        (count + length cluster1 * length cluster2)%nat).
Proof.
  intros Hr Hall1 Hall2.
  induction cluster1 as [|index1 cluster1 IH] using rev_ind.
  - simpl. rewrite Nat.add_0_r. reflexivity.
  - apply Forall_app in Hall1. destruct Hall1 as [Hall1 Hlast].
    apply Forall_inv in Hlast.
    rewrite for_of_m_snoc, IH by exact Hall1. simpl.
    rewrite (averageDistance_inner dm N) by assumption.
    rewrite fold_left_app, length_app. simpl. do 2 f_equal. lia.
Qed.

Lemma fold_left_pairs (dm : qmatrix) a cluster2 acc :
  fold_left (λ acc p, acc + dist dm (fst p) (snd p))%Q (map (pair a) cluster2) acc
  = fold_left (λ acc index2, acc + dist dm a index2)%Q cluster2 acc.
Proof.
  revert acc. induction cluster2 as [|b cluster2 IH]; intros acc; simpl; [reflexivity|].
  apply IH.
Qed.

(** The two nested loops add up the entries of all cross pairs. *)
Lemma fold_left_cross (dm : qmatrix) cluster1 cluster2 acc :
  fold_left (λ acc index1,
    fold_left (λ acc index2, acc + dist dm index1 index2)%Q cluster2 acc) cluster1 acc
  = fold_left (λ acc p, acc + dist dm (fst p) (snd p))%Q (list_prod cluster1 cluster2) acc.
Proof.
  revert acc. induction cluster1 as [|a cluster1 IH]; intros acc; simpl; [reflexivity|].
  rewrite fold_left_app, fold_left_pairs. apply IH.
Qed.

(** On clusters of indices of an [N]×[N] matrix, [averageDistance] returns
    the mean of the cross entries. *)
Lemma averageDistance_mean (dm : qmatrix) N cluster1 cluster2 :
  rect dm N N →
  cluster1 ≠ [] → Forall (λ x, (x < N)%nat) cluster1 →
  cluster2 ≠ [] → Forall (λ x, (x < N)%nat) cluster2 →
  averageDistance cluster1 cluster2 dm = Ok (Num (mean_distance dm cluster1 cluster2)).
Proof.
  intros Hr Hne1 Hall1 Hne2 Hall2. unfold averageDistance.
  rewrite (averageDistance_outer dm N) by assumption. simpl.
  unfold num_div, mean_distance. rewrite fold_left_cross, length_prod.
  destruct (decide _) as [H0|_]; [|reflexivity].
  destruct cluster1; [congruence|]. destruct cluster2; [congruence|]. simpl in H0. lia.
Qed.

(** ** The scan for the closest pair of clusters *)

Lemma num_lt_true x y : num_lt (Num x) (Num y) = true → (x < y)%Q.
Proof. unfold num_lt. destruct (Qlt_le_dec x y); [auto|discriminate]. Qed.

Lemma num_lt_false x y : num_lt (Num x) (Num y) = false → (y <= x)%Q.
Proof. unfold num_lt. destruct (Qlt_le_dec x y); [discriminate|auto]. Qed.

Lemma clusters_wf_lookup N clusters i c :
  clusters_wf N clusters → clusters !! i = Some c →
  c ≠ [] ∧ Forall (λ x, (x < N)%nat) c.
Proof. intros Hwf Hc. exact (proj1 (Forall_lookup _ _) Hwf i c Hc). Qed.

(** One round of the inner loop of the scan. *)
Lemma closest_round (dm : qmatrix) N clusters i j st :
  rect dm N N → clusters_wf N clusters →
  (i < j < length clusters)%nat → closest_inv dm clusters i j st →
  ∃ st',
    (ci ← defined (clusters !! i);
     cj ← defined (clusters !! j);
     distance ← averageDistance ci cj dm;
     Ok (if num_lt distance (minDistance st) then Closest distance (Some (i, j)) else st))
    = Ok st' ∧
    closest_inv dm clusters i (S j) st'.
Proof.
  intros Hr Hwf Hij (Hle & Hat & Hnan).
  destruct (lookup_lt_is_Some_2 clusters i) as [ci Hci]; [lia|].
  destruct (lookup_lt_is_Some_2 clusters j) as [cj Hcj]; [lia|].
  destruct (clusters_wf_lookup N clusters i ci Hwf Hci) as [Hnei Halli].
  destruct (clusters_wf_lookup N clusters j cj Hwf Hcj) as [Hnej Hallj].
  rewrite Hci, Hcj. simpl.
  rewrite (averageDistance_mean dm N) by assumption. simpl.
  set (d := mean_distance dm ci cj).
  assert (Hsplit : ∀ a b, (a < b)%nat → before i (S j) a b →
                     before i j a b ∨ (a = i ∧ b = j)) by (unfold before; lia).
  unfold num_lt.
  destruct (minDistance st) as [v| |] eqn:Hmin; [| |congruence].
  - destruct (Qlt_le_dec d v) as [Hlt|Hlt].
    + eexists. split; [reflexivity|].
      split; [|split]; simpl; [| |discriminate].
      * intros a b ca cb Hab Ha Hb Hbef. exists d. split; [reflexivity|].
        destruct (Hsplit a b Hab Hbef) as [Hold|[-> ->]].
        -- destruct (Hle a b ca cb Hab Ha Hb Hold) as (v' & [= <-] & Hv'). lra.
        -- assert (ca = ci) by congruence. assert (cb = cj) by congruence.
           subst ca cb. fold d. lra.
      * intros v' [= <-]. exists i, j, ci, cj.
        split; [reflexivity|]. split; [lia|]. split; [exact Hci|]. split; [exact Hcj|].
        split; [unfold before; lia|]. split; [reflexivity|].
        intros a' b' ca' cb' Hab Ha Hb Hbef.
        destruct (Hle a' b' ca' cb' Hab Ha Hb Hbef) as (v' & [= <-] & Hv'). lra.
    + exists st. split; [reflexivity|].
      split; [|split]; [| |congruence].
      * intros a b ca cb Hab Ha Hb Hbef. exists v. split; [exact Hmin|].
        destruct (Hsplit a b Hab Hbef) as [Hold|[-> ->]].
        -- destruct (Hle a b ca cb Hab Ha Hb Hold) as (v' & Hv & Hv').
           assert (v' = v) by congruence. subst v'. exact Hv'.
        -- assert (ca = ci) by congruence. assert (cb = cj) by congruence.
           subst ca cb. exact Hlt.
      * intros v' Hv'. rewrite Hmin in Hv'.
        destruct (Hat v' Hv') as (a & b & ca & cb & H1 & H2 & H3 & H4 & H5 & H6).
        exists a, b, ca, cb. repeat (split; [assumption|]).
        split; [unfold before in *; lia|exact H6].
  - eexists. split; [reflexivity|]. split; [|split]; simpl; [| |discriminate].
    + intros a b ca cb Hab Ha Hb Hbef. exists d. split; [reflexivity|].
      destruct (Hsplit a b Hab Hbef) as [Hold|[-> ->]].
      * destruct (Hle a b ca cb Hab Ha Hb Hold) as (v' & Hv & _). congruence.
      * assert (ca = ci) by congruence. assert (cb = cj) by congruence.
        subst ca cb. fold d. lra.
    + intros v' [= <-]. exists i, j, ci, cj.
      split; [reflexivity|]. split; [lia|]. split; [exact Hci|]. split; [exact Hcj|].
      split; [unfold before; lia|]. split; [reflexivity|].
      intros a' b' ca' cb' Hab Ha Hb Hbef.
      destruct (Hle a' b' ca' cb' Hab Ha Hb Hbef) as (v' & Hv & _). congruence.
Qed.

(** The inner loop of the scan, for one outer index. *)
Lemma closest_row (dm : qmatrix) N clusters i st :
  rect dm N N → clusters_wf N clusters →
  (i < length clusters)%nat → closest_inv dm clusters i 0 st →
  ∃ st',
    for_loop_m (i + 1) (length clusters - (i + 1)) (λ j st,
      ci ← defined (clusters !! i);
      cj ← defined (clusters !! j);
      distance ← averageDistance ci cj dm;
      Ok (if num_lt distance (minDistance st) then Closest distance (Some (i, j)) else st)) st
    = Ok st' ∧
    closest_inv dm clusters (S i) 0 st'.
Proof.
  intros Hr Hwf Hi (Hle & Hat & Hnan).
  loop_rule (closest_inv dm clusters i) Hloop.
  destruct Hloop as (st' & Hst' & (Hle' & Hat' & Hnan')).
  - split; [|split]; [| |exact Hnan].
    + intros a b ca cb Hab Ha Hb Hbef. apply (Hle a b ca cb Hab Ha Hb).
      unfold before in *. lia.
    + intros v Hv. destruct (Hat v Hv) as (a & b & ca & cb & H1 & H2 & H3 & H4 & H5 & H6).
      exists a, b, ca, cb. repeat (split; [assumption|]).
      split; [unfold before in *; lia|exact H6].
  - intros k st0 Hk Hst0. apply (closest_round dm N); [assumption|assumption|lia|exact Hst0].
  - exists st'. split; [exact Hst'|]. split; [|split]; [| |exact Hnan'].
    + intros a b ca cb Hab Ha Hb Hbef. apply (Hle' a b ca cb Hab Ha Hb).
      apply lookup_lt_Some in Hb. unfold before in *. lia.
    + intros v Hv. destruct (Hat' v Hv) as (a & b & ca & cb & H1 & H2 & H3 & H4 & H5 & H6).
      exists a, b, ca, cb. repeat (split; [assumption|]).
      split; [unfold before in *; lia|exact H6].
Qed.

(** The scan returns the first pair, outer index first, that has the
    smallest mean distance. *)
Lemma closest_pair_spec (dm : qmatrix) N clusters :
  rect dm N N → clusters_wf N clusters → (1 < length clusters)%nat →
  ∃ i j ci cj,
    closest_pair clusters dm = Ok (Closest (Num (mean_distance dm ci cj)) (Some (i, j))) ∧
    (i < j < length clusters)%nat ∧
    clusters !! i = Some ci ∧ clusters !! j = Some cj ∧
    ∀ a b ca cb, (a < b)%nat → clusters !! a = Some ca → clusters !! b = Some cb →
      (mean_distance dm ci cj <= mean_distance dm ca cb)%Q ∧
      (before i j a b → (mean_distance dm ci cj < mean_distance dm ca cb)%Q).
Proof.
  intros Hr Hwf Hlen. unfold closest_pair.
  loop_rule (λ i st, closest_inv dm clusters i 0 st) Hloop.
  destruct Hloop as (st & Hst & (Hle & Hat & Hnan)).
  - split; [|split]; simpl; [| |discriminate].
    + intros a b ca cb _ _ _ Hbef. unfold before in Hbef. lia.
    + intros v Hv. discriminate Hv.
  - intros k st0 Hk Hst0. apply (closest_row dm N); [assumption|assumption|lia|exact Hst0].
  - rewrite Hst. simpl in Hle, Hat.
    destruct (lookup_lt_is_Some_2 clusters 0) as [c0 Hc0]; [lia|].
    destruct (lookup_lt_is_Some_2 clusters 1) as [c1 Hc1]; [lia|].
    destruct (Hle 0%nat 1%nat c0 c1) as (v & Hv & _);
      [lia|exact Hc0|exact Hc1|unfold before; lia|].
    destruct (Hat v Hv) as (i & j & ci & cj & H1 & H2 & H3 & H4 & H5 & H6 & H7).
    exists i, j, ci, cj. split.
    { destruct st as [d idx]. simpl in *. subst. reflexivity. }
    apply lookup_lt_Some in H4 as Hj.
    split; [lia|]. split; [exact H3|]. split; [exact H4|].
    intros a b ca cb Hab Ha Hb. rewrite <- H6. split.
    + destruct (Hle a b ca cb Hab Ha Hb) as (v' & Hv' & Hle').
      { apply lookup_lt_Some in Ha. unfold before. lia. }
      assert (v' = v) by congruence. subst v'. exact Hle'.
    + intros Hbef. apply (H7 a b ca cb Hab Ha Hb Hbef).
Qed.

(** ** One merge *)

(** A round of the loop merges the pair found by the scan: the first
    cluster of the pair receives the members of both, the second one is
    removed. *)
Lemma merge_step_of_scan (dm : qmatrix) clusters d i j ci cj :
  closest_pair clusters dm = Ok (Closest d (Some (i, j))) →
  (i < j < length clusters)%nat →
  clusters !! i = Some ci → clusters !! j = Some cj →
  merge_step dm clusters = Ok (<[i := ci ++ cj]> (delete j clusters)).
Proof.
  intros Hscan Hij Hci Hcj.
  unfold merge_step, merge_clusters. rewrite Hscan. simpl. rewrite Hci, Hcj. simpl.
  rewrite arr_set_inside; [reflexivity|].
  rewrite length_delete by eauto. lia.
Qed.

Lemma merge_step_spec (dm : qmatrix) N clusters :
  rect dm N N → clusters_wf N clusters → (1 < length clusters)%nat →
  ∃ i j ci cj,
    (i < j < length clusters)%nat ∧
    clusters !! i = Some ci ∧ clusters !! j = Some cj ∧
    merge_step dm clusters = Ok (<[i := ci ++ cj]> (delete j clusters)).
Proof.
  intros Hr Hwf Hlen.
  destruct (closest_pair_spec dm N clusters Hr Hwf Hlen)
    as (i & j & ci & cj & Hscan & Hij & Hci & Hcj & _).
  exists i, j, ci, cj. repeat (split; [assumption|]).
  eapply merge_step_of_scan; eassumption.
Qed.

Lemma merge_step_wf (dm : qmatrix) N clusters :
  rect dm N N → clusters_wf N clusters → (1 < length clusters)%nat →
  ∃ clusters', merge_step dm clusters = Ok clusters' ∧
    S (length clusters') = length clusters ∧ clusters_wf N clusters'.
Proof.
  intros Hr Hwf Hlen.
  destruct (merge_step_spec dm N clusters Hr Hwf Hlen)
    as (i & j & ci & cj & Hij & Hci & Hcj & Hstep).
  eexists. split; [exact Hstep|].
  destruct (clusters_wf_lookup N clusters i ci Hwf Hci) as [Hnei Halli].
  destruct (clusters_wf_lookup N clusters j cj Hwf Hcj) as [Hnej Hallj].
  split.
  - rewrite length_insert, length_delete by eauto. lia.
  - apply Forall_insert.
    + unfold clusters_wf in Hwf. apply Forall_delete. exact Hwf.
    + split; [destruct ci; [congruence|discriminate]|].
      apply Forall_app. split; assumption.
Qed.

(** ** The loop of the guide-tree builder *)

Lemma guide_tree_rounds (dm : qmatrix) N fuel clusters :
  rect dm N N → clusters_wf N clusters →
  (1 ≤ length clusters)%nat → (length clusters ≤ fuel + 1)%nat →
  ∃ final,
    while_m fuel (λ clusters, bool_decide (1 < length clusters)%nat)
      (merge_step dm) clusters
    = Ok ((length clusters - 1)%nat, [final]).
Proof.
  intros Hr. revert clusters. induction fuel as [|fuel IH]; intros clusters Hwf Hlen Hfuel.
  - destruct clusters as [|c [|c' rest]]; simpl in *; try lia.
    exists c. reflexivity.
  - destruct (decide (1 < length clusters)%nat) as [Hgt|Hle].
    + destruct (merge_step_wf dm N clusters Hr Hwf Hgt) as (clusters' & Hstep & Hlen' & Hwf').
      destruct (IH clusters' Hwf') as [final Hfinal]; [lia|lia|].
      exists final. simpl. rewrite bool_decide_eq_true_2 by exact Hgt.
      rewrite Hstep. simpl. rewrite Hfinal. simpl. do 2 f_equal. lia.
    + destruct clusters as [|c [|c' rest]]; simpl in *; try lia.
      exists c. reflexivity.
Qed.

Lemma initial_clusters_wf (dm : qmatrix) :
  clusters_wf (length dm) (imap (λ index _, [index]) dm).
Proof.
  apply Forall_lookup. intros i c Hc.
  apply list_lookup_imap_Some in Hc. destruct Hc as (row & Hrow & ->).
  split; [discriminate|]. constructor; [|constructor].
  eapply lookup_lt_Some. exact Hrow.
Qed.

(** Every cluster list that the loop goes through is well formed, so that
    the properties of a round hold at every round of a run. *)
Lemma reached_wf (dm : qmatrix) N clusters :
  rect dm N N → reached dm clusters → clusters_wf N clusters.
Proof.
  intros Hr. induction 1 as [|clusters clusters' _ IH Hlen Hstep].
  - destruct Hr as [<- _]. apply initial_clusters_wf.
  - destruct (merge_step_wf dm N clusters Hr IH Hlen) as (c & Hc & _ & Hwf).
    assert (c = clusters') by congruence. subst c. exact Hwf.
Qed.

(** ** The distance matrix of two or more sequences *)

Lemma fold_bind_absorbs {A S : Type} (body : A → S → result S) xs (r : result S) :
  (∀ s, r ≠ Ok s) →
  fold_left (λ r x, st ← r; body x st) xs r = r.
Proof.
  intros Hr. induction xs as [|x xs IH]; simpl; [reflexivity|].
  destruct r as [s|e|]; [destruct (Hr s eq_refl)|exact IH|exact IH].
Qed.

Lemma for_loop_m_first {S : Type} lo n (body : nat → S → result S) s :
  for_loop_m lo (Datatypes.S n) body s = (st ← body lo s; for_loop_m (Datatypes.S lo) n body st).
Proof.
  unfold for_loop_m. simpl. destruct (body lo s) as [st|e|]; simpl;
    [reflexivity|apply fold_bind_absorbs; discriminate|apply fold_bind_absorbs; discriminate].
Qed.

(** The distance estimator cannot take what [_traceback] returns: the
    object has no iterator to destructure. *)
Lemma distance_of_traceback_throws (a : alignment) ms mm g :
  calculateDistanceFromAlignment (JAlignment a) ms mm g = Throw TypeError.
Proof. reflexivity. Qed.

(** With two sequences or more, the first pair already makes
    [calculateDistanceMatrix] throw, whatever the sequences are. *)
Lemma calculateDistanceMatrix_throws sequences ms mm g :
  (2 ≤ length sequences)%nat →
  calculateDistanceMatrix sequences ms mm g = Throw TypeError.
Proof.
  intros Hlen. destruct sequences as [|s0 [|s1 rest]]; simpl in Hlen; try lia.
  unfold calculateDistanceMatrix. cbn [length].
  rewrite for_loop_m_first.
  replace (S (S (length rest)) - (0 + 1))%nat with (S (length rest)) by lia.
  rewrite for_loop_m_first. reflexivity.
Qed.

(** ** The entry points: rejected input *)

Lemma cleanup_empty s : normalize s = "" → cleanup s = Throw InvalidInput.
Proof. intros H. unfold cleanup. rewrite H. reflexivity. Qed.

Lemma cleanup_nonempty s : normalize s ≠ "" → cleanup s = Ok (normalize s).
Proof. intros H. unfold cleanup. destruct (decide _); [contradiction|reflexivity]. Qed.

Lemma cleanup_cases s : cleanup s = Throw InvalidInput ∨ cleanup s = Ok (normalize s).
Proof. unfold cleanup. destruct (decide _); auto. Qed.

(** A sequence that is empty once normalized makes the pairwise entry
    point throw [InvalidInput] in [cleanup], before the matrix is built. *)
Lemma showAlignment_rejects_empty seq1 seq2 basePerChunk chunksPerLine ms mm g :
  normalize seq1 = "" ∨ normalize seq2 = "" →
  showAlignment seq1 seq2 basePerChunk chunksPerLine ms mm g = Throw InvalidInput.
Proof.
  intros [H|H]; unfold showAlignment.
  - rewrite (cleanup_empty seq1 H). reflexivity.
  - destruct (cleanup_cases seq1) as [-> | ->]; [reflexivity|].
    simpl. rewrite (cleanup_empty seq2 H). reflexivity.
Qed.

Lemma map_m_cleanup_empty sequences :
  Exists (λ s, normalize s = "") sequences →
  map_m cleanup sequences = Throw InvalidInput.
Proof.
  induction 1 as [s rest H|s rest _ IH]; simpl.
  - rewrite (cleanup_empty s H). reflexivity.
  - destruct (cleanup_cases s) as [-> | ->]; [reflexivity|].
    simpl. rewrite IH. reflexivity.
Qed.

(** The same for the multiple-sequence entry point, before the distance
    matrix is computed. *)
Lemma multipleSequenceAlignment_rejects_empty sequences basePerChunk chunksPerLine ms mm g :
  Exists (λ s, normalize s = "") sequences →
  multipleSequenceAlignment sequences basePerChunk chunksPerLine ms mm g
  = Throw InvalidInput.
Proof.
  intros H. unfold multipleSequenceAlignment.
  rewrite (map_m_cleanup_empty sequences H). reflexivity.
Qed.

Lemma map_m_length {A B : Type} (f : A → result B) xs ys :
  map_m f xs = Ok ys → length ys = length xs.
Proof.
  revert ys. induction xs as [|x xs IH]; intros ys; simpl.
  - intros [= <-]. reflexivity.
  - destruct (f x) as [y| |]; simpl; try discriminate.
    destruct (map_m f xs) as [ys'| |]; simpl; try discriminate.
    intros [= <-]. simpl. rewrite (IH ys' eq_refl). reflexivity.
Qed.

(** With two sequences or more, none of them empty, the multiple-sequence
    entry point throws a [TypeError]. *)
Lemma multipleSequenceAlignment_throws sequences basePerChunk chunksPerLine ms mm g :
  (2 ≤ length sequences)%nat → Forall (λ s, normalize s ≠ "") sequences →
  multipleSequenceAlignment sequences basePerChunk chunksPerLine ms mm g
  = Throw TypeError.
Proof.
  intros Hlen Hall. unfold multipleSequenceAlignment.
  assert (Hmap : ∃ cleaned, map_m cleanup sequences = Ok cleaned).
  { clear Hlen. induction Hall as [|s rest Hs _ [cleaned IH]]; simpl; [eauto|].
    rewrite (cleanup_nonempty s Hs), IH. simpl. eauto. }
  destruct Hmap as [cleaned Hmap]. rewrite Hmap. simpl.
  rewrite calculateDistanceMatrix_throws; [reflexivity|].
  rewrite (map_m_length _ _ _ Hmap). exact Hlen.
Qed.

(** ** The pairwise entry point returns *)

(** With a positive chunk size the chunking loop returns, and the number of
    chunks depends on the length of the string only. *)
Lemma chunk_loop_returns fuel str str' size i chunks chunks' :
  (0 < size)%nat → String.length str = String.length str' →
  length chunks = length chunks' → (String.length str - i ≤ fuel)%nat →
  ∃ l l', chunk_loop fuel str size i chunks = Ok l ∧
          chunk_loop fuel str' size i chunks' = Ok l' ∧ length l = length l'.
Proof.
  intros Hsize Hlen. revert i chunks chunks'.
  induction fuel as [|fuel IH]; intros i chunks chunks' Hchunks Hfuel; simpl;
    rewrite <- Hlen; destruct (decide (i < String.length str)%nat) as [Hi|Hi];
    try lia; eauto.
  apply IH; [rewrite !length_app; simpl; lia|lia].
Qed.

Lemma chunkString_returns str str' size :
  (0 < size)%nat → String.length str = String.length str' →
  ∃ l l', chunkString str size = Ok l ∧ chunkString str' size = Ok l' ∧
          length l = length l'.
Proof.
  intros Hsize Hlen. unfold chunkString. rewrite <- Hlen.
  apply chunk_loop_returns; [exact Hsize|exact Hlen|reflexivity|lia].
Qed.

Lemma map_m_chunkString_returns lines size :
  (0 < size)%nat →
  ∃ rows, map_m (λ line, chunkString line size) lines = Ok rows.
Proof.
  intros Hsize. induction lines as [|line lines [rows IH]]; simpl; [eauto|].
  destruct (chunkString_returns line line size Hsize eq_refl) as (l & _ & -> & _).
  simpl. rewrite IH. simpl. eauto.
Qed.

Lemma create2DArray_returns str str' lineSize blockSize :
  (0 < lineSize)%nat → (0 < blockSize)%nat → String.length str = String.length str' →
  ∃ a a', create2DArray str lineSize blockSize = Ok a ∧
          create2DArray str' lineSize blockSize = Ok a' ∧ length a = length a'.
Proof.
  intros Hline Hblock Hlen. unfold create2DArray.
  destruct (chunkString_returns str str' lineSize Hline Hlen) as (l & l' & -> & -> & Hll).
  simpl.
  destruct (map_m_chunkString_returns l blockSize Hblock) as [a Ha].
  destruct (map_m_chunkString_returns l' blockSize Hblock) as [a' Ha'].
  exists a, a'. split; [exact Ha|]. split; [exact Ha'|].
  rewrite (map_m_length _ _ _ Ha), (map_m_length _ _ _ Ha'). exact Hll.
Qed.

(** On two aligned strings of one length, with positive chunk sizes, the
    formatter returns a table. *)
Lemma formatAsArray_returns (a : alignment) basePerChunk chunksPerLine :
  (0 < basePerChunk)%nat → (0 < chunksPerLine)%nat →
  String.length (seq1_aligned a) = String.length (seq2_aligned a) →
  ∃ table, _formatAsArray a basePerChunk chunksPerLine = Ok table.
Proof.
  intros Hb Hc Hlen. unfold _formatAsArray. cbv zeta.
  assert (Hline : (0 < chunksPerLine * basePerChunk)%nat) by lia.
  destruct (symbols_track_get (seq1_aligned a) (seq2_aligned a)) as [Hsym _].
  destruct (create2DArray_returns _ _ _ _ Hline Hb Hlen) as (a1 & a2 & H1 & H2 & H12).
  destruct (create2DArray_returns _ _ _ _ Hline Hb (eq_sym Hsym)) as (a1' & a3 & H1' & H3 & H13).
  rewrite H1, H2, H3. simpl.
  loop_rule (λ (_ : nat) (_ : list (list string)), True) Hloop.
  destruct Hloop as (table & Htable & _).
  - exact I.
  - intros k st Hk _.
    destruct (lookup_lt_is_Some_2 a1 k) as [r1 ->]; [lia|].
    destruct (lookup_lt_is_Some_2 a3 k) as [r3 ->].
    { assert (a1' = a1) by congruence. subst a1'. lia. }
    destruct (lookup_lt_is_Some_2 a2 k) as [r2 ->]; [lia|].
    simpl. eauto.
  - eauto.
Qed.

(** On two sequences that are not empty once normalized, and with positive
    chunk sizes, the pairwise entry point returns a table. *)
Lemma showAlignment_returns seq1 seq2 basePerChunk chunksPerLine ms mm g :
  normalize seq1 ≠ "" → normalize seq2 ≠ "" →
  (0 < basePerChunk)%nat → (0 < chunksPerLine)%nat →
  ∃ table, showAlignment seq1 seq2 basePerChunk chunksPerLine ms mm g = Ok table.
Proof.
  intros H1 H2 Hb Hc. unfold showAlignment.
  rewrite (cleanup_nonempty seq1 H1), (cleanup_nonempty seq2 H2). simpl.
  apply formatAsArray_returns; [exact Hb|exact Hc|].
  apply (pairwiseAlign_columns (normalize seq1) (normalize seq2) ms mm g).
Qed.

(** ** The rounds of the guide-tree loop as a chain of merges *)

Lemma guide_tree_merges (dm : qmatrix) N fuel clusters :
  rect dm N N → clusters_wf N clusters →
  (1 ≤ length clusters)%nat → (length clusters ≤ fuel + 1)%nat →
  ∃ final,
    merges dm (length clusters - 1) clusters [final] ∧
    while_m fuel (λ clusters, bool_decide (1 < length clusters)%nat)
      (merge_step dm) clusters
    = Ok ((length clusters - 1)%nat, [final]).
Proof.
  intros Hr. revert clusters. induction fuel as [|fuel IH]; intros clusters Hwf Hlen Hfuel.
  - destruct clusters as [|c [|c' rest]]; simpl in *; try lia.
    exists c. split; [constructor|reflexivity].
  - destruct (decide (1 < length clusters)%nat) as [Hgt|Hle].
    + destruct (merge_step_wf dm N clusters Hr Hwf Hgt) as (clusters' & Hstep & Hlen' & Hwf').
      destruct (merge_step_spec dm N clusters Hr Hwf Hgt)
        as (i & j & ci & cj & Hij & Hi & Hj & Hmerged).
      pose proof Hstep as Hstep'. rewrite Hmerged in Hstep'. injection Hstep' as Hshape.
      destruct (IH clusters' Hwf') as (final & Hchain & Hfinal); [lia|lia|].
      exists final. split.
      * replace (length clusters - 1)%nat with (S (length clusters' - 1)) by lia.
        eapply (merges_round dm _ clusters clusters' [final] i j ci cj); eauto.
      * simpl. rewrite bool_decide_eq_true_2 by exact Hgt.
        rewrite Hstep. simpl. rewrite Hfinal. simpl. do 2 f_equal. lia.
    + destruct clusters as [|c [|c' rest]]; simpl in *; try lia.
      exists c. split; [constructor|reflexivity].
Qed.

(** ** A cell of the walk where no test holds *)

Lemma traceback_step_stuck seq1 seq2 (m : matrix) ms mm g st :
  (0 < cur_i st)%nat ∨ (0 < cur_j st)%nat →
  diag_test seq1 seq2 m ms mm (cur_i st) (cur_j st) = false →
  up_test m g (cur_i st) (cur_j st) = false →
  left_test m g (cur_i st) (cur_j st) = false →
  traceback_step seq1 seq2 m ms mm g st = None.
Proof.
  intros Hpos Hd Hu Hl. unfold traceback_step. cbv zeta. rewrite Hd, Hu, Hl.
  destruct (bool_decide (0 < cur_i st)%nat || bool_decide (0 < cur_j st)%nat); reflexivity.
Qed.

Lemma while_loop_None {S : Type} fuel (body : S → option S) s :
  body s = None → while_loop fuel body s = s.
Proof. intros H. destruct fuel; simpl; [reflexivity|]. rewrite H. reflexivity. Qed.

(** ** The symbol of a column of an alignment *)

Lemma symbol_at_cases (c1 c2 : ascii) :
  ¬ (c1 = gap_char ∧ c2 = gap_char) →
  (symbol_at (Some c1) (Some c2) = "|"%char ↔ c1 = c2) ∧
  (symbol_at (Some c1) (Some c2) = " "%char ↔ c1 = gap_char ∨ c2 = gap_char) ∧
  (symbol_at (Some c1) (Some c2) = "x"%char ↔ c1 ≠ gap_char ∧ c2 ≠ gap_char ∧ c1 ≠ c2).
Proof.
  intros Hboth. unfold symbol_at.
  destruct (decide (Some c1 = Some c2)) as [Heq|Hne].
  - assert (c1 = c2) as -> by congruence.
    assert (c2 ≠ gap_char) by (intros ->; apply Hboth; split; reflexivity).
    repeat split; intros; try discriminate; try assumption;
      try reflexivity; intuition congruence.
  - assert (c1 ≠ c2) by congruence.
    destruct (decide (Some c1 = Some gap_char ∨ Some c2 = Some gap_char)) as [Hg|Hg].
    + assert (c1 = gap_char ∨ c2 = gap_char) by (destruct Hg; [left|right]; congruence).
      repeat split; intros; try discriminate; try assumption;
        try reflexivity; intuition congruence.
    + assert (c1 ≠ gap_char ∧ c2 ≠ gap_char) as [? ?]
        by (split; intros ->; apply Hg; [left|right]; reflexivity).
      repeat split; intros; try discriminate; try assumption;
        try reflexivity; intuition congruence.
Qed.

(** * The claims *)

(** C1 (the code departs from the claim): the claim asks that the two
    aligned strings be at least as long as the longer input.  On "A"
    against "C" with the default scores the largest cell of the matrix is
    the origin, the walk has no round, and both aligned strings are
    empty. *)
Theorem C1_alignment_shorter_than_inputs :
  pairwiseAlign "A" "C" 1 (-1) (-1) = Alignment "" "" ∧
  (String.length (seq1_aligned (pairwiseAlign "A" "C" 1 (-1) (-1)))
   < Nat.max (String.length "A") (String.length "C"))%nat.
Proof. split; [vm_compute; reflexivity|vm_compute; lia]. Qed.

(** C2: the matrix built for [seq1] and [seq2] has its cells defined for
    [i] in [0, |seq1|] and [j] in [0, |seq2|], with [M[i][0] = i * gap],
    [M[0][j] = j * gap], and in the interior [M[i][j]] is the largest of
    the four numbers
    [M[i-1][j-1] + (match if seq1[i-1] = seq2[j-1] else mismatch)],
    [M[i-1][j] + gap], [M[i][j-1] + gap] and [0].
    (Nothing here needs the sequences to be non-empty.) *)
Theorem C2_buildMatrix_recurrence seq1 seq2 matchScore mismatchScore gapScore i j :
  (i ≤ String.length seq1)%nat → (j ≤ String.length seq2)%nat →
  let M := _buildMatrix seq1 seq2 matchScore mismatchScore gapScore in
  entry M i 0 = Some (Z.of_nat i * gapScore) ∧
  entry M 0 j = Some (Z.of_nat j * gapScore) ∧
  ((1 ≤ i)%nat → (1 ≤ j)%nat →
   ∃ diagCell upCell leftCell,
     entry M (i - 1) (j - 1) = Some diagCell ∧
     entry M (i - 1) j = Some upCell ∧
     entry M i (j - 1) = Some leftCell ∧
     entry M i j =
       Some (Z.max (Z.max (Z.max
               (diagCell
                + (if decide (String.get (i - 1) seq1 = String.get (j - 1) seq2)
                   then matchScore else mismatchScore))
               (upCell + gapScore))
               (leftCell + gapScore))
               0)).
Proof.
  intros Hi Hj M. subst M.
  rewrite !buildMatrix_entry by lia. rewrite score_col0, score_row0.
  split; [reflexivity|]. split; [reflexivity|]. intros Hi1 Hj1.
  destruct i as [|i]; [lia|]. destruct j as [|j]; [lia|].
  simpl Nat.sub. rewrite !Nat.sub_0_r.
  exists (cell_score seq1 seq2 matchScore mismatchScore gapScore i j),
         (cell_score seq1 seq2 matchScore mismatchScore gapScore i (S j)),
         (cell_score seq1 seq2 matchScore mismatchScore gapScore (S i) j).
  rewrite score_step. unfold max4. auto.
Qed.

Lemma C2_buildMatrix_recurrence_witness :
  (2 ≤ String.length "AA")%nat ∧ (3 ≤ String.length "AAG")%nat ∧
  let M := _buildMatrix "AA" "AAG" 1 (-1) (-1) in
  entry M 2 0 = Some (Z.of_nat 2 * -1) ∧
  entry M 0 3 = Some (Z.of_nat 3 * -1) ∧
  ∃ diagCell upCell leftCell,
    entry M (2 - 1) (3 - 1) = Some diagCell ∧
    entry M (2 - 1) 3 = Some upCell ∧
    entry M 2 (3 - 1) = Some leftCell ∧
    entry M 2 3 =
      Some (Z.max (Z.max (Z.max
              (diagCell
               + (if decide (String.get (2 - 1) "AA" = String.get (3 - 1) "AAG")
                  then 1 else -1))
              (upCell + -1))
              (leftCell + -1))
              0).
Proof.
  assert (H1 : (2 ≤ String.length "AA")%nat) by (simpl; lia).
  assert (H2 : (3 ≤ String.length "AAG")%nat) by (simpl; lia).
  split; [exact H1|]. split; [exact H2|].
  destruct (C2_buildMatrix_recurrence "AA" "AAG" 1 (-1) (-1) 2 3 H1 H2) as (Ha & Hb & Hc).
  split; [exact Ha|]. split; [exact Hb|]. apply Hc; lia.
Defined.

(** C3 (the code departs from the claim): the claim asks that a cell with
    a positive index where none of the three predecessor tests holds be
    reported as an error, so that the walk either reports it or goes on
    until both indices are 0.  The code has no error path: at such a cell
    of the matrix built for the sequences, whatever they and the scores
    are, the round is the [break] of the last [else], and the loop is left
    with the state as it is.
    On "CA" against "GA" with the default scores the walk starts at cell
    (2, 2), takes one diagonal round, and is stuck at cell (1, 1); the call
    returns the one column pushed, ("A", "A"), where the global alignment
    that the code documents holds the two columns of ("CA", "GA"). *)
Theorem C3_stuck_walk_truncates_silently :
  (∀ seq1 seq2 matchScore mismatchScore gapScore st fuel,
     let m := _buildMatrix seq1 seq2 matchScore mismatchScore gapScore in
     (cur_i st ≤ String.length seq1)%nat → (cur_j st ≤ String.length seq2)%nat →
     (0 < cur_i st)%nat ∨ (0 < cur_j st)%nat →
     diag_test seq1 seq2 m matchScore mismatchScore (cur_i st) (cur_j st) = false →
     up_test m gapScore (cur_i st) (cur_j st) = false →
     left_test m gapScore (cur_i st) (cur_j st) = false →
     traceback_step seq1 seq2 m matchScore mismatchScore gapScore st = None ∧
     while_loop fuel (traceback_step seq1 seq2 m matchScore mismatchScore gapScore) st = st) ∧
  let m := _buildMatrix "CA" "GA" 1 (-1) (-1) in
  let st := traceback_walk "CA" "GA" m 1 (-1) (-1) in
  m = [[0; -1; -2]; [-1; 0; 0]; [-2; 0; 1]] ∧
  traceback_max m = MaxScan (Finite 1) 2 2 ∧
  traceback_step "CA" "GA" m 1 (-1) (-1) (Walk 2 2 [] [])
  = Some (Walk 1 1 [Some "A"%char] [Some "A"%char]) ∧
  st = Walk 1 1 [Some "A"%char] [Some "A"%char] ∧
  diag_test "CA" "GA" m 1 (-1) 1 1 = false ∧
  up_test m (-1) 1 1 = false ∧
  left_test m (-1) 1 1 = false ∧
  _traceback "CA" "GA" m 1 (-1) (-1) = Alignment "A" "A" ∧
  (String.length (seq1_aligned (_traceback "CA" "GA" m 1 (-1) (-1)))
   < String.length "CA")%nat.
Proof.
  split.
  - intros seq1 seq2 matchScore mismatchScore gapScore st fuel m _ _ Hpos Hd Hu Hl.
    assert (Hstep : traceback_step seq1 seq2 m matchScore mismatchScore gapScore st = None)
      by (apply traceback_step_stuck; assumption).
    split; [exact Hstep|]. apply while_loop_None. exact Hstep.
  - vm_compute. repeat split. lia.
Qed.

(** C6: a non-empty sequence aligned against itself with scores 1, -1, -1
    comes back as the pair (s, s); and, the sequence being over an alphabet
    without the gap character, neither output holds a gap. *)
Theorem C6_self_alignment (s : string) :
  s ≠ "" →
  let r := pairwiseAlign s s 1 (-1) (-1) in
  seq1_aligned r = s ∧ seq2_aligned r = s ∧
  (¬ occurs gap_char s →
   ¬ occurs gap_char (seq1_aligned r) ∧ ¬ occurs gap_char (seq2_aligned r)).
Proof.
  intros _ r. subst r. rewrite pairwiseAlign_self. simpl. auto.
Qed.

Lemma no_gap_ACGT : ¬ occurs gap_char "ACGT".
Proof.
  intros [k Hk]. do 4 (destruct k as [|k]; [discriminate Hk|]). discriminate Hk.
Qed.

Lemma no_gap_AGT : ¬ occurs gap_char "AGT".
Proof.
  intros [k Hk]. do 3 (destruct k as [|k]; [discriminate Hk|]). discriminate Hk.
Qed.

Lemma C6_self_alignment_witness :
  "ACGT" ≠ "" ∧
  let r := pairwiseAlign "ACGT" "ACGT" 1 (-1) (-1) in
  seq1_aligned r = "ACGT" ∧ seq2_aligned r = "ACGT" ∧
  ¬ occurs gap_char (seq1_aligned r) ∧ ¬ occurs gap_char (seq2_aligned r).
Proof.
  assert (H : "ACGT" ≠ "") by discriminate.
  split; [exact H|].
  destruct (C6_self_alignment "ACGT" H) as (H1 & H2 & H3).
  split; [exact H1|]. split; [exact H2|]. apply H3. exact no_gap_ACGT.
Defined.

(** C9: for the alignment returned for two sequences over an alphabet
    without the gap character, which is what the formatter is given, the
    two aligned strings have one length, and at each position the symbol of
    the track is '|' exactly when the two characters are equal, a space
    exactly when one of them is the gap character, and 'x' exactly when
    neither is the gap character and they differ. *)
Theorem C9_symbol_track seq1 seq2 matchScore mismatchScore gapScore k :
  ¬ occurs gap_char seq1 → ¬ occurs gap_char seq2 →
  (k < String.length
         (seq1_aligned (pairwiseAlign seq1 seq2 matchScore mismatchScore gapScore)))%nat →
  let r := pairwiseAlign seq1 seq2 matchScore mismatchScore gapScore in
  String.length (seq1_aligned r) = String.length (seq2_aligned r) ∧
  ∃ c1 c2 sym,
    String.get k (seq1_aligned r) = Some c1 ∧ String.get k (seq2_aligned r) = Some c2 ∧
    String.get k (symbols_track (seq1_aligned r) (seq2_aligned r)) = Some sym ∧
    (sym = "|"%char ↔ c1 = c2) ∧
    (sym = " "%char ↔ c1 = gap_char ∨ c2 = gap_char) ∧
    (sym = "x"%char ↔ c1 ≠ gap_char ∧ c2 ≠ gap_char ∧ c1 ≠ c2).
Proof.
  intros Hg1 Hg2 Hk r. subst r.
  destruct (pairwiseAlign_columns seq1 seq2 matchScore mismatchScore gapScore)
    as [Hlen Hcols].
  split; [exact Hlen|].
  set (r := pairwiseAlign seq1 seq2 matchScore mismatchScore gapScore) in *.
  destruct (get_is_Some (seq1_aligned r) k Hk) as [c1 H1].
  destruct (get_is_Some (seq2_aligned r) k) as [c2 H2]; [lia|].
  destruct (symbols_track_get (seq1_aligned r) (seq2_aligned r)) as [_ Hget].
  exists c1, c2, (symbol_at (Some c1) (Some c2)).
  rewrite Hget, H1, H2 by exact Hk.
  split; [reflexivity|]. split; [reflexivity|]. split; [reflexivity|].
  apply symbol_at_cases. intros [-> ->].
  destruct (Hcols k _ _ H1 H2)
    as [(a & b & Ha & Hb & Hoa & _)|[(a & Ha & _ & Hoa)|(b & _ & Hb & Hob)]].
  - injection Ha as <-. contradiction.
  - injection Ha as <-. contradiction.
  - injection Hb as <-. contradiction.
Qed.

Lemma C9_symbol_track_witness :
  ¬ occurs gap_char "ACGT" ∧ ¬ occurs gap_char "AGT" ∧
  (1 < String.length (seq1_aligned (pairwiseAlign "ACGT" "AGT" 1 (-1) (-1))))%nat ∧
  let r := pairwiseAlign "ACGT" "AGT" 1 (-1) (-1) in
  String.length (seq1_aligned r) = String.length (seq2_aligned r) ∧
  ∃ c1 c2 sym,
    String.get 1 (seq1_aligned r) = Some c1 ∧ String.get 1 (seq2_aligned r) = Some c2 ∧
    String.get 1 (symbols_track (seq1_aligned r) (seq2_aligned r)) = Some sym ∧
    (sym = "|"%char ↔ c1 = c2) ∧
    (sym = " "%char ↔ c1 = gap_char ∨ c2 = gap_char) ∧
    (sym = "x"%char ↔ c1 ≠ gap_char ∧ c2 ≠ gap_char ∧ c1 ≠ c2).
Proof.
  assert (H3 : (1 < String.length
                     (seq1_aligned (pairwiseAlign "ACGT" "AGT" 1 (-1) (-1))))%nat)
    by (vm_compute; lia).
  split; [exact no_gap_ACGT|]. split; [exact no_gap_AGT|]. split; [exact H3|].
  exact (C9_symbol_track "ACGT" "AGT" 1 (-1) (-1) 1 no_gap_ACGT no_gap_AGT H3).
Defined.

(** C10: every column of the alignment returned for [seq1] and [seq2] is a
    symbol of [seq1] over a symbol of [seq2], a symbol of [seq1] over a
    gap, or a gap over a symbol of [seq2]: a round of the walk puts a gap
    on at most one side.  Hence, the sequences being over an alphabet
    without the gap character, no column holds '-' on both sides.  (A '-'
    inside an input sequence would be copied like any other symbol.) *)
Theorem C10_no_double_gap seq1 seq2 matchScore mismatchScore gapScore :
  seq1 ≠ "" → seq2 ≠ "" →
  let r := pairwiseAlign seq1 seq2 matchScore mismatchScore gapScore in
  (∀ k x y, String.get k (seq1_aligned r) = Some x → String.get k (seq2_aligned r) = Some y →
     emitted seq1 seq2 (Some x) (Some y)) ∧
  (¬ occurs gap_char seq1 → ¬ occurs gap_char seq2 →
   ∀ k, ¬ (String.get k (seq1_aligned r) = Some gap_char ∧
           String.get k (seq2_aligned r) = Some gap_char)).
Proof.
  intros _ _ r. subst r.
  destruct (pairwiseAlign_columns seq1 seq2 matchScore mismatchScore gapScore) as [_ Hcols].
  split; [exact Hcols|].
  intros Hg1 Hg2 k [Hx Hy].
  destruct (Hcols k _ _ Hx Hy)
    as [(a & b & Ha & Hb & Hoa & _)|[(a & Ha & _ & Hoa)|(b & _ & Hb & Hob)]].
  - injection Ha as <-. contradiction.
  - injection Ha as <-. contradiction.
  - injection Hb as <-. contradiction.
Qed.

Lemma C10_no_double_gap_witness :
  "ACGT" ≠ "" ∧ "AGT" ≠ "" ∧
  let r := pairwiseAlign "ACGT" "AGT" 1 (-1) (-1) in
  (∀ k x y, String.get k (seq1_aligned r) = Some x → String.get k (seq2_aligned r) = Some y →
     emitted "ACGT" "AGT" (Some x) (Some y)) ∧
  ∀ k, ¬ (String.get k (seq1_aligned r) = Some gap_char ∧
          String.get k (seq2_aligned r) = Some gap_char).
Proof.
  assert (H1 : "ACGT" ≠ "") by discriminate.
  assert (H2 : "AGT" ≠ "") by discriminate.
  split; [exact H1|]. split; [exact H2|].
  destruct (C10_no_double_gap "ACGT" "AGT" 1 (-1) (-1) H1 H2) as [Ha Hb].
  split; [exact Ha|]. exact (Hb no_gap_ACGT no_gap_AGT).
Defined.

(** C4 (the code departs from the claim): the claim asks that a call on
    non-empty sequences never fail.  The multiple-sequence entry point
    throws a [TypeError] on the two non-empty sequences "ACGT" and "ACGA":
    both pass [cleanup], and the first call of the distance estimator
    destructures, as an array, the object returned by [_traceback]. *)
Theorem C4_msa_throws_on_nonempty_sequences :
  map_m cleanup ["ACGT"; "ACGA"] = Ok ["ACGT"; "ACGA"] ∧
  calculateDistanceMatrix ["ACGT"; "ACGA"] 1 (-1) (-1) = Throw TypeError ∧
  multipleSequenceAlignment ["ACGT"; "ACGA"] 10 5 1 (-1) (-1) = Throw TypeError.
Proof. repeat split; vm_compute; reflexivity. Qed.

(** C5 (the code departs from the claim): the claim asks that the
    alignment of ["AAAA", "AAAA", "AAAA"] with chunks of 10, 5 per line, and
    scores 1, -1, -1 yield three rows "AAAA".  The call throws a
    [TypeError] while it computes the distance of the first pair. *)
Theorem C5_msa_of_three_equal_sequences_throws :
  multipleSequenceAlignment ["AAAA"; "AAAA"; "AAAA"] 10 5 1 (-1) (-1) = Throw TypeError.
Proof. vm_compute. reflexivity. Qed.

(** C7: for an [N]×[N] distance matrix with [N ≥ 1], the loop of the
    guide-tree builder goes from the [N] singleton clusters to one cluster
    through exactly [N - 1] rounds, each of which merges two clusters of
    the current list (the members of the second are appended to the first,
    and the second is removed) and so leaves one cluster less; the loop
    ends there, and [constructGuideTree] returns that cluster. *)
Theorem C7_guide_tree_merges (dm : qmatrix) N :
  (1 ≤ N)%nat → rect dm N N →
  ∃ final,
    merges dm (N - 1) (imap (λ index _, [index]) dm) [final] ∧
    guide_tree_loop dm = Ok ((N - 1)%nat, [final]) ∧
    constructGuideTree dm = Ok (Some final).
Proof.
  intros HN Hr. pose proof Hr as [Hlen _].
  unfold constructGuideTree, guide_tree_loop.
  destruct (guide_tree_merges dm N (length (imap (λ index _, [index]) dm))
              (imap (λ index _, [index]) dm)) as (final & Hchain & Hfinal).
  - exact Hr.
  - rewrite <- Hlen. apply initial_clusters_wf.
  - rewrite length_imap. lia.
  - lia.
  - exists final. cbv zeta. rewrite Hfinal.
    rewrite length_imap, Hlen in *. split; [exact Hchain|]. split; reflexivity.
Qed.

Lemma C7_guide_tree_merges_witness :
  (1 ≤ 3)%nat ∧ rect [[0; 1; 5]; [1; 0; 4]; [5; 4; 0]]%Q 3 3 ∧
  ∃ final,
    merges [[0; 1; 5]; [1; 0; 4]; [5; 4; 0]]%Q (3 - 1)
      (imap (λ index _, [index]) [[0; 1; 5]; [1; 0; 4]; [5; 4; 0]]%Q) [final] ∧
    guide_tree_loop [[0; 1; 5]; [1; 0; 4]; [5; 4; 0]]%Q = Ok ((3 - 1)%nat, [final]) ∧
    constructGuideTree [[0; 1; 5]; [1; 0; 4]; [5; 4; 0]]%Q = Ok (Some final).
Proof.
  assert (H1 : (1 ≤ 3)%nat) by lia.
  assert (H2 : rect [[0; 1; 5]; [1; 0; 4]; [5; 4; 0]]%Q 3 3)
    by (split; [reflexivity|repeat constructor]).
  split; [exact H1|]. split; [exact H2|].
  exact (C7_guide_tree_merges [[0; 1; 5]; [1; 0; 4]; [5; 4; 0]]%Q 3 H1 H2).
Defined.

(** C8: at a merge step on clusters of an [N]×[N] distance matrix, the
    pair chosen, [(i, j)] with [i < j], has the smallest average distance,
    the mean of the matrix entries over all cross pairs of members, as
    [averageDistance] computes it from the matrix at this very step: no
    pair has a smaller mean, and every pair that the scan (outer index
    ascending, inner index ascending) meets before [(i, j)] has a strictly
    larger one.  The step merges that pair. *)
Theorem C8_closest_pair_first_minimum (dm : qmatrix) N clusters :
  rect dm N N → clusters_wf N clusters → (1 < length clusters)%nat →
  ∃ i j ci cj,
    (i < j < length clusters)%nat ∧
    clusters !! i = Some ci ∧ clusters !! j = Some cj ∧
    closest_pair clusters dm = Ok (Closest (Num (mean_distance dm ci cj)) (Some (i, j))) ∧
    merge_step dm clusters = Ok (<[i := ci ++ cj]> (delete j clusters)) ∧
    ∀ a b ca cb, (a < b)%nat → clusters !! a = Some ca → clusters !! b = Some cb →
      averageDistance ca cb dm = Ok (Num (mean_distance dm ca cb)) ∧
      (mean_distance dm ci cj <= mean_distance dm ca cb)%Q ∧
      (before i j a b → (mean_distance dm ci cj < mean_distance dm ca cb)%Q).
Proof.
  intros Hr Hwf Hlen.
  destruct (closest_pair_spec dm N clusters Hr Hwf Hlen)
    as (i & j & ci & cj & Hscan & Hij & Hci & Hcj & Hmin).
  exists i, j, ci, cj. repeat (split; [assumption|]). split.
  - eapply merge_step_of_scan; eassumption.
  - intros a b ca cb Hab Ha Hb.
    destruct (clusters_wf_lookup N clusters a ca Hwf Ha) as [Hnea Halla].
    destruct (clusters_wf_lookup N clusters b cb Hwf Hb) as [Hneb Hallb].
    split; [apply (averageDistance_mean dm N); assumption|].
    apply Hmin; assumption.
Qed.

Lemma C8_closest_pair_first_minimum_witness :
  rect [[0; 1; 5]; [1; 0; 4]; [5; 4; 0]]%Q 3 3 ∧
  clusters_wf 3 [[0]; [1]; [2]]%nat ∧
  (1 < length [[0]; [1]; [2]]%nat)%nat ∧
  ∃ i j ci cj,
    (i < j < length [[0]; [1]; [2]]%nat)%nat ∧
    [[0]; [1]; [2]]%nat !! i = Some ci ∧ [[0]; [1]; [2]]%nat !! j = Some cj ∧
    closest_pair [[0]; [1]; [2]]%nat [[0; 1; 5]; [1; 0; 4]; [5; 4; 0]]%Q
    = Ok (Closest (Num (mean_distance [[0; 1; 5]; [1; 0; 4]; [5; 4; 0]]%Q ci cj))
                  (Some (i, j))) ∧
    merge_step [[0; 1; 5]; [1; 0; 4]; [5; 4; 0]]%Q [[0]; [1]; [2]]%nat
    = Ok (<[i := ci ++ cj]> (delete j [[0]; [1]; [2]]%nat)) ∧
    ∀ a b ca cb, (a < b)%nat →
      [[0]; [1]; [2]]%nat !! a = Some ca → [[0]; [1]; [2]]%nat !! b = Some cb →
      averageDistance ca cb [[0; 1; 5]; [1; 0; 4]; [5; 4; 0]]%Q
      = Ok (Num (mean_distance [[0; 1; 5]; [1; 0; 4]; [5; 4; 0]]%Q ca cb)) ∧
      (mean_distance [[0; 1; 5]; [1; 0; 4]; [5; 4; 0]]%Q ci cj
       <= mean_distance [[0; 1; 5]; [1; 0; 4]; [5; 4; 0]]%Q ca cb)%Q ∧
      (before i j a b →
       (mean_distance [[0; 1; 5]; [1; 0; 4]; [5; 4; 0]]%Q ci cj
        < mean_distance [[0; 1; 5]; [1; 0; 4]; [5; 4; 0]]%Q ca cb)%Q).
Proof.
  assert (H1 : rect [[0; 1; 5]; [1; 0; 4]; [5; 4; 0]]%Q 3 3)
    by (split; [reflexivity|repeat constructor]).
  assert (H2 : clusters_wf 3 [[0]; [1]; [2]]%nat)
    by (repeat constructor; try discriminate; lia).
  assert (H3 : (1 < length [[0]; [1]; [2]]%nat)%nat) by (simpl; lia).
  split; [exact H1|]. split; [exact H2|]. split; [exact H3|].
  exact (C8_closest_pair_first_minimum _ 3 _ H1 H2 H3).
Defined.

(** * Further properties *)

(** ** The matrix, the scan and the walk *)

Lemma join_length_Some l :
  Forall (λ c : option ascii, is_Some c) l → String.length (join l) = length l.
Proof.
  induction 1 as [|c l [a ->] _ IH]; simpl; [reflexivity|]. rewrite IH. reflexivity.
Qed.

Lemma solid_cons_gap l : solid (Some gap_char :: l) = solid l.
Proof.
  unfold solid. rewrite filter_cons.
  destruct (decide (Some gap_char ≠ Some gap_char)) as [Hn|_]; [congruence|reflexivity].
Qed.

Lemma solid_cons_None l : solid (None :: l) = None :: solid l.
Proof.
  unfold solid. rewrite filter_cons.
  destruct (decide (None ≠ Some gap_char)) as [_|Hn]; [reflexivity|].
  exfalso. apply Hn. discriminate.
Qed.

Lemma solid_cons_other c l : c ≠ gap_char → solid (Some c :: l) = Some c :: solid l.
Proof.
  intros Hc. unfold solid. rewrite filter_cons.
  destruct (decide (Some c ≠ Some gap_char)) as [_|Hn]; [reflexivity|].
  exfalso. apply Hn. congruence.
Qed.

Lemma degap_join l : degap (join l) = join (solid l).
Proof.
  induction l as [|[c|] l IH]; [reflexivity| |].
  - cbn [join degap]. destruct (decide (c = gap_char)) as [->|Hc].
    + rewrite solid_cons_gap. exact IH.
    + rewrite solid_cons_other by exact Hc. cbn [join]. rewrite IH. reflexivity.
  - rewrite solid_cons_None. cbn [join]. exact IH.
Qed.

Lemma solid_cons_char s k l :
  ¬ occurs gap_char s → solid (String.get k s :: l) = String.get k s :: solid l.
Proof.
  intros Hs. destruct (String.get k s) as [c|] eqn:Hk.
  - apply solid_cons_other. intros ->. apply Hs. exists k. exact Hk.
  - apply solid_cons_None.
Qed.

Lemma between_step s i I :
  (0 < i ≤ I)%nat → between s (i - 1) I = String.get (i - 1) s :: between s i I.
Proof.
  intros Hi. unfold between.
  replace (I - (i - 1))%nat with (S (I - i)) by lia. simpl.
  replace (S (i - 1)) with i by lia. reflexivity.
Qed.

(** The segment of a string, read character by character. *)
Lemma join_segment s lo n :
  (lo + n ≤ String.length s)%nat →
  join (map (λ t, String.get t s) (seq lo n)) = substring lo n s.
Proof.
  revert lo n. induction s as [|a s IH]; intros lo n Hn; simpl in Hn.
  - assert (lo = O) by lia. assert (n = O) by lia. subst. reflexivity.
  - destruct lo as [|lo].
    + destruct n as [|n]; [reflexivity|].
      change (seq 0 (S n)) with (O :: seq 1 n).
      rewrite <- seq_shift. cbn [map]. rewrite List.map_map. cbn [String.get join substring].
      rewrite (IH O n) by lia. reflexivity.
    + rewrite <- seq_shift, List.map_map. cbn [String.get substring].
      apply IH. lia.
Qed.

Lemma join_between s lo hi :
  (lo ≤ hi ≤ String.length s)%nat → join (between s lo hi) = substring lo (hi - lo) s.
Proof. intros H. unfold between. apply join_segment. lia. Qed.

Lemma char_before_pos s i : (0 < i)%nat → char_before s i = String.get (i - 1) s.
Proof. intros Hi. destruct i as [|k]; [lia|]. simpl. rewrite Nat.sub_0_r. reflexivity. Qed.

(** One round keeps the count of the columns. *)
Lemma traceback_step_count seq1 seq2 (m : matrix) ms mm g I J st st' :
  count_inv I J st → traceback_step seq1 seq2 m ms mm g st = Some st' → count_inv I J st'.
Proof.
  intros (Hi & Hj & Hlen & H1 & H2 & H3) Hstep. apply traceback_step_Some in Hstep.
  destruct Hstep as [[Ht ->]|[[Ht ->]|[Ht ->]]]; unfold count_inv; simpl;
    rewrite !length_app; simpl.
  - apply diag_test_true in Ht. lia.
  - apply up_test_true in Ht. lia.
  - apply left_test_true in Ht. lia.
Qed.

(** One round keeps the segments, for sequences without a gap character. *)
Lemma traceback_step_segment seq1 seq2 (m : matrix) ms mm g I J st st' :
  ¬ occurs gap_char seq1 → ¬ occurs gap_char seq2 →
  segment_inv seq1 seq2 I J st →
  traceback_step seq1 seq2 m ms mm g st = Some st' → segment_inv seq1 seq2 I J st'.
Proof.
  intros Hg1 Hg2 (Hi & Hj & H1 & H2) Hstep. apply traceback_step_Some in Hstep.
  destruct Hstep as [[Ht ->]|[[Ht ->]|[Ht ->]]]; unfold segment_inv; simpl;
    rewrite !rev_app_distr; simpl.
  - apply diag_test_true in Ht. destruct Ht as (Hi0 & Hj0 & _).
    rewrite !char_before_pos by assumption.
    rewrite !solid_cons_char by assumption. rewrite H1, H2.
    rewrite !between_step by lia. repeat split; lia.
  - apply up_test_true in Ht. destruct Ht as (Hi0 & _).
    rewrite char_before_pos by assumption.
    rewrite solid_cons_char by assumption. rewrite solid_cons_gap, H1, H2.
    rewrite between_step by lia. repeat split; lia.
  - apply left_test_true in Ht. destruct Ht as (Hj0 & _).
    rewrite char_before_pos by assumption.
    rewrite solid_cons_char by assumption. rewrite solid_cons_gap, H1, H2.
    rewrite between_step by lia. repeat split; lia.
Qed.

Lemma between_empty s i : between s i i = [].
Proof. unfold between. rewrite Nat.sub_diag. reflexivity. Qed.

Lemma traceback_walk_count seq1 seq2 (m : matrix) ms mm g :
  count_inv (maxI (traceback_max m)) (maxJ (traceback_max m))
    (traceback_walk seq1 seq2 m ms mm g).
Proof.
  unfold traceback_walk. apply while_loop_inv.
  - unfold count_inv. simpl. lia.
  - intros st st'. apply traceback_step_count.
Qed.

Lemma traceback_walk_segment seq1 seq2 (m : matrix) ms mm g :
  ¬ occurs gap_char seq1 → ¬ occurs gap_char seq2 →
  segment_inv seq1 seq2 (maxI (traceback_max m)) (maxJ (traceback_max m))
    (traceback_walk seq1 seq2 m ms mm g).
Proof.
  intros Hg1 Hg2. unfold traceback_walk. apply while_loop_inv.
  - unfold segment_inv. simpl. rewrite !between_empty. repeat split; lia.
  - intros st st'. apply traceback_step_segment; assumption.
Qed.

Lemma walk_inv_Some seq1 seq2 st :
  walk_inv seq1 seq2 st →
  Forall (λ c : option ascii, is_Some c) (arr1 st) ∧
  Forall (λ c : option ascii, is_Some c) (arr2 st).
Proof.
  intros (_ & _ & Hcols). induction Hcols as [|c1 c2 l1 l2 Hc _ [IH1 IH2]].
  - split; constructor.
  - destruct (emitted_Some _ _ _ _ Hc) as (a & b & -> & ->).
    split; constructor; eauto.
Qed.

(** The start of the walk on the matrix of two sequences. *)
Lemma buildMatrix_start seq1 seq2 ms mm g :
  let dp := _buildMatrix seq1 seq2 ms mm g in
  let st := traceback_max dp in
  (maxI st ≤ String.length seq1)%nat ∧ (maxJ st ≤ String.length seq2)%nat ∧
  maxVal st = Finite (cell dp (maxI st) (maxJ st)) ∧
  (∀ a b, (a ≤ String.length seq1)%nat → (b ≤ String.length seq2)%nat →
     cell dp a b ≤ cell dp (maxI st) (maxJ st)) ∧
  (∀ a b, (b ≤ String.length seq2)%nat → before (maxI st) (maxJ st) a b →
     cell dp a b < cell dp (maxI st) (maxJ st)).
Proof.
  intros dp st. subst dp st.
  destruct (buildMatrix_spec seq1 seq2 ms mm g) as [Hr _].
  destruct (traceback_max_spec _ _ _ Hr) as (HI & HJ & Hval & Hmax & Hfirst); [lia|lia|].
  split; [lia|]. split; [lia|]. split; [exact Hval|]. split.
  - intros a b Ha Hb. apply Hmax; lia.
  - intros a b Hb. apply Hfirst. lia.
Qed.

(** X1: the matrix built for two sequences has [|seq1| + 1] rows, each of
    [|seq2| + 1] cells. *)
Theorem X1_buildMatrix_shape seq1 seq2 matchScore mismatchScore gapScore :
  let dp := _buildMatrix seq1 seq2 matchScore mismatchScore gapScore in
  length dp = (String.length seq1 + 1)%nat ∧
  Forall (λ row, length row = (String.length seq2 + 1)%nat) dp.
Proof.
  intros dp. subst dp.
  exact (proj1 (buildMatrix_spec seq1 seq2 matchScore mismatchScore gapScore)).
Qed.

(** X2: the traceback starts at a cell of the matrix that holds its largest
    value, a value that is not negative; among the cells with that value it
    is the first one of the scan, rows in order and each row from the left. *)
Theorem X2_traceback_starts_at_first_maximum seq1 seq2 matchScore mismatchScore gapScore :
  let dp := _buildMatrix seq1 seq2 matchScore mismatchScore gapScore in
  let st := traceback_max dp in
  (maxI st ≤ String.length seq1)%nat ∧ (maxJ st ≤ String.length seq2)%nat ∧
  maxVal st = Finite (cell dp (maxI st) (maxJ st)) ∧
  0 ≤ cell dp (maxI st) (maxJ st) ∧
  (∀ a b, (a ≤ String.length seq1)%nat → (b ≤ String.length seq2)%nat →
     cell dp a b ≤ cell dp (maxI st) (maxJ st)) ∧
  (∀ a b, (b ≤ String.length seq2)%nat →
     (a < maxI st)%nat ∨ (a = maxI st ∧ (b < maxJ st)%nat) →
     cell dp a b < cell dp (maxI st) (maxJ st)).
Proof.
  intros dp st. subst dp st.
  destruct (buildMatrix_start seq1 seq2 matchScore mismatchScore gapScore)
    as (HI & HJ & Hval & Hmax & Hfirst).
  repeat (split; [assumption|]). split; [|split; [exact Hmax|exact Hfirst]].
  specialize (Hmax O O).
  destruct (buildMatrix_spec seq1 seq2 matchScore mismatchScore gapScore) as [_ Hc].
  rewrite (Hc O O) in Hmax by lia. rewrite score_row0 in Hmax. lia.
Qed.

(** With a gap score that is not positive and an empty sequence, the scan
    stays at the origin. *)
Lemma empty_sequence_start seq1 seq2 ms mm g :
  g ≤ 0 → seq1 = "" ∨ seq2 = "" →
  let st := traceback_max (_buildMatrix seq1 seq2 ms mm g) in
  maxI st = O ∧ maxJ st = O.
Proof.
  intros Hg Hempty st. subst st.
  destruct (buildMatrix_start seq1 seq2 ms mm g) as (HI & HJ & _ & _ & Hfirst).
  destruct (buildMatrix_spec seq1 seq2 ms mm g) as [_ Hc].
  set (st := traceback_max (_buildMatrix seq1 seq2 ms mm g)) in *.
  destruct (decide (maxI st = O ∧ maxJ st = O)) as [H|Hn]; [exact H|exfalso].
  specialize (Hfirst O O). rewrite !Hc in Hfirst by lia.
  rewrite score_row0 in Hfirst.
  assert (Hlt : 0 < cell_score seq1 seq2 ms mm g (maxI st) (maxJ st)).
  { assert (H : Z.of_nat 0 * g < cell_score seq1 seq2 ms mm g (maxI st) (maxJ st))
      by (apply Hfirst; [lia|unfold before; lia]). lia. }
  destruct Hempty as [-> | ->]; simpl in HI, HJ.
  - assert (H : maxI st = O) by lia. rewrite H in Hlt. rewrite score_row0 in Hlt. nia.
  - assert (H : maxJ st = O) by lia. rewrite H in Hlt. rewrite score_col0 in Hlt. nia.
Qed.

(** X3: an empty sequence is not rejected by the matrix build and the
    traceback: with a gap score that is not positive, aligning against an
    empty sequence returns two empty strings. *)
Theorem X3_empty_sequence_gives_empty_alignment seq1 seq2 matchScore mismatchScore gapScore :
  gapScore ≤ 0 → seq1 = "" ∨ seq2 = "" →
  pairwiseAlign seq1 seq2 matchScore mismatchScore gapScore = Alignment "" "".
Proof.
  intros Hg Hempty. unfold pairwiseAlign, _traceback, traceback_walk.
  destruct (empty_sequence_start seq1 seq2 matchScore mismatchScore gapScore Hg Hempty)
    as [-> ->].
  reflexivity.
Qed.

Lemma X3_empty_sequence_gives_empty_alignment_witness :
  -1 ≤ 0 ∧ ("" = "" ∨ "ACG" = "") ∧
  pairwiseAlign "" "ACG" 1 (-1) (-1) = Alignment "" "".
Proof.
  assert (H1 : -1 ≤ 0) by lia.
  assert (H2 : "" = "" ∨ "ACG" = "") by (left; reflexivity).
  split; [exact H1|]. split; [exact H2|].
  exact (X3_empty_sequence_gives_empty_alignment "" "ACG" 1 (-1) (-1) H1 H2).
Defined.

(** X4: for sequences without the gap character, each aligned string with
    its gaps removed is a contiguous segment of its sequence: the symbols
    between the cell where the walk stops and the cell where it started.
    The walk neither drops, nor reorders, nor changes a symbol inside that
    segment. *)
Theorem X4_alignment_is_gapped_segment seq1 seq2 matchScore mismatchScore gapScore :
  ¬ occurs gap_char seq1 → ¬ occurs gap_char seq2 →
  let dp := _buildMatrix seq1 seq2 matchScore mismatchScore gapScore in
  let start := traceback_max dp in
  let stop := traceback_walk seq1 seq2 dp matchScore mismatchScore gapScore in
  let r := pairwiseAlign seq1 seq2 matchScore mismatchScore gapScore in
  (cur_i stop ≤ maxI start ≤ String.length seq1)%nat ∧
  (cur_j stop ≤ maxJ start ≤ String.length seq2)%nat ∧
  degap (seq1_aligned r) = substring (cur_i stop) (maxI start - cur_i stop) seq1 ∧
  degap (seq2_aligned r) = substring (cur_j stop) (maxJ start - cur_j stop) seq2.
Proof.
  intros Hg1 Hg2 dp start stop r. subst dp start stop r.
  destruct (buildMatrix_start seq1 seq2 matchScore mismatchScore gapScore) as (HI & HJ & _).
  destruct (traceback_walk_segment seq1 seq2
              (_buildMatrix seq1 seq2 matchScore mismatchScore gapScore)
              matchScore mismatchScore gapScore Hg1 Hg2) as (Hi & Hj & H1 & H2).
  split; [lia|]. split; [lia|].
  unfold pairwiseAlign, _traceback. simpl.
  rewrite !degap_join, H1, H2. rewrite !join_between by lia. split; reflexivity.
Qed.

Lemma X4_alignment_is_gapped_segment_witness :
  ¬ occurs gap_char "ACGT" ∧ ¬ occurs gap_char "AGT" ∧
  let dp := _buildMatrix "ACGT" "AGT" 1 (-1) (-1) in
  let start := traceback_max dp in
  let stop := traceback_walk "ACGT" "AGT" dp 1 (-1) (-1) in
  let r := pairwiseAlign "ACGT" "AGT" 1 (-1) (-1) in
  (cur_i stop ≤ maxI start ≤ String.length "ACGT")%nat ∧
  (cur_j stop ≤ maxJ start ≤ String.length "AGT")%nat ∧
  degap (seq1_aligned r) = substring (cur_i stop) (maxI start - cur_i stop) "ACGT" ∧
  degap (seq2_aligned r) = substring (cur_j stop) (maxJ start - cur_j stop) "AGT".
Proof.
  split; [exact no_gap_ACGT|]. split; [exact no_gap_AGT|].
  exact (X4_alignment_is_gapped_segment "ACGT" "AGT" 1 (-1) (-1) no_gap_ACGT no_gap_AGT).
Defined.

(** X5: the two aligned strings have one length, the number of rounds of
    the walk; it is at least the length of the longer of the two segments
    that the walk went through, and at most the sum of the two, hence at
    most [|seq1| + |seq2|]. *)
Theorem X5_alignment_length_bounds seq1 seq2 matchScore mismatchScore gapScore :
  let dp := _buildMatrix seq1 seq2 matchScore mismatchScore gapScore in
  let start := traceback_max dp in
  let stop := traceback_walk seq1 seq2 dp matchScore mismatchScore gapScore in
  let r := pairwiseAlign seq1 seq2 matchScore mismatchScore gapScore in
  String.length (seq1_aligned r) = String.length (seq2_aligned r) ∧
  (maxI start - cur_i stop ≤ String.length (seq1_aligned r))%nat ∧
  (maxJ start - cur_j stop ≤ String.length (seq1_aligned r))%nat ∧
  (String.length (seq1_aligned r)
   ≤ (maxI start - cur_i stop) + (maxJ start - cur_j stop))%nat ∧
  (String.length (seq1_aligned r) ≤ String.length seq1 + String.length seq2)%nat.
Proof.
  intros dp start stop r. subst dp start stop r.
  destruct (buildMatrix_start seq1 seq2 matchScore mismatchScore gapScore) as (HI & HJ & _).
  destruct (traceback_walk_count seq1 seq2
              (_buildMatrix seq1 seq2 matchScore mismatchScore gapScore)
              matchScore mismatchScore gapScore) as (Hi & Hj & Hlen & H1 & H2 & H3).
  destruct (walk_inv_Some _ _ _ (traceback_walk_inv seq1 seq2 matchScore mismatchScore gapScore))
    as [Hs1 Hs2].
  unfold pairwiseAlign, _traceback. simpl.
  rewrite !join_length_Some by (apply Forall_rev; assumption).
  rewrite !length_rev. lia.
Qed.

(** ** Chunks of a string *)

Lemma append_empty_r (s : string) : s +:+ "" = s.
Proof.
  induction s as [|a s IH]; [reflexivity|].
  change (String a s +:+ "") with (String a (s +:+ "")). rewrite IH. reflexivity.
Qed.

Lemma substring_empty n m : substring n m "" = "".
Proof. destruct n, m; reflexivity. Qed.

Lemma substring_zero (s : string) n : substring n 0 s = "".
Proof.
  revert n. induction s as [|a s IH]; intros n; [apply substring_empty|].
  destruct n as [|n]; [reflexivity|]. simpl. apply IH.
Qed.

Lemma substring_length (s : string) n m :
  String.length (substring n m s) = Nat.min m (String.length s - n).
Proof.
  revert n m. induction s as [|a s IH]; intros n m.
  - rewrite substring_empty. simpl. lia.
  - destruct n as [|n].
    + destruct m as [|m]; [reflexivity|]. simpl. rewrite IH. lia.
    + simpl. apply IH.
Qed.

Lemma substring_split (s : string) n a b :
  substring n (a + b) s = substring n a s +:+ substring (n + a) b s.
Proof.
  revert n a. induction s as [|c s IH]; intros n a.
  - rewrite !substring_empty. reflexivity.
  - destruct n as [|n].
    + destruct a as [|a]; [reflexivity|].
      cbn [Nat.add substring]. rewrite (IH O a). reflexivity.
    + cbn [Nat.add substring]. apply IH.
Qed.

Lemma substring_whole (s : string) m : (String.length s ≤ m)%nat → substring 0 m s = s.
Proof.
  revert m. induction s as [|a s IH]; intros m Hm.
  - apply substring_empty.
  - destruct m as [|m]; simpl in Hm; [lia|]. simpl. rewrite IH by lia. reflexivity.
Qed.

Lemma concat_cons (x : string) xs : String.concat "" (x :: xs) = x +:+ String.concat "" xs.
Proof. destruct xs; simpl; [rewrite append_empty_r|]; reflexivity. Qed.

(** Chunk [k] exists exactly when it starts inside the string. *)
Lemma chunk_count_spec len size k :
  (0 < size)%nat → (k < chunk_count len size)%nat ↔ (k * size < len)%nat.
Proof.
  intros Hsize. unfold chunk_count. split.
  - intros Hk. destruct (decide (k * size < len)%nat) as [H|H]; [exact H|exfalso].
    assert ((len + size - 1) / size < S k)%nat; [|lia].
    apply Nat.Div0.div_lt_upper_bound. lia.
  - intros Hk. assert (S k ≤ (len + size - 1) / size)%nat; [|lia].
    apply Nat.div_le_lower_bound; lia.
Qed.

Lemma chunk_count_le len size : (0 < size)%nat → (chunk_count len size ≤ len)%nat.
Proof.
  intros Hsize. destruct (decide (chunk_count len size ≤ len)%nat) as [H|H]; [exact H|].
  assert (Hlt : (len < chunk_count len size)%nat) by lia.
  apply (chunk_count_spec len size len Hsize) in Hlt. nia.
Qed.

Lemma chunk_loop_chunks fuel str size k :
  (0 < size)%nat → (k ≤ chunk_count (String.length str) size)%nat →
  (chunk_count (String.length str) size - k ≤ fuel)%nat →
  chunk_loop fuel str size (k * size)
    (map (λ k, substring (k * size) size str) (seq 0 k))
  = Ok (chunks str size).
Proof.
  intros Hsize. revert k. induction fuel as [|fuel IH]; intros k Hk Hfuel.
  - assert (k = chunk_count (String.length str) size) by lia. subst k. simpl.
    destruct (decide _) as [Hlt|_]; [|reflexivity].
    apply (chunk_count_spec _ _ _ Hsize) in Hlt. lia.
  - simpl. destruct (decide (k * size < String.length str)%nat) as [Hlt|Hge].
    + apply (chunk_count_spec _ _ _ Hsize) in Hlt.
      replace (k * size + size)%nat with (S k * size)%nat by lia.
      replace (map (λ k0, substring (k0 * size) size str) (seq 0 k)
               ++ [substring (k * size) size str])
        with (map (λ k0, substring (k0 * size) size str) (seq 0 (S k)))
        by (rewrite seq_S, map_app; reflexivity).
      apply IH; lia.
    + assert (k = chunk_count (String.length str) size).
      { destruct (decide (k < chunk_count (String.length str) size)%nat) as [H|H]; [|lia].
        apply (chunk_count_spec _ _ _ Hsize) in H. lia. }
      subst k. reflexivity.
Qed.

Lemma chunkString_chunks str size :
  (0 < size)%nat → chunkString str size = Ok (chunks str size).
Proof.
  intros Hsize. unfold chunkString.
  apply (chunk_loop_chunks (String.length str) str size O Hsize); [lia|].
  pose proof (chunk_count_le (String.length str) size Hsize). lia.
Qed.

Lemma concat_chunks_from str size k n :
  String.concat "" (map (λ k, substring (k * size) size str) (seq k n))
  = substring (k * size) (n * size) str.
Proof.
  revert k. induction n as [|n IH]; intros k.
  - simpl. rewrite substring_zero. reflexivity.
  - cbn [seq map]. rewrite concat_cons, IH.
    replace (S n * size)%nat with (size + n * size)%nat by lia.
    rewrite substring_split.
    replace (S k * size)%nat with (k * size + size)%nat by lia. reflexivity.
Qed.

Lemma concat_chunks str size : (0 < size)%nat → String.concat "" (chunks str size) = str.
Proof.
  intros Hsize. unfold chunks. rewrite concat_chunks_from. simpl.
  apply substring_whole.
  destruct (decide (String.length str
                    ≤ chunk_count (String.length str) size * size)%nat) as [H|H]; [exact H|].
  assert (Hlt : (chunk_count (String.length str) size * size < String.length str)%nat) by lia.
  apply (chunk_count_spec _ _ _ Hsize) in Hlt. lia.
Qed.

Lemma chunks_bounds str size :
  (0 < size)%nat → Forall (λ c, (1 ≤ String.length c ≤ size)%nat) (chunks str size).
Proof.
  intros Hsize. unfold chunks. apply Forall_map. apply Forall_forall.
  intros k Hk. apply elem_of_seq in Hk. simpl in Hk.
  assert (Hlt : (k < chunk_count (String.length str) size)%nat) by lia.
  apply (chunk_count_spec _ _ _ Hsize) in Hlt.
  simpl. rewrite substring_length. lia.
Qed.

Lemma chunk_loop_zero_size fuel str chunks0 :
  (0 < String.length str)%nat → chunk_loop fuel str 0 0 chunks0 = Hang.
Proof.
  intros Hlen. revert chunks0. induction fuel as [|fuel IH]; intros chunks0; simpl;
    destruct (decide _) as [_|H]; try lia; [reflexivity|apply IH].
Qed.

(** X6: with a positive [size], [chunkString] returns the chunks of the
    string in order: [ceil(length / size)] of them, chunk [k] being the
    (at most) [size] characters from position [k * size] on. *)
Theorem X6_chunkString_chunks str size :
  (0 < size)%nat →
  chunkString str size
  = Ok (map (λ k, substring (k * size) size str)
            (seq 0 ((String.length str + size - 1) / size))).
Proof. intros Hsize. exact (chunkString_chunks str size Hsize). Qed.

Lemma X6_chunkString_chunks_witness :
  (0 < 3)%nat ∧
  chunkString "ACGTACGT" 3
  = Ok (map (λ k, substring (k * 3) 3 "ACGTACGT")
            (seq 0 ((String.length "ACGTACGT" + 3 - 1) / 3))).
Proof.
  assert (H : (0 < 3)%nat) by lia.
  split; [exact H|]. exact (X6_chunkString_chunks "ACGTACGT" 3 H).
Defined.

(** X7: with a positive [size], the chunks returned by [chunkString],
    concatenated in order, give the string back; no chunk is empty and none
    is longer than [size]. *)
Theorem X7_chunkString_round_trip str size :
  (0 < size)%nat →
  ∃ cells, chunkString str size = Ok cells ∧
    String.concat "" cells = str ∧
    Forall (λ c, (1 ≤ String.length c ≤ size)%nat) cells.
Proof.
  intros Hsize. exists (chunks str size).
  split; [apply chunkString_chunks; exact Hsize|].
  split; [apply concat_chunks; exact Hsize|apply chunks_bounds; exact Hsize].
Qed.

Lemma X7_chunkString_round_trip_witness :
  (0 < 3)%nat ∧
  ∃ cells, chunkString "ACGTACGT" 3 = Ok cells ∧
    String.concat "" cells = "ACGTACGT" ∧
    Forall (λ c, (1 ≤ String.length c ≤ 3)%nat) cells.
Proof.
  assert (H : (0 < 3)%nat) by lia.
  split; [exact H|]. exact (X7_chunkString_round_trip "ACGTACGT" 3 H).
Defined.

(** X8: a chunk size of 0 is not rejected.  On a string that is not empty
    [chunkString] then never returns: its loop index stays at 0, below the
    length of the string. *)
Theorem X8_chunkString_zero_size_hangs str :
  str ≠ "" → chunkString str 0 = Hang.
Proof.
  intros Hstr. unfold chunkString. apply chunk_loop_zero_size.
  destruct str; [congruence|simpl; lia].
Qed.

Lemma X8_chunkString_zero_size_hangs_witness :
  "ACGT" ≠ "" ∧ chunkString "ACGT" 0 = Hang.
Proof.
  assert (H : "ACGT" ≠ "") by discriminate.
  split; [exact H|]. exact (X8_chunkString_zero_size_hangs "ACGT" H).
Defined.

(** ** The table of the pairwise formatter *)

Lemma map_m_pure {A B : Type} (f : A → result B) (g : A → B) xs :
  (∀ x, f x = Ok (g x)) → map_m f xs = Ok (map g xs).
Proof.
  intros H. induction xs as [|x xs IH]; simpl; [reflexivity|].
  rewrite H, IH. reflexivity.
Qed.

Lemma create2DArray_blocks str lineSize blockSize :
  (0 < lineSize)%nat → (0 < blockSize)%nat →
  create2DArray str lineSize blockSize = Ok (blocks str lineSize blockSize).
Proof.
  intros Hline Hblock. unfold create2DArray, blocks.
  rewrite chunkString_chunks by exact Hline. simpl.
  apply map_m_pure. intros line. apply chunkString_chunks. exact Hblock.
Qed.

Lemma blocks_length str lineSize blockSize :
  length (blocks str lineSize blockSize) = chunk_count (String.length str) lineSize.
Proof. unfold blocks, chunks. rewrite !length_map, length_seq. reflexivity. Qed.

Lemma concat_blocks str lineSize blockSize :
  (0 < lineSize)%nat → (0 < blockSize)%nat →
  String.concat "" (map (String.concat "") (blocks str lineSize blockSize)) = str.
Proof.
  intros Hline Hblock. unfold blocks. rewrite List.map_map.
  rewrite (map_ext _ id); [|intros line; apply concat_chunks; exact Hblock].
  rewrite map_id. apply concat_chunks. exact Hline.
Qed.

Lemma chunk_count_mono a b size :
  (a ≤ b)%nat → (chunk_count a size ≤ chunk_count b size)%nat.
Proof. intros H. unfold chunk_count. apply Nat.Div0.div_le_mono. lia. Qed.

Lemma chunk_count_pos len size : (0 < size)%nat → (0 < len)%nat → (0 < chunk_count len size)%nat.
Proof. intros Hsize Hlen. apply (chunk_count_spec len size O Hsize). lia. Qed.

Lemma blocks_bounds str lineSize blockSize :
  (0 < lineSize)%nat → (0 < blockSize)%nat →
  Forall (λ row, (1 ≤ length row ≤ chunk_count lineSize blockSize)%nat ∧
                 Forall (λ c, (1 ≤ String.length c ≤ blockSize)%nat) row)
    (blocks str lineSize blockSize).
Proof.
  intros Hline Hblock. unfold blocks. apply Forall_map.
  eapply Forall_impl; [apply (chunks_bounds str lineSize Hline)|].
  intros line [Hl1 Hl2]. simpl. split; [|apply chunks_bounds; exact Hblock].
  unfold chunks. rewrite length_map, length_seq. split.
  - apply chunk_count_pos; lia.
  - apply chunk_count_mono. exact Hl2.
Qed.

Lemma chunk_count_multiple n size : (0 < size)%nat → chunk_count (n * size) size = n.
Proof.
  intros Hsize. unfold chunk_count.
  replace (n * size + size - 1)%nat with (size - 1 + n * size)%nat by lia.
  rewrite Nat.div_add by lia. rewrite Nat.div_small by lia. reflexivity.
Qed.

(** The loop of lines 119-124, from line [k] on. *)
Lemma interlace_loop lineSize (rows1 rowsS rows2 : list (list string)) n k acc :
  n = (length rows1 - k)%nat → (k ≤ length rows1)%nat →
  (length rows1 ≤ length rowsS)%nat → (length rows1 ≤ length rows2)%nat →
  for_loop_m k n (λ i interlacedArray,
    row1 ← spread_row "" (rows1 !! i);
    row2 ← spread_row (pretty (i * lineSize + 1)%nat) (rowsS !! i);
    row3 ← spread_row "" (rows2 !! i);
    Ok (interlacedArray ++ [row1; row2; row3; [""; ""; ""; ""; ""; ""]])) acc
  = Ok (acc ++ interlace lineSize k (drop k rows1) (drop k rowsS) (drop k rows2)).
Proof.
  revert k acc. induction n as [|n IH]; intros k acc Hn Hk HS H2.
  - assert (k = length rows1) by lia. subst k.
    rewrite drop_all. simpl. rewrite app_nil_r. reflexivity.
  - rewrite for_loop_m_first.
    destruct (lookup_lt_is_Some_2 rows1 k) as [r1 Hr1]; [lia|].
    destruct (lookup_lt_is_Some_2 rowsS k) as [rs Hrs]; [lia|].
    destruct (lookup_lt_is_Some_2 rows2 k) as [r2 Hr2]; [lia|].
    rewrite Hr1, Hrs, Hr2. simpl.
    rewrite IH by lia.
    rewrite (drop_S rows1 r1 k Hr1), (drop_S rowsS rs k Hrs), (drop_S rows2 r2 k Hr2).
    simpl. rewrite <- app_assoc. reflexivity.
Qed.

Lemma for_loop_m_returns {S : Type} lo n (body : nat → S → result S) s :
  (∀ k st, (lo ≤ k < lo + n)%nat → ∃ st', body k st = Ok st') →
  ∃ st', for_loop_m lo n body s = Ok st'.
Proof.
  intros H. destruct (for_loop_m_ind (λ _ _, True) lo n body s) as (st' & Hst' & _).
  - exact I.
  - intros k st Hk _. destruct (H k st Hk) as [st' Hst']. eauto.
  - eauto.
Qed.

(** A loop throws when one of its rounds throws and the rounds before it
    return. *)
Lemma for_loop_m_throws_at {S : Type} n0 n (body : nat → S → result S) s e :
  (n0 < n)%nat →
  (∀ k st, (k < n0)%nat → ∃ st', body k st = Ok st') →
  (∀ st, body n0 st = Throw e) →
  for_loop_m 0 n body s = Throw e.
Proof.
  intros Hn Hbefore Hat. induction n as [|n IH]; [lia|].
  rewrite for_loop_m_S. simpl. destruct (decide (n0 = n)) as [->|Hne].
  - destruct (for_loop_m_returns 0 n body s) as [st Hst].
    + intros k st Hk. apply Hbefore. lia.
    + rewrite Hst. simpl. apply Hat.
  - rewrite IH by lia. reflexivity.
Qed.

(** X9: with positive sizes, [create2DArray] cuts a string into lines of
    [lineSize] characters and each line into blocks of [blockSize]
    characters: all the cells concatenated in order give the string back,
    there are [ceil(length / lineSize)] lines, and a line has between one
    and [ceil(lineSize / blockSize)] cells of one to [blockSize]
    characters. *)
Theorem X9_create2DArray_round_trip str lineSize blockSize :
  (0 < lineSize)%nat → (0 < blockSize)%nat →
  ∃ rows, create2DArray str lineSize blockSize = Ok rows ∧
    String.concat "" (map (String.concat "") rows) = str ∧
    length rows = ((String.length str + lineSize - 1) / lineSize)%nat ∧
    Forall (λ row, (1 ≤ length row ≤ (lineSize + blockSize - 1) / blockSize)%nat ∧
                   Forall (λ c, (1 ≤ String.length c ≤ blockSize)%nat) row) rows.
Proof.
  intros Hline Hblock. exists (blocks str lineSize blockSize).
  split; [apply create2DArray_blocks; assumption|].
  split; [apply concat_blocks; assumption|].
  split; [apply blocks_length|apply blocks_bounds; assumption].
Qed.

Lemma X9_create2DArray_round_trip_witness :
  (0 < 4)%nat ∧ (0 < 2)%nat ∧
  ∃ rows, create2DArray "ACGTACGTAC" 4 2 = Ok rows ∧
    String.concat "" (map (String.concat "") rows) = "ACGTACGTAC" ∧
    length rows = ((String.length "ACGTACGTAC" + 4 - 1) / 4)%nat ∧
    Forall (λ row, (1 ≤ length row ≤ (4 + 2 - 1) / 2)%nat ∧
                   Forall (λ c, (1 ≤ String.length c ≤ 2)%nat) row) rows.
Proof.
  assert (H1 : (0 < 4)%nat) by lia.
  assert (H2 : (0 < 2)%nat) by lia.
  split; [exact H1|]. split; [exact H2|].
  exact (X9_create2DArray_round_trip "ACGTACGTAC" 4 2 H1 H2).
Defined.

(** X10: with positive chunk sizes and a second aligned string at least as
    long as the first, the formatter returns, for each line of
    [chunksPerLine * basePerChunk] positions, four rows: an empty cell and
    the blocks of the first string, the 1-based start position of the line
    and the blocks of the symbol track, an empty cell and the blocks of the
    second string, and six empty cells. *)
Theorem X10_formatAsArray_table (a : alignment) basePerChunk chunksPerLine :
  (0 < basePerChunk)%nat → (0 < chunksPerLine)%nat →
  (String.length (seq1_aligned a) ≤ String.length (seq2_aligned a))%nat →
  _formatAsArray a basePerChunk chunksPerLine
  = Ok (interlace (chunksPerLine * basePerChunk) 0
          (blocks (seq1_aligned a) (chunksPerLine * basePerChunk) basePerChunk)
          (blocks (symbols_track (seq1_aligned a) (seq2_aligned a))
                  (chunksPerLine * basePerChunk) basePerChunk)
          (blocks (seq2_aligned a) (chunksPerLine * basePerChunk) basePerChunk)).
Proof.
  intros Hb Hc Hlen. unfold _formatAsArray. cbv zeta.
  assert (Hline : (0 < chunksPerLine * basePerChunk)%nat) by lia.
  rewrite !create2DArray_blocks by assumption. simpl.
  destruct (symbols_track_get (seq1_aligned a) (seq2_aligned a)) as [Hsym _].
  rewrite (interlace_loop _ _ _ _ _ 0 []).
  - rewrite !drop_0. reflexivity.
  - lia.
  - lia.
  - rewrite !blocks_length, Hsym. lia.
  - rewrite !blocks_length. apply chunk_count_mono. exact Hlen.
Qed.

Lemma X10_formatAsArray_table_witness :
  (0 < 2)%nat ∧ (0 < 2)%nat ∧
  (String.length (seq1_aligned (Alignment "ACGTA" "A-GTA"))
   ≤ String.length (seq2_aligned (Alignment "ACGTA" "A-GTA")))%nat ∧
  _formatAsArray (Alignment "ACGTA" "A-GTA") 2 2
  = Ok (interlace (2 * 2) 0
          (blocks (seq1_aligned (Alignment "ACGTA" "A-GTA")) (2 * 2) 2)
          (blocks (symbols_track (seq1_aligned (Alignment "ACGTA" "A-GTA"))
                                 (seq2_aligned (Alignment "ACGTA" "A-GTA")))
                  (2 * 2) 2)
          (blocks (seq2_aligned (Alignment "ACGTA" "A-GTA")) (2 * 2) 2)).
Proof.
  assert (H1 : (0 < 2)%nat) by lia.
  assert (H3 : (String.length (seq1_aligned (Alignment "ACGTA" "A-GTA"))
                ≤ String.length (seq2_aligned (Alignment "ACGTA" "A-GTA")))%nat)
    by (simpl; lia).
  split; [exact H1|]. split; [exact H1|]. split; [exact H3|].
  exact (X10_formatAsArray_table (Alignment "ACGTA" "A-GTA") 2 2 H1 H1 H3).
Defined.

(** X11: with a chunk size of 0, be it [basePerChunk] or [chunksPerLine],
    the formatter does not return on an alignment that is not empty: the
    line size is 0 and the loop of [chunkString] never advances. *)
Theorem X11_formatAsArray_hangs (a : alignment) basePerChunk chunksPerLine :
  basePerChunk = O ∨ chunksPerLine = O → (0 < String.length (seq1_aligned a))%nat →
  _formatAsArray a basePerChunk chunksPerLine = Hang.
Proof.
  intros Hzero Hlen. unfold _formatAsArray, create2DArray, chunkString. cbv zeta.
  assert (Hline : (chunksPerLine * basePerChunk)%nat = O) by (destruct Hzero; subst; lia).
  rewrite Hline, chunk_loop_zero_size by exact Hlen. reflexivity.
Qed.

Lemma X11_formatAsArray_hangs_witness :
  (O = O ∨ 5%nat = O) ∧ (0 < String.length (seq1_aligned (Alignment "AC" "AC")))%nat ∧
  _formatAsArray (Alignment "AC" "AC") 0 5 = Hang.
Proof.
  assert (H1 : O = O ∨ 5%nat = O) by (left; reflexivity).
  assert (H2 : (0 < String.length (seq1_aligned (Alignment "AC" "AC")))%nat) by (simpl; lia).
  split; [exact H1|]. split; [exact H2|].
  exact (X11_formatAsArray_hangs (Alignment "AC" "AC") 0 5 H1 H2).
Defined.

(** X12: strings of unequal length are not rejected as such.  With positive
    chunk sizes, when the second aligned string spans fewer lines than the
    first, the formatter throws a [TypeError], raised by the spread of the
    missing line. *)
Theorem X12_formatAsArray_short_second_string (a : alignment) basePerChunk chunksPerLine :
  (0 < basePerChunk)%nat → (0 < chunksPerLine)%nat →
  ((String.length (seq2_aligned a) + chunksPerLine * basePerChunk - 1)
     / (chunksPerLine * basePerChunk)
   < (String.length (seq1_aligned a) + chunksPerLine * basePerChunk - 1)
     / (chunksPerLine * basePerChunk))%nat →
  _formatAsArray a basePerChunk chunksPerLine = Throw TypeError.
Proof.
  intros Hb Hc Hlines. unfold _formatAsArray. cbv zeta.
  assert (Hline : (0 < chunksPerLine * basePerChunk)%nat) by lia.
  rewrite !create2DArray_blocks by assumption. simpl.
  destruct (symbols_track_get (seq1_aligned a) (seq2_aligned a)) as [Hsym _].
  set (ls := (chunksPerLine * basePerChunk)%nat) in *.
  apply (for_loop_m_throws_at (length (blocks (seq2_aligned a) ls basePerChunk))).
  - rewrite !blocks_length. exact Hlines.
  - intros k st Hk. rewrite blocks_length in Hk.
    destruct (lookup_lt_is_Some_2 (blocks (seq1_aligned a) ls basePerChunk) k) as [r1 ->];
      [rewrite blocks_length; unfold chunk_count in *; lia|].
    destruct (lookup_lt_is_Some_2
                (blocks (symbols_track (seq1_aligned a) (seq2_aligned a)) ls basePerChunk) k)
      as [rs ->]; [rewrite blocks_length, Hsym; unfold chunk_count in *; lia|].
    destruct (lookup_lt_is_Some_2 (blocks (seq2_aligned a) ls basePerChunk) k) as [r2 ->];
      [rewrite blocks_length; exact Hk|].
    simpl. eauto.
  - intros st.
    destruct (lookup_lt_is_Some_2 (blocks (seq1_aligned a) ls basePerChunk)
                (length (blocks (seq2_aligned a) ls basePerChunk))) as [r1 ->];
      [rewrite !blocks_length; exact Hlines|].
    destruct (lookup_lt_is_Some_2
                (blocks (symbols_track (seq1_aligned a) (seq2_aligned a)) ls basePerChunk)
                (length (blocks (seq2_aligned a) ls basePerChunk))) as [rs ->];
      [rewrite !blocks_length, Hsym; exact Hlines|].
    rewrite lookup_ge_None_2 by lia. reflexivity.
Qed.

Lemma X12_formatAsArray_short_second_string_witness :
  (0 < 2)%nat ∧ (0 < 2)%nat ∧
  ((String.length (seq2_aligned (Alignment "ACGTA" "AC")) + 2 * 2 - 1) / (2 * 2)
   < (String.length (seq1_aligned (Alignment "ACGTA" "AC")) + 2 * 2 - 1) / (2 * 2))%nat ∧
  _formatAsArray (Alignment "ACGTA" "AC") 2 2 = Throw TypeError.
Proof.
  assert (H1 : (0 < 2)%nat) by lia.
  assert (H3 : ((String.length (seq2_aligned (Alignment "ACGTA" "AC")) + 2 * 2 - 1) / (2 * 2)
                < (String.length (seq1_aligned (Alignment "ACGTA" "AC")) + 2 * 2 - 1)
                  / (2 * 2))%nat) by (vm_compute; lia).
  split; [exact H1|]. split; [exact H1|]. split; [exact H3|].
  exact (X12_formatAsArray_short_second_string (Alignment "ACGTA" "AC") 2 2 H1 H1 H3).
Defined.

(** ** The distance estimator *)

Lemma sumZ_app l1 l2 : sumZ (l1 ++ l2) = sumZ l1 + sumZ l2.
Proof. unfold sumZ. induction l1 as [|x l1 IH]; simpl; [reflexivity|]. rewrite IH. lia. Qed.

(** A loop that adds [f i] in round [i]. *)
Lemma for_loop_m_sum (f : nat → Z) n (body : nat → Z → result Z) :
  (∀ i d, (i < n)%nat → body i d = Ok (d + f i)) →
  for_loop_m 0 n body 0 = Ok (sumZ (map f (seq 0 n))).
Proof.
  intros Hbody.
  destruct (for_loop_m_ind (λ k d, d = sumZ (map f (seq 0 k))) 0 n body 0)
    as (d & Hd & ->).
  - reflexivity.
  - intros k st Hk ->. rewrite Hbody by lia. eexists. split; [reflexivity|].
    rewrite seq_S, map_app, sumZ_app. unfold sumZ. simpl. lia.
  - exact Hd.
Qed.

Lemma column_score_gap c2 ms mm g : column_score (Some gap_char) c2 ms mm g = g.
Proof. unfold column_score. destruct (decide _) as [_|H]; [reflexivity|]. tauto. Qed.

Lemma column_score_sym c1 c2 ms mm g : column_score c1 c2 ms mm g = column_score c2 c1 ms mm g.
Proof.
  unfold column_score.
  destruct (decide (c1 = Some gap_char ∨ c2 = Some gap_char)) as [H1|H1],
           (decide (c2 = Some gap_char ∨ c1 = Some gap_char)) as [H2|H2];
    [reflexivity|tauto|tauto|].
  destruct (decide (c1 ≠ c2)) as [H3|H3], (decide (c2 ≠ c1)) as [H4|H4];
    [reflexivity| | |reflexivity].
  - exfalso. apply H4. intros ->. apply H3. reflexivity.
  - exfalso. apply H3. intros ->. apply H4. reflexivity.
Qed.

Lemma distance_of_pair a1 a2 rest ms mm g :
  calculateDistanceFromAlignment (JArray (a1 :: a2 :: rest)) ms mm g
  = Ok (sumZ (map (λ i, column_score (String.get i a1) (String.get i a2) ms mm g)
               (seq 0 (String.length a1)))).
Proof.
  unfold calculateDistanceFromAlignment. simpl.
  apply for_loop_m_sum. intros i d _.
  destruct (decide (String.get i a1 = Some gap_char)) as [->|_]; [|reflexivity].
  rewrite column_score_gap. reflexivity.
Qed.

Lemma column_score_kinds c1 c2 ms mm g :
  column_score c1 c2 ms mm g
  = (if is_gap_column c1 c2 then g else 0)
    + (if is_mismatch_column c1 c2 then mm else 0)
    + (if is_match_column c1 c2 then ms else 0)
  ∧ ((if is_gap_column c1 c2 then 1 else 0)
     + (if is_mismatch_column c1 c2 then 1 else 0)
     + (if is_match_column c1 c2 then 1 else 0) = 1)%nat.
Proof.
  unfold column_score, is_mismatch_column, is_match_column, is_gap_column.
  destruct (decide (c1 = Some gap_char ∨ c2 = Some gap_char)) as [Hg|Hg].
  - rewrite (bool_decide_eq_true_2 _ Hg). simpl. split; lia.
  - rewrite (bool_decide_eq_false_2 _ Hg). simpl.
    destruct (decide (c1 ≠ c2)) as [Hne|He].
    + rewrite (bool_decide_eq_true_2 _ Hne), bool_decide_eq_false_2 by exact Hne.
      split; lia.
    + assert (Heq : c1 = c2) by (destruct (decide (c1 = c2)); tauto).
      rewrite (bool_decide_eq_false_2 _ He), (bool_decide_eq_true_2 _ Heq). split; lia.
Qed.

Lemma sum_by_kind (a1 a2 : string) ms mm g (l : list nat) :
  sumZ (map (λ i, column_score (String.get i a1) (String.get i a2) ms mm g) l)
  = g * Z.of_nat (length (List.filter (λ i, is_gap_column (String.get i a1) (String.get i a2)) l))
    + mm * Z.of_nat (length (List.filter
                       (λ i, is_mismatch_column (String.get i a1) (String.get i a2)) l))
    + ms * Z.of_nat (length (List.filter
                       (λ i, is_match_column (String.get i a1) (String.get i a2)) l))
  ∧ (length (List.filter (λ i, is_gap_column (String.get i a1) (String.get i a2)) l)
     + length (List.filter (λ i, is_mismatch_column (String.get i a1) (String.get i a2)) l)
     + length (List.filter (λ i, is_match_column (String.get i a1) (String.get i a2)) l)
     = length l)%nat.
Proof.
  induction l as [|i l [IH1 IH2]]; [simpl; split; [lia|reflexivity]|].
  cbn [map List.filter]. unfold sumZ in *. cbn [foldr]. rewrite IH1.
  destruct (column_score_kinds (String.get i a1) (String.get i a2) ms mm g) as [-> Hone].
  destruct (is_gap_column _ _), (is_mismatch_column _ _), (is_match_column _ _);
    cbn [length] in *; split; lia.
Qed.

Lemma seq_from_one n : seq 1 n = map S (seq 0 n).
Proof. symmetry. apply seq_shift. Qed.

Lemma sum_self (s : string) ms mm g :
  sumZ (map (λ i, column_score (String.get i s) (String.get i s) ms mm g)
         (seq 0 (String.length s)))
  = Z.of_nat (String.length (degap s)) * ms
    + Z.of_nat (String.length s - String.length (degap s)) * g
  ∧ (String.length (degap s) ≤ String.length s)%nat.
Proof.
  induction s as [|c s [IH1 IH2]]; [split; reflexivity|].
  cbn [String.length seq map]. rewrite seq_from_one, List.map_map.
  unfold sumZ in *. cbn [foldr String.get]. rewrite IH1. cbn [degap].
  destruct (decide (c = gap_char)) as [->|Hc].
  - rewrite column_score_gap. split; [|lia].
    replace (S (String.length s) - String.length (degap s))%nat
      with (S (String.length s - String.length (degap s))) by lia.
    lia.
  - unfold column_score.
    destruct (decide (Some c = Some gap_char ∨ Some c = Some gap_char)) as [[H|H]|_];
      [congruence|congruence|].
    destruct (decide (Some c ≠ Some c)) as [H|_]; [congruence|].
    cbn [String.length]. split; [|lia].
    replace (S (String.length s) - S (String.length (degap s)))%nat
      with (String.length s - String.length (degap s))%nat by lia.
    lia.
Qed.

Lemma degap_empty_all_gaps (s : string) k :
  degap s = "" → (k < String.length s)%nat → String.get k s = Some gap_char.
Proof.
  revert k. induction s as [|c s IH]; intros k Hd Hk; simpl in Hk; [lia|].
  cbn [degap] in Hd. destruct (decide (c = gap_char)) as [->|_]; [|discriminate].
  destruct k as [|k]; [reflexivity|]. simpl. apply IH; [exact Hd|lia].
Qed.

Lemma degap_first_solid (s : string) :
  degap s ≠ "" →
  ∃ n0, (n0 < String.length s)%nat ∧ String.get n0 s ≠ Some gap_char ∧
        ∀ k, (k < n0)%nat → String.get k s = Some gap_char.
Proof.
  induction s as [|c s IH]; intros Hd; [contradiction|].
  cbn [degap] in Hd. destruct (decide (c = gap_char)) as [->|Hc].
  - destruct (IH Hd) as (n0 & Hn0 & Hget & Hbefore).
    exists (S n0). simpl. split; [lia|]. split; [exact Hget|].
    intros [|k] Hk; [reflexivity|]. simpl. apply Hbefore. lia.
  - exists O. simpl. split; [lia|]. split; [congruence|]. intros k Hk. lia.
Qed.

(** X13: on an array of two aligned strings the estimator returns
    [gapScore] times the number of columns with a gap on either side, plus
    [mismatchScore] times the number of columns of two different symbols,
    plus [matchScore] times the number of columns of two equal symbols; the
    columns are the positions of the first string, and each is of exactly
    one kind. *)
Theorem X13_distance_counts_columns a1 a2 rest ms mm g :
  calculateDistanceFromAlignment (JArray (a1 :: a2 :: rest)) ms mm g
  = Ok (g * Z.of_nat (columns is_gap_column a1 a2)
        + mm * Z.of_nat (columns is_mismatch_column a1 a2)
        + ms * Z.of_nat (columns is_match_column a1 a2))
  ∧ (columns is_gap_column a1 a2 + columns is_mismatch_column a1 a2
     + columns is_match_column a1 a2 = String.length a1)%nat.
Proof.
  rewrite distance_of_pair. unfold columns.
  destruct (sum_by_kind a1 a2 ms mm g (seq 0 (String.length a1))) as [-> Hcount].
  rewrite length_seq in Hcount. split; [reflexivity|exact Hcount].
Qed.

(** X14: the estimate does not depend on the order of two aligned strings
    of the same length. *)
Theorem X14_distance_symmetric a1 a2 ms mm g :
  String.length a1 = String.length a2 →
  calculateDistanceFromAlignment (JArray [a1; a2]) ms mm g
  = calculateDistanceFromAlignment (JArray [a2; a1]) ms mm g.
Proof.
  intros Hlen. rewrite !distance_of_pair, Hlen. f_equal. f_equal.
  apply map_ext. intros i. apply column_score_sym.
Qed.

Lemma X14_distance_symmetric_witness :
  String.length "AC-T" = String.length "AGGT" ∧
  calculateDistanceFromAlignment (JArray ["AC-T"; "AGGT"]) 1 (-1) (-2)
  = calculateDistanceFromAlignment (JArray ["AGGT"; "AC-T"]) 1 (-1) (-2).
Proof.
  assert (H : String.length "AC-T" = String.length "AGGT") by reflexivity.
  split; [exact H|]. exact (X14_distance_symmetric "AC-T" "AGGT" 1 (-1) (-2) H).
Defined.

(** X15: the estimate of a string against itself is [matchScore] for each
    of its symbols and [gapScore] for each of its gaps: it grows with the
    length of the string, and is not 0 for equal strings. *)
Theorem X15_distance_of_equal_strings s ms mm g :
  calculateDistanceFromAlignment (JArray [s; s]) ms mm g
  = Ok (Z.of_nat (String.length (degap s)) * ms
        + Z.of_nat (String.length s - String.length (degap s)) * g).
Proof.
  rewrite distance_of_pair. destruct (sum_self s ms mm g) as [-> _]. reflexivity.
Qed.

(** X16: on an array of one string, the second string is [undefined], and
    it is read only at a position where the first string has no gap.  The
    estimator returns [gapScore] per position when the string holds gaps
    only, and throws a [TypeError] otherwise. *)
Theorem X16_distance_of_single_string a1 ms mm g :
  calculateDistanceFromAlignment (JArray [a1]) ms mm g
  = if decide (degap a1 = "") then Ok (Z.of_nat (String.length a1) * g)
    else Throw TypeError.
Proof.
  unfold calculateDistanceFromAlignment. simpl.
  destruct (decide (degap a1 = "")) as [Hd|Hd].
  - rewrite (for_loop_m_sum (λ _, g)).
    + f_equal. generalize (String.length a1) as n. intros n.
      generalize 0%nat as lo. induction n as [|n IH]; intros lo; [reflexivity|].
      cbn [seq map]. unfold sumZ in *. cbn [foldr]. rewrite IH. lia.
    + intros i d Hi. rewrite (degap_empty_all_gaps a1 i Hd Hi).
      destruct (decide _) as [_|H]; [reflexivity|congruence].
  - destruct (degap_first_solid a1 Hd) as (n0 & Hn0 & Hget & Hbefore).
    apply (for_loop_m_throws_at n0); [exact Hn0| |].
    + intros k st Hk. rewrite (Hbefore k Hk).
      destruct (decide _) as [_|H]; [eauto|congruence].
    + intros st. destruct (decide _) as [H|_]; [contradiction|reflexivity].
Qed.

(** ** The distance matrix *)

(** X17: [calculateDistanceMatrix] returns only for fewer than two
    sequences, with a matrix of zeros; for two sequences or more it throws
    a [TypeError], whatever the sequences and the scores, at the first
    pair. *)
Theorem X17_distance_matrix_cases sequences ms mm g :
  calculateDistanceMatrix sequences ms mm g
  = if decide (length sequences ≤ 1)%nat
    then Ok (replicate (length sequences) (replicate (length sequences) 0%Q))
    else Throw TypeError.
Proof.
  destruct (decide (length sequences ≤ 1)%nat) as [Hle|Hgt].
  - destruct sequences as [|s0 [|s1 rest]]; [reflexivity|reflexivity|simpl in Hle; lia].
  - apply calculateDistanceMatrix_throws. lia.
Qed.

(** ** The members of the guide tree *)

Lemma concat_singletons {A : Type} (l : list A) k :
  concat (imap (λ index _, [(k + index)%nat]) l) = seq k (length l).
Proof.
  revert k. induction l as [|x l IH]; intros k; [reflexivity|].
  cbn [imap concat length seq app]. rewrite Nat.add_0_r. f_equal.
  rewrite <- (IH (S k)). f_equal. apply imap_ext. intros i y _. simpl. f_equal. lia.
Qed.

Lemma initial_clusters_members (dm : qmatrix) :
  concat (imap (λ index _, [index]) dm) = seq 0 (length dm).
Proof. exact (concat_singletons dm 0). Qed.

(** A merge keeps the members: it moves those of cluster [j] behind those
    of cluster [i]. *)
Lemma merge_members (clusters : list (list nat)) i j ci cj :
  (i < j < length clusters)%nat →
  clusters !! i = Some ci → clusters !! j = Some cj →
  concat (<[i := ci ++ cj]> (delete j clusters)) ≡ₚ concat clusters.
Proof.
  intros Hij Hi Hj.
  rewrite <- (take_drop_middle clusters j cj Hj) at 2.
  rewrite delete_take_drop.
  assert (Hti : take j clusters !! i = Some ci) by (rewrite lookup_take_lt by lia; exact Hi).
  rewrite insert_app_l by (rewrite length_take; lia).
  rewrite <- (take_drop_middle (take j clusters) i ci Hti) at 2.
  rewrite insert_take_drop by (rewrite length_take; lia).
  rewrite !concat_app. cbn [concat]. rewrite ?concat_app.
  generalize (concat (take i (take j clusters))) as A.
  generalize (concat (drop (S i) (take j clusters))) as B.
  generalize (concat (drop (S j) clusters)) as C.
  intros C B A.
  rewrite <- !app_assoc. apply Permutation_app_head. apply Permutation_app_head.
  rewrite (Permutation_app_comm cj). rewrite <- !app_assoc.
  apply Permutation_app_head. apply Permutation_app_comm.
Qed.

Lemma guide_tree_members (dm : qmatrix) N fuel clusters :
  rect dm N N → clusters_wf N clusters →
  (1 ≤ length clusters)%nat → (length clusters ≤ fuel + 1)%nat →
  ∃ final,
    while_m fuel (λ clusters, bool_decide (1 < length clusters)%nat)
      (merge_step dm) clusters
    = Ok ((length clusters - 1)%nat, [final]) ∧
    final ≡ₚ concat clusters.
Proof.
  intros Hr. revert clusters. induction fuel as [|fuel IH]; intros clusters Hwf Hlen Hfuel.
  - destruct clusters as [|c [|c' rest]]; simpl in *; try lia.
    exists c. rewrite app_nil_r. split; reflexivity.
  - destruct (decide (1 < length clusters)%nat) as [Hgt|Hle].
    + destruct (merge_step_wf dm N clusters Hr Hwf Hgt) as (clusters' & Hstep & Hlen' & Hwf').
      destruct (merge_step_spec dm N clusters Hr Hwf Hgt)
        as (i & j & ci & cj & Hij & Hi & Hj & Hmerged).
      rewrite Hstep in Hmerged. injection Hmerged as Hmerged.
      destruct (IH clusters' Hwf') as (final & Hfinal & Hperm); [lia|lia|].
      exists final. split.
      * simpl. rewrite bool_decide_eq_true_2 by exact Hgt.
        rewrite Hstep. simpl. rewrite Hfinal. simpl. do 2 f_equal. lia.
      * rewrite Hperm, Hmerged. apply merge_members; assumption.
    + destruct clusters as [|c [|c' rest]]; simpl in *; try lia.
      exists c. rewrite app_nil_r. split; reflexivity.
Qed.

(** X18: the guide tree built from an [N]×[N] distance matrix, [N ≥ 1],
    is a permutation of the sequence indices [0 .. N-1]: merging never
    loses, repeats or invents a sequence. *)
Theorem X18_guide_tree_is_permutation (dm : qmatrix) N :
  (1 ≤ N)%nat → rect dm N N →
  ∃ final, constructGuideTree dm = Ok (Some final) ∧ final ≡ₚ seq 0 N.
Proof.
  intros HN Hr. pose proof Hr as [Hlen _].
  unfold constructGuideTree, guide_tree_loop. cbv zeta.
  destruct (guide_tree_members dm N (length (imap (λ index _, [index]) dm))
              (imap (λ index _, [index]) dm)) as (final & Hfinal & Hperm).
  - exact Hr.
  - rewrite <- Hlen. apply initial_clusters_wf.
  - rewrite length_imap. lia.
  - lia.
  - exists final. rewrite Hfinal. split; [reflexivity|].
    rewrite Hperm, initial_clusters_members, Hlen. reflexivity.
Qed.

Lemma X18_guide_tree_is_permutation_witness :
  (1 ≤ 3)%nat ∧ rect [[0; 1; 5]; [1; 0; 4]; [5; 4; 0]]%Q 3 3 ∧
  ∃ final, constructGuideTree [[0; 1; 5]; [1; 0; 4]; [5; 4; 0]]%Q = Ok (Some final) ∧
           final ≡ₚ seq 0 3.
Proof.
  assert (H1 : (1 ≤ 3)%nat) by lia.
  assert (H2 : rect [[0; 1; 5]; [1; 0; 4]; [5; 4; 0]]%Q 3 3)
    by (split; [reflexivity|repeat constructor]).
  split; [exact H1|]. split; [exact H2|].
  exact (X18_guide_tree_is_permutation [[0; 1; 5]; [1; 0; 4]; [5; 4; 0]]%Q 3 H1 H2).
Defined.

(** ** Progressive alignment *)

Lemma split_join (sequences : list string) :
  map string_of_list_ascii (map list_ascii_of_string sequences) = sequences.
Proof.
  rewrite List.map_map. rewrite (map_ext _ id); [apply map_id|].
  intros s. apply string_of_list_ascii_of_string.
Qed.

Lemma progressive_round_throws sequences ms mm g g0 g1 rest aligned :
  progressive_round sequences ms mm g (Leaf g0 :: Leaf g1 :: map Leaf rest, aligned)
  = Throw TypeError.
Proof.
  unfold progressive_round. cbn [length].
  rewrite for_loop_m_first.
  replace (S (S (length (map Leaf rest))) - (0 + 1))%nat
    with (S (length (map Leaf rest))) by lia.
  rewrite for_loop_m_first. cbn [lookup list_lookup Nat.add defined bind at_node].
  destruct (sequences !! g0) as [seq1|]; [|reflexivity].
  destruct (sequences !! g1) as [seq2|]; reflexivity.
Qed.

(** X19: [progressiveAlignment] returns only on a guide tree of at most
    one index, with the sequences as they were given.  On an [undefined]
    guide tree, and on a guide tree of two indices or more whatever the
    sequences and the scores, it throws a [TypeError]: no pair of sequences
    is ever aligned. *)
Theorem X19_progressive_alignment_cases sequences guideTree ms mm g :
  progressiveAlignment sequences guideTree ms mm g
  = match guideTree with
    | Some tree => if decide (length tree ≤ 1)%nat then Ok sequences else Throw TypeError
    | None => Throw TypeError
    end.
Proof.
  destruct guideTree as [tree|]; [|reflexivity].
  unfold progressiveAlignment. cbn [defined bind].
  destruct tree as [|g0 [|g1 rest]].
  - simpl. rewrite split_join. reflexivity.
  - simpl. rewrite split_join. reflexivity.
  - destruct (decide _) as [H|_]; [simpl in H; lia|].
    cbn [length while_m map fst bool_decide].
    rewrite bool_decide_eq_true_2 by (simpl; lia).
    rewrite progressive_round_throws. reflexivity.
Qed.

(** ** [align] *)

Lemma for_of_m_cons {A S : Type} (x : A) xs (body : A → S → result S) s st :
  body x s = Ok st → for_of_m (x :: xs) body s = for_of_m xs body st.
Proof. intros H. unfold for_of_m. simpl. rewrite H. reflexivity. Qed.

Lemma degap_list_nil : degap_list [] = [].
Proof. reflexivity. Qed.

Lemma degap_list_cons_gap l : degap_list (gap_char :: l) = degap_list l.
Proof. unfold degap_list. rewrite filter_cons_False; [reflexivity|]. intros H. apply H. reflexivity. Qed.

Lemma degap_list_cons_other c l : c ≠ gap_char → degap_list (c :: l) = c :: degap_list l.
Proof. intros H. unfold degap_list. rewrite filter_cons_True by exact H. reflexivity. Qed.

Lemma degap_list_snoc_gap l : degap_list (l ++ [gap_char]) = degap_list l.
Proof.
  unfold degap_list. rewrite filter_app. fold (degap_list [gap_char]).
  rewrite degap_list_cons_gap, degap_list_nil, app_nil_r. reflexivity.
Qed.

Lemma degap_list_snoc_other c l : c ≠ gap_char → degap_list (l ++ [c]) = degap_list l ++ [c].
Proof.
  intros H. unfold degap_list. rewrite filter_app. fold (degap_list [c]).
  rewrite degap_list_cons_other by exact H. reflexivity.
Qed.

Lemma degap_list_head l : degap_list l !! 0%nat ≠ Some gap_char.
Proof.
  intros H. apply list_elem_of_lookup_2 in H. unfold degap_list in H.
  apply list_elem_of_filter in H. destruct H as [H _]. apply H. reflexivity.
Qed.

Lemma degap_chars (s : string) :
  list_ascii_of_string (degap s) = degap_list (list_ascii_of_string s).
Proof.
  induction s as [|c s IH]; [reflexivity|]. cbn [degap list_ascii_of_string].
  destruct (decide (c = gap_char)) as [->|Hc].
  - rewrite degap_list_cons_gap. exact IH.
  - rewrite degap_list_cons_other by exact Hc. simpl. rewrite IH. reflexivity.
Qed.

Lemma length_chars (s : string) : length (list_ascii_of_string s) = String.length s.
Proof. induction s as [|c s IH]; simpl; [reflexivity|]. rewrite IH. reflexivity. Qed.

(** The loop of [align], from the state it starts in. *)
Lemma align_loop_inv (sequence : list ascii) (l : list ascii) :
  ∃ aligned seqIndex,
    for_of_m l (λ base '(aligned, seqIndex),
      sequence ← defined (Some sequence);
      Ok (if decide (Some base = sequence !! seqIndex)
          then (aligned ++ [base], S seqIndex)
          else (aligned ++ [gap_char], seqIndex))) ([], O)
    = Ok (aligned, seqIndex) ∧
    length aligned = length l ∧
    (seqIndex ≤ length sequence)%nat ∧
    (Forall (λ c, c ≠ gap_char) sequence → degap_list aligned = take seqIndex sequence).
Proof.
  induction l as [|base l IH] using rev_ind.
  - exists [], O. split; [reflexivity|]. split; [reflexivity|]. split; [lia|].
    intros _. rewrite take_0. reflexivity.
  - destruct IH as (aligned & k & Hloop & Hlen & Hk & Hsolid).
    rewrite for_of_m_snoc, Hloop. cbn [bind defined].
    destruct (decide (Some base = sequence !! k)) as [Hbase|Hbase].
    + exists (aligned ++ [base]), (S k). split; [reflexivity|].
      rewrite !length_app, Hlen. split; [reflexivity|].
      symmetry in Hbase. split; [apply lookup_lt_Some in Hbase; lia|].
      intros Hfree. rewrite (take_S_r _ _ _ Hbase), <- (Hsolid Hfree).
      apply degap_list_snoc_other.
      exact (proj1 (Forall_lookup _ _) Hfree k base Hbase).
    + exists (aligned ++ [gap_char]), k. split; [reflexivity|].
      rewrite !length_app, Hlen. split; [reflexivity|]. split; [exact Hk|].
      intros Hfree. rewrite degap_list_snoc_gap. apply Hsolid. exact Hfree.
Qed.

(** The loop of [align] on a sequence and the same sequence with gaps put
    in, from any position on. *)
Lemma align_loop_gapped (l pre acc : list ascii) :
  for_of_m l (λ base '(aligned, seqIndex),
    sequence ← defined (Some (pre ++ degap_list l));
    Ok (if decide (Some base = sequence !! seqIndex)
        then (aligned ++ [base], S seqIndex)
        else (aligned ++ [gap_char], seqIndex))) (acc, length pre)
  = Ok (acc ++ l, length (pre ++ degap_list l)).
Proof.
  revert pre acc. induction l as [|base l IH]; intros pre acc.
  - rewrite degap_list_nil, !app_nil_r. reflexivity.
  - destruct (decide (base = gap_char)) as [->|Hbase].
    + rewrite degap_list_cons_gap.
      rewrite (for_of_m_cons _ _ _ _ (acc ++ [gap_char], length pre));
        [rewrite IH, <- app_assoc; reflexivity|].
      cbn [defined bind]. rewrite lookup_app_r by lia. rewrite Nat.sub_diag.
      destruct (decide _) as [H|_]; [|reflexivity].
      exfalso. symmetry in H. exact (degap_list_head l H).
    + rewrite degap_list_cons_other by exact Hbase.
      replace (pre ++ base :: degap_list l) with ((pre ++ [base]) ++ degap_list l)
        by (rewrite <- app_assoc; reflexivity).
      rewrite (for_of_m_cons _ _ _ _ (acc ++ [base], length (pre ++ [base]))).
      * rewrite IH, <- app_assoc. reflexivity.
      * cbn [defined bind]. rewrite <- app_assoc. cbn [app].
        rewrite list_lookup_middle by reflexivity.
        destruct (decide _) as [_|H]; [|congruence].
        rewrite length_app. cbn [length]. rewrite Nat.add_1_r. reflexivity.
Qed.

(** The loop of [align] on a sequence against itself. *)
Lemma align_loop_same (l pre acc : list ascii) :
  for_of_m l (λ base '(aligned, seqIndex),
    sequence ← defined (Some (pre ++ l));
    Ok (if decide (Some base = sequence !! seqIndex)
        then (aligned ++ [base], S seqIndex)
        else (aligned ++ [gap_char], seqIndex))) (acc, length pre)
  = Ok (acc ++ l, length (pre ++ l)).
Proof.
  revert pre acc. induction l as [|base l IH]; intros pre acc.
  - rewrite !app_nil_r. reflexivity.
  - replace (pre ++ base :: l) with ((pre ++ [base]) ++ l)
      by (rewrite <- app_assoc; reflexivity).
    rewrite (for_of_m_cons _ _ _ _ (acc ++ [base], length (pre ++ [base]))).
    + rewrite IH, <- app_assoc. reflexivity.
    + cbn [defined bind]. rewrite <- app_assoc. cbn [app].
      rewrite list_lookup_middle by reflexivity.
      destruct (decide _) as [_|H]; [|congruence].
      rewrite length_app. cbn [length]. rewrite Nat.add_1_r. reflexivity.
Qed.

(** X20: [align] returns one character for each character of the aligned
    string, whatever the sequence. *)
Theorem X20_align_length (sequence : list ascii) (alignedSequence : string) :
  ∃ aligned, align (Some sequence) (Some alignedSequence) = Ok aligned ∧
             length aligned = String.length alignedSequence.
Proof.
  unfold align. cbn [defined bind].
  destruct (align_loop_inv sequence (list_ascii_of_string alignedSequence))
    as (aligned & k & Hloop & Hlen & _).
  cbn [defined bind] in Hloop. exists aligned. rewrite Hloop. split; [reflexivity|].
  rewrite Hlen. apply length_chars.
Qed.

(** X21: on a sequence without gaps, the result of [align] without its
    gaps is a prefix of the sequence: the symbols of the sequence are kept
    in order, none is changed, and the rest of the sequence is dropped. *)
Theorem X21_align_keeps_prefix (sequence : list ascii) (alignedSequence : string) :
  Forall (λ c, c ≠ gap_char) sequence →
  ∃ aligned seqIndex,
    align (Some sequence) (Some alignedSequence) = Ok aligned ∧
    (seqIndex ≤ length sequence)%nat ∧
    degap_list aligned = take seqIndex sequence.
Proof.
  intros Hfree. unfold align. cbn [defined bind].
  destruct (align_loop_inv sequence (list_ascii_of_string alignedSequence))
    as (aligned & k & Hloop & _ & Hk & Hsolid).
  cbn [defined bind] in Hloop. exists aligned, k. rewrite Hloop. split; [reflexivity|]. split; [exact Hk|].
  apply Hsolid. exact Hfree.
Qed.

Lemma X21_align_keeps_prefix_witness :
  Forall (λ c, c ≠ gap_char) (list_ascii_of_string "ACGT") ∧
  ∃ aligned seqIndex,
    align (Some (list_ascii_of_string "ACGT")) (Some "CAT") = Ok aligned ∧
    (seqIndex ≤ length (list_ascii_of_string "ACGT"))%nat ∧
    degap_list aligned = take seqIndex (list_ascii_of_string "ACGT").
Proof.
  assert (H : Forall (λ c, c ≠ gap_char) (list_ascii_of_string "ACGT"))
    by (repeat constructor; discriminate).
  split; [exact H|].
  exact (X21_align_keeps_prefix (list_ascii_of_string "ACGT") "CAT" H).
Defined.

(** X22: [align] gives an aligned string back when the sequence is that
    string without its gaps: the gaps that the alignment put into a
    sequence are put into it again. *)
Theorem X22_align_restores_gaps (alignedSequence : string) :
  align (Some (list_ascii_of_string (degap alignedSequence))) (Some alignedSequence)
  = Ok (list_ascii_of_string alignedSequence).
Proof.
  unfold align. cbn [defined bind]. rewrite degap_chars.
  pose proof (align_loop_gapped (list_ascii_of_string alignedSequence) [] []) as H.
  cbn [app length] in H. cbn [defined bind] in *. rewrite H. reflexivity.
Qed.

(** X23: [align] of a sequence against itself gives the sequence, gaps
    included. *)
Theorem X23_align_same (s : string) :
  align (Some (list_ascii_of_string s)) (Some s) = Ok (list_ascii_of_string s).
Proof.
  unfold align. cbn [defined bind].
  pose proof (align_loop_same (list_ascii_of_string s) [] []) as H.
  cbn [app length] in H. cbn [defined bind] in *. rewrite H. reflexivity.
Qed.

(** ** The table of the multiple-alignment formatter *)

Lemma length_zero_empty (s : string) : String.length s = O → s = "".
Proof. destruct s; [reflexivity|discriminate]. Qed.

Lemma substring_beyond (s : string) n m : (String.length s ≤ n)%nat → substring n m s = "".
Proof. intros H. apply length_zero_empty. rewrite substring_length. lia. Qed.

Lemma substring_inside (s : string) n m :
  (0 < m)%nat → (n < String.length s)%nat → substring n m s ≠ "".
Proof.
  intros Hm Hn Heq. apply (f_equal String.length) in Heq.
  rewrite substring_length in Heq. simpl in Heq. lia.
Qed.

Lemma chunk_line_chunks line basePerChunk :
  (0 < basePerChunk)%nat → line ≠ "" →
  chunk_line line basePerChunk = Ok (String.concat " " (chunks line basePerChunk)).
Proof.
  intros Hb Hline. unfold chunk_line.
  destruct (decide (basePerChunk = O)) as [H|_]; [lia|].
  destruct (decide (line = "")) as [H|_]; [contradiction|].
  rewrite chunkString_chunks by exact Hb. reflexivity.
Qed.

Lemma chunk_line_empty basePerChunk :
  (0 < basePerChunk)%nat → chunk_line "" basePerChunk = Throw TypeError.
Proof.
  intros Hb. unfold chunk_line.
  destruct (decide (basePerChunk = O)) as [H|_]; [lia|]. reflexivity.
Qed.

Lemma chunk_line_cases line basePerChunk :
  (0 < basePerChunk)%nat →
  (∃ cells, chunk_line line basePerChunk = Ok cells) ∨
  chunk_line line basePerChunk = Throw TypeError.
Proof.
  intros Hb. destruct (decide (line = "")) as [->|Hline].
  - right. apply chunk_line_empty. exact Hb.
  - left. rewrite chunk_line_chunks by assumption. eauto.
Qed.

(** A loop whose rounds return or throw [e] returns or throws [e]. *)
Lemma for_loop_m_cases {S : Type} n (body : nat → S → result S) s e :
  (∀ k st, (k < n)%nat → (∃ st', body k st = Ok st') ∨ body k st = Throw e) →
  (∃ st', for_loop_m 0 n body s = Ok st') ∨ for_loop_m 0 n body s = Throw e.
Proof.
  intros Hbody. induction n as [|n IH]; [left; exists s; reflexivity|].
  rewrite for_loop_m_S. destruct IH as [[st Hst]|Hthrow].
  - intros k st Hk. apply Hbody. lia.
  - rewrite Hst. simpl. apply Hbody. lia.
  - right. rewrite Hthrow. reflexivity.
Qed.

(** It throws [e] when, besides, one of its rounds throws [e] for sure. *)
Lemma for_loop_m_throws_within {S : Type} n0 n (body : nat → S → result S) s e :
  (n0 < n)%nat →
  (∀ k st, (k < n0)%nat → (∃ st', body k st = Ok st') ∨ body k st = Throw e) →
  (∀ st, body n0 st = Throw e) →
  for_loop_m 0 n body s = Throw e.
Proof.
  intros Hn Hbefore Hat. induction n as [|n IH]; [lia|].
  rewrite for_loop_m_S. simpl. destruct (decide (n0 = n)) as [->|Hne].
  - destruct (for_loop_m_cases n body s e Hbefore) as [[st Hst]|Hthrow].
    + rewrite Hst. simpl. apply Hat.
    + rewrite Hthrow. reflexivity.
  - rewrite IH by lia. reflexivity.
Qed.

(** Lines 173-179: the rows of one line, when every sequence reaches it. *)
Lemma format_rows (alignedSequences : list string) basePerChunk chunkSize i output :
  (0 < basePerChunk)%nat → (0 < chunkSize)%nat →
  Forall (λ sequence, (i < String.length sequence)%nat) alignedSequences →
  for_loop_m 0 (length alignedSequences) (λ j output,
    sequence ← defined (alignedSequences !! j);
    let indexLine := padStart (pretty (j * 2)%nat) 4 +:+ " " in
    let sequenceLine := substring i chunkSize sequence in
    chunkedSequenceLine ← chunk_line sequenceLine basePerChunk;
    Ok (output ++ [[indexLine; chunkedSequenceLine]])) output
  = Ok (output ++ imap (λ j sequence,
          [padStart (pretty (j * 2)%nat) 4 +:+ " ";
           String.concat " " (chunks (substring i chunkSize sequence) basePerChunk)])
          alignedSequences).
Proof.
  intros Hb Hc Hreach.
  loop_rule (λ (j : nat) (out : list (list string)),
    out = output ++ imap (λ j sequence,
            [padStart (pretty (j * 2)%nat) 4 +:+ " ";
             String.concat " " (chunks (substring i chunkSize sequence) basePerChunk)])
            (take j alignedSequences)) Hloop.
  destruct Hloop as (out & Hout & Hinv).
  - rewrite take_0. simpl. rewrite app_nil_r. reflexivity.
  - intros j st Hj ->.
    destruct (lookup_lt_is_Some_2 alignedSequences j) as [sequence Hseq]; [lia|].
    rewrite Hseq. cbn [defined bind]. cbv zeta.
    rewrite chunk_line_chunks.
    + cbn [bind]. eexists. split; [reflexivity|].
      rewrite (take_S_r _ _ _ Hseq), imap_app. cbn [imap].
      rewrite length_take, Nat.min_l by lia. rewrite Nat.add_0_r, <- app_assoc.
      reflexivity.
    + exact Hb.
    + apply substring_inside; [exact Hc|].
      exact (proj1 (Forall_lookup _ _) Hreach j sequence Hseq).
  - rewrite Hout. simpl in Hinv. rewrite Hinv, firstn_all. reflexivity.
Qed.

(** The rounds of one line return or throw a [TypeError]. *)
Lemma format_rows_cases (alignedSequences : list string) basePerChunk chunkSize i output :
  (0 < basePerChunk)%nat →
  (∃ output', for_loop_m 0 (length alignedSequences) (λ j output,
      sequence ← defined (alignedSequences !! j);
      chunkedSequenceLine ← chunk_line (substring i chunkSize sequence) basePerChunk;
      Ok (output ++ [[padStart (pretty (j * 2)%nat) 4 +:+ " "; chunkedSequenceLine]])) output = Ok output') ∨
  for_loop_m 0 (length alignedSequences) (λ j output,
      sequence ← defined (alignedSequences !! j);
      chunkedSequenceLine ← chunk_line (substring i chunkSize sequence) basePerChunk;
      Ok (output ++ [[padStart (pretty (j * 2)%nat) 4 +:+ " "; chunkedSequenceLine]])) output = Throw TypeError.
Proof.
  intros Hb. apply for_loop_m_cases. intros j st Hj.
  destruct (lookup_lt_is_Some_2 alignedSequences j Hj) as [sequence ->].
  cbn [defined bind]. cbv zeta.
  destruct (chunk_line_cases (substring i chunkSize sequence) basePerChunk Hb)
    as [[cells ->]| ->]; [left; simpl; eauto|right; reflexivity].
Qed.

(** Lines 172-181 from line [k] on, when every sequence spans all the
    lines. *)
Lemma format_loop_lines (alignedSequences : list string) basePerChunk chunkSize
    alignmentLength n :
  (0 < basePerChunk)%nat → (0 < chunkSize)%nat →
  Forall (λ sequence, (chunk_count alignmentLength chunkSize
                       ≤ chunk_count (String.length sequence) chunkSize)%nat)
    alignedSequences →
  ∀ k fuel output,
    n = (chunk_count alignmentLength chunkSize - k)%nat →
    (k ≤ chunk_count alignmentLength chunkSize)%nat → (n ≤ fuel)%nat →
    format_loop fuel alignedSequences basePerChunk chunkSize alignmentLength
      (k * chunkSize) output
    = Ok (output ++ concat (map (λ k,
            imap (λ j sequence,
              [padStart (pretty (j * 2)%nat) 4 +:+ " ";
               String.concat " "
                 (chunks (substring (k * chunkSize) chunkSize sequence) basePerChunk)])
              alignedSequences ++ [[""]]) (seq k n))).
Proof.
  intros Hb Hc Hspan. induction n as [|n IH]; intros k fuel output Hn Hk Hfuel.
  - assert (Hstop : ¬ (k * chunkSize < alignmentLength)%nat).
    { intros H. apply (chunk_count_spec _ _ _ Hc) in H. lia. }
    destruct fuel; simpl; destruct (decide _) as [H|_]; try contradiction;
      rewrite app_nil_r; reflexivity.
  - assert (Hgo : (k * chunkSize < alignmentLength)%nat).
    { apply (chunk_count_spec _ _ _ Hc). lia. }
    destruct fuel as [|fuel]; [lia|]. cbn [format_loop].
    destruct (decide _) as [_|H]; [|contradiction].
    rewrite format_rows; [|exact Hb|exact Hc|].
    + cbn [bind].
      replace (k * chunkSize + chunkSize)%nat with (S k * chunkSize)%nat by lia.
      rewrite IH by lia. cbn [seq map concat]. rewrite <- !app_assoc. reflexivity.
    + eapply Forall_impl; [exact Hspan|]. intros sequence Hs. simpl in Hs.
      apply (chunk_count_spec _ _ _ Hc). lia.
Qed.

(** Lines 172-181 from line [k] on, when sequence [j] ends before line
    [kj], which the first sequence reaches. *)
Lemma format_loop_throws (alignedSequences : list string) basePerChunk chunkSize
    alignmentLength j sequence n :
  (0 < basePerChunk)%nat → (0 < chunkSize)%nat →
  alignedSequences !! j = Some sequence →
  (chunk_count (String.length sequence) chunkSize
   < chunk_count alignmentLength chunkSize)%nat →
  ∀ k fuel output,
    n = (chunk_count (String.length sequence) chunkSize - k)%nat →
    (k ≤ chunk_count (String.length sequence) chunkSize)%nat →
    (chunk_count alignmentLength chunkSize - k ≤ fuel)%nat →
    format_loop fuel alignedSequences basePerChunk chunkSize alignmentLength
      (k * chunkSize) output
    = Throw TypeError.
Proof.
  intros Hb Hc Hseq Hshort. induction n as [|n IH]; intros k fuel output Hn Hk Hfuel.
  - assert (Hgo : (k * chunkSize < alignmentLength)%nat).
    { apply (chunk_count_spec _ _ _ Hc). lia. }
    destruct fuel as [|fuel]; [lia|]. cbn [format_loop].
    destruct (decide _) as [_|H]; [|contradiction].
    rewrite (for_loop_m_throws_within j _ _ _ TypeError).
    + reflexivity.
    + eapply lookup_lt_Some. exact Hseq.
    + intros j' st Hj'.
      destruct (lookup_lt_is_Some_2 alignedSequences j') as [s' ->].
      { apply lookup_lt_Some in Hseq. lia. }
      cbn [defined bind]. cbv zeta.
      destruct (chunk_line_cases (substring (k * chunkSize) chunkSize s') basePerChunk Hb)
        as [[cells ->]| ->]; [left; simpl; eauto|right; reflexivity].
    + intros st. rewrite Hseq. cbn [defined bind]. cbv zeta.
      rewrite substring_beyond.
      * rewrite chunk_line_empty by exact Hb. reflexivity.
      * destruct (decide (k * chunkSize < String.length sequence)%nat) as [H|H]; [|lia].
        apply (chunk_count_spec _ _ _ Hc) in H. lia.
  - assert (Hgo : (k * chunkSize < alignmentLength)%nat).
    { apply (chunk_count_spec _ _ _ Hc). lia. }
    destruct fuel as [|fuel]; [lia|]. cbn [format_loop].
    destruct (decide _) as [_|H]; [|contradiction].
    destruct (format_rows_cases alignedSequences basePerChunk chunkSize
                (k * chunkSize) output Hb) as [[output' ->]| ->]; [|reflexivity].
    cbn [bind].
    replace (k * chunkSize + chunkSize)%nat with (S k * chunkSize)%nat by lia.
    apply IH; lia.
Qed.

(** X24: with positive chunk sizes, when every sequence spans at least as
    many lines of [basePerChunk * chunksPerLine] positions as the first
    one, [formatMultipleAlignment] returns, for each line of the first
    sequence, one row per sequence followed by a row of one empty cell.
    The row of sequence [j] holds the label [2 * j], padded to four
    characters and followed by a space, and the blocks of [basePerChunk]
    characters of that line, joined by spaces. *)
Theorem X24_formatMultipleAlignment_table (alignedSequences : list string) first
    basePerChunk chunksPerLine :
  (0 < basePerChunk)%nat → (0 < chunksPerLine)%nat →
  alignedSequences !! 0%nat = Some first →
  Forall (λ sequence,
    ((String.length first + basePerChunk * chunksPerLine - 1) / (basePerChunk * chunksPerLine)
     ≤ (String.length sequence + basePerChunk * chunksPerLine - 1)
       / (basePerChunk * chunksPerLine))%nat) alignedSequences →
  formatMultipleAlignment alignedSequences basePerChunk chunksPerLine
  = Ok (format_lines alignedSequences basePerChunk (basePerChunk * chunksPerLine)
          ((String.length first + basePerChunk * chunksPerLine - 1)
           / (basePerChunk * chunksPerLine))).
Proof.
  intros Hb Hc Hfirst Hspan. unfold formatMultipleAlignment. rewrite Hfirst.
  cbn [defined bind]. cbv zeta.
  assert (Hsize : (0 < basePerChunk * chunksPerLine)%nat) by lia.
  pose proof (format_loop_lines alignedSequences basePerChunk
                (basePerChunk * chunksPerLine) (String.length first)
                (chunk_count (String.length first) (basePerChunk * chunksPerLine))
                Hb Hsize Hspan 0 (String.length first) []) as H.
  cbn [Nat.mul app] in H. rewrite H; [reflexivity|lia|lia|].
  apply chunk_count_le. exact Hsize.
Qed.

Lemma X24_formatMultipleAlignment_table_witness :
  (0 < 2)%nat ∧ (0 < 2)%nat ∧
  ["ACGTAC"; "AC-TACG"] !! 0%nat = Some "ACGTAC" ∧
  Forall (λ sequence,
    ((String.length "ACGTAC" + 2 * 2 - 1) / (2 * 2)
     ≤ (String.length sequence + 2 * 2 - 1) / (2 * 2))%nat) ["ACGTAC"; "AC-TACG"] ∧
  formatMultipleAlignment ["ACGTAC"; "AC-TACG"] 2 2
  = Ok (format_lines ["ACGTAC"; "AC-TACG"] 2 (2 * 2)
          ((String.length "ACGTAC" + 2 * 2 - 1) / (2 * 2))).
Proof.
  assert (H1 : (0 < 2)%nat) by lia.
  assert (H2 : ["ACGTAC"; "AC-TACG"] !! 0%nat = Some "ACGTAC") by reflexivity.
  assert (H3 : Forall (λ sequence,
    ((String.length "ACGTAC" + 2 * 2 - 1) / (2 * 2)
     ≤ (String.length sequence + 2 * 2 - 1) / (2 * 2))%nat) ["ACGTAC"; "AC-TACG"])
    by (repeat constructor; vm_compute; lia).
  split; [exact H1|]. split; [exact H1|]. split; [exact H2|]. split; [exact H3|].
  exact (X24_formatMultipleAlignment_table ["ACGTAC"; "AC-TACG"] "ACGTAC" 2 2 H1 H1 H2 H3).
Defined.

(** X25: with positive chunk sizes, when some sequence spans fewer lines
    than the first one, [formatMultipleAlignment] throws a [TypeError]:
    the line that the short sequence does not reach is empty, and the
    expression matches nothing in it. *)
Theorem X25_formatMultipleAlignment_short_sequence (alignedSequences : list string)
    first j sequence basePerChunk chunksPerLine :
  (0 < basePerChunk)%nat → (0 < chunksPerLine)%nat →
  alignedSequences !! 0%nat = Some first →
  alignedSequences !! j = Some sequence →
  ((String.length sequence + basePerChunk * chunksPerLine - 1) / (basePerChunk * chunksPerLine)
   < (String.length first + basePerChunk * chunksPerLine - 1)
     / (basePerChunk * chunksPerLine))%nat →
  formatMultipleAlignment alignedSequences basePerChunk chunksPerLine = Throw TypeError.
Proof.
  intros Hb Hc Hfirst Hseq Hshort. unfold formatMultipleAlignment. rewrite Hfirst.
  cbn [defined bind]. cbv zeta.
  assert (Hsize : (0 < basePerChunk * chunksPerLine)%nat) by lia.
  pose proof (format_loop_throws alignedSequences basePerChunk
                (basePerChunk * chunksPerLine) (String.length first) j sequence
                (chunk_count (String.length sequence) (basePerChunk * chunksPerLine))
                Hb Hsize Hseq Hshort 0 (String.length first) []) as H.
  cbn [Nat.mul] in H. apply H; [lia|lia|].
  pose proof (chunk_count_le (String.length first) _ Hsize). lia.
Qed.

Lemma X25_formatMultipleAlignment_short_sequence_witness :
  (0 < 2)%nat ∧ (0 < 2)%nat ∧
  ["ACGTAC"; "ACG"] !! 0%nat = Some "ACGTAC" ∧
  ["ACGTAC"; "ACG"] !! 1%nat = Some "ACG" ∧
  ((String.length "ACG" + 2 * 2 - 1) / (2 * 2)
   < (String.length "ACGTAC" + 2 * 2 - 1) / (2 * 2))%nat ∧
  formatMultipleAlignment ["ACGTAC"; "ACG"] 2 2 = Throw TypeError.
Proof.
  assert (H1 : (0 < 2)%nat) by lia.
  assert (H2 : ["ACGTAC"; "ACG"] !! 0%nat = Some "ACGTAC") by reflexivity.
  assert (H3 : ["ACGTAC"; "ACG"] !! 1%nat = Some "ACG") by reflexivity.
  assert (H4 : ((String.length "ACG" + 2 * 2 - 1) / (2 * 2)
                < (String.length "ACGTAC" + 2 * 2 - 1) / (2 * 2))%nat)
    by (vm_compute; lia).
  split; [exact H1|]. split; [exact H1|]. split; [exact H2|]. split; [exact H3|].
  split; [exact H4|].
  exact (X25_formatMultipleAlignment_short_sequence
           ["ACGTAC"; "ACG"] "ACGTAC" 1 "ACG" 2 2 H1 H1 H2 H3 H4).
Defined.

(** X26: a chunk size of 0 is not rejected as such.  On a first sequence
    that is not empty, [formatMultipleAlignment] throws at the first row of
    the first line: a [SyntaxError] for [basePerChunk = 0], whose
    expression is not a valid one, and a [TypeError] for
    [chunksPerLine = 0] alone, whose line is empty. *)
Theorem X26_formatMultipleAlignment_zero_size (alignedSequences : list string) first
    basePerChunk chunksPerLine :
  alignedSequences !! 0%nat = Some first → first ≠ "" →
  basePerChunk = O ∨ chunksPerLine = O →
  formatMultipleAlignment alignedSequences basePerChunk chunksPerLine
  = Throw (if decide (basePerChunk = O) then SyntaxError else TypeError).
Proof.
  intros Hfirst Hne Hzero. unfold formatMultipleAlignment. rewrite Hfirst.
  cbn [defined bind]. cbv zeta.
  assert (Hsize : (basePerChunk * chunksPerLine)%nat = O) by (destruct Hzero; subst; lia).
  rewrite Hsize. destruct first as [|c first]; [contradiction|].
  destruct alignedSequences as [|s0 rest]; [discriminate|].
  simpl in Hfirst. injection Hfirst as ->.
  cbn [String.length format_loop]. destruct (decide _) as [_|H]; [|lia].
  cbn [length]. rewrite for_loop_m_first. cbn [lookup list_lookup defined bind]. cbv zeta.
  rewrite substring_zero. unfold chunk_line.
  destruct (decide (basePerChunk = O)) as [_|_]; reflexivity.
Qed.

Lemma X26_formatMultipleAlignment_zero_size_witness :
  ["ACGT"; "AC-T"] !! 0%nat = Some "ACGT" ∧ "ACGT" ≠ "" ∧ (O = O ∨ 5%nat = O) ∧
  formatMultipleAlignment ["ACGT"; "AC-T"] 0 5
  = Throw (if decide (O = O) then SyntaxError else TypeError).
Proof.
  assert (H1 : ["ACGT"; "AC-T"] !! 0%nat = Some "ACGT") by reflexivity.
  assert (H2 : "ACGT" ≠ "") by discriminate.
  assert (H3 : O = O ∨ 5%nat = O) by (left; reflexivity).
  split; [exact H1|]. split; [exact H2|]. split; [exact H3|].
  exact (X26_formatMultipleAlignment_zero_size ["ACGT"; "AC-T"] "ACGT" 0 5 H1 H2 H3).
Defined.

(** ** The entry point on no sequence *)

(** X27: on an empty list of sequences the entry point throws a
    [TypeError], whatever the chunk sizes and the scores: the distance
    matrix is empty, the guide tree is [undefined], and
    [progressiveAlignment] reads its length. *)
Theorem X27_msa_of_no_sequence basePerChunk chunksPerLine ms mm g :
  calculateDistanceMatrix [] ms mm g = Ok [] ∧
  constructGuideTree [] = Ok None ∧
  multipleSequenceAlignment [] basePerChunk chunksPerLine ms mm g = Throw TypeError.
Proof. repeat split. Qed.
